(** * ENOE consolidation pipeline: a shallow embedding and its properties

    The development follows three scripts of the repository:

    - [etl-enoe/parquet.py]: header scan (pass 1), per-file load and the
      single-file Parquet writer (pass 2);
    - [etl-enoe/microdatos/apply_enoe_labels.py]: consolidation of the
      per-release dictionaries and the label lookup;
    - [etl-enoe/label_ent_mun.py]: the geographic catalog and the script
      around the labelling.

    Text is modelled as [string] over 8-bit characters and stands for ASCII
    text: case conversion, digits, white space and word characters are
    those of the ASCII range, where Python's are those of Unicode.  On a
    text of ASCII characters ([Py.ascii_text]) the two agree; a statement
    that depends on it carries that hypothesis.
    Python dictionaries are [gmap]s, Python sets are [gset]s, and the order
    in which a set is enumerated is a parameter of the model.  Outcomes of
    the CSV parser on a given file are data of that file (fields of
    [CsvFile]), and so are the partitions and the Arrow column types of
    the table that the labelling builds: the control flow around them is
    the code's. *)

From Stdlib Require Import ZArith String Ascii List DecimalString DecimalZ Permutation Sorted.
From stdpp Require Import gmap strings list fin_maps sorting.

Open Scope string_scope.
Open Scope list_scope.
Open Scope Z_scope.

(** A value held by a table cell: a missing value ([None], [pd.NA], [NaN]),
    a string or an integer. *)
Inductive pyval := PyNone | PyStr (s : string) | PyInt (n : Z).

(** ** Python string primitives (ASCII range) *)

Module Py.

Definition code (c : ascii) : Z := Z.of_N (N_of_ascii c).

(** [c.isascii()]. *)
Definition is_ascii (c : ascii) : bool := code c <? 128.

(** [str.isspace] on one character: TAB..CR, FS..US and the space. *)
Definition is_space (c : ascii) : bool :=
  ((9 <=? code c) && (code c <=? 13)) || ((28 <=? code c) && (code c <=? 32)).

Definition is_digit (c : ascii) : bool := (48 <=? code c) && (code c <=? 57).

Definition is_upper (c : ascii) : bool := (65 <=? code c) && (code c <=? 90).

Definition is_lower (c : ascii) : bool := (97 <=? code c) && (code c <=? 122).

(** [\w] of the regular expressions, on an ASCII character. *)
Definition is_word (c : ascii) : bool :=
  is_digit c || is_upper c || is_lower c || (code c =? 95).

Definition upper_char (c : ascii) : ascii :=
  if is_lower c then ascii_of_N (Z.to_N (code c - 32)) else c.

Definition lower_char (c : ascii) : ascii :=
  if is_upper c then ascii_of_N (Z.to_N (code c + 32)) else c.

Fixpoint map_chars (f : ascii -> ascii) (s : string) : string :=
  match s with
  | EmptyString => EmptyString
  | String c r => String (f c) (map_chars f r)
  end.

(** [s.upper()] and [s.lower()] on ASCII text. A character outside the
    ASCII range is left as it is, where Python may change it (and the
    length of the text with it). *)
Definition upper : string -> string := map_chars upper_char.
Definition lower : string -> string := map_chars lower_char.

Fixpoint lstrip (s : string) : string :=
  match s with
  | EmptyString => EmptyString
  | String c r => if is_space c then lstrip r else s
  end.

Fixpoint rstrip (s : string) : string :=
  match s with
  | EmptyString => EmptyString
  | String c r =>
      match rstrip r with
      | EmptyString => if is_space c then EmptyString else String c EmptyString
      | r' => String c r'
      end
  end.

Definition strip (s : string) : string := rstrip (lstrip s).

Fixpoint all_chars (p : ascii -> bool) (s : string) : bool :=
  match s with
  | EmptyString => true
  | String c r => p c && all_chars p r
  end.

(** [s.isascii()]: the text on which the primitives of this module are
    Python's. *)
Definition ascii_text (s : string) : Prop := all_chars is_ascii s = true.

Fixpoint filter_chars (p : ascii -> bool) (s : string) : string :=
  match s with
  | EmptyString => EmptyString
  | String c r => if p c then String c (filter_chars p r) else filter_chars p r
  end.

(** [\d+] against the whole string. *)
Definition digits1 (s : string) : bool :=
  match s with
  | EmptyString => false
  | _ => all_chars is_digit s
  end.

(** [re.fullmatch(r"-?\d+", s)]. *)
Definition fullmatch_int (s : string) : bool :=
  match s with
  | String "-" r => digits1 r
  | _ => digits1 s
  end.

Definition digit_val (c : ascii) : Z := code c - 48.

Fixpoint nat_digits (acc : Z) (s : string) : option Z :=
  match s with
  | EmptyString => Some acc
  | String c r => if is_digit c then nat_digits (10 * acc + digit_val c) r else None
  end.

(** [int(s)] on a string; [None] stands for [ValueError]. *)
Definition int (s : string) : option Z :=
  match s with
  | EmptyString => None
  | String "-" EmptyString => None
  | String "-" r => Z.opp <$> nat_digits 0 r
  | _ => nat_digits 0 s
  end.

(** [str(n)] on an integer. *)
Definition str (n : Z) : string := NilZero.string_of_int (Z.to_int n).

(** [f"{n:02d}"]. *)
Definition fmt_02d (n : Z) : string :=
  let s := str n in
  if (String.length s <? 2)%nat then String "0" s else s.

(** [s.zfill(w)] on a string without sign. *)
Definition zfill (w : nat) (s : string) : string :=
  String.concat "" (replicate (w - String.length s) "0") +:+ s.

(** [s.replace(old, new)] for a non-empty [old]: the occurrences are
    replaced from the left, without overlap. *)
Fixpoint replace_from (old new : string) (skip : nat) (s : string) : string :=
  match s with
  | EmptyString => EmptyString
  | String c r =>
      match skip with
      | S k => replace_from old new k r
      | O => if String.prefix old s
             then new +:+ replace_from old new (String.length old - 1) r
             else String c (replace_from old new 0 r)
      end
  end.

Definition replace (old new s : string) : string := replace_from old new 0 s.

(** Python's [sorted(l, key=key)]: a stable sort; among elements of equal
    key the order of [l] is kept. *)
Section Sorted.
Context {A K : Type} (ltb : K -> K -> bool) (key : A -> K).

Fixpoint insert_by (x : A) (l : list A) : list A :=
  match l with
  | [] => [x]
  | y :: l' => if ltb (key y) (key x) then y :: insert_by x l' else x :: l
  end.

Definition sorted (l : list A) : list A := foldr insert_by [] l.

(** [x] may stand before [y] in a sorted list. *)
Definition key_le (x y : A) : Prop := ltb (key y) (key x) = false.
End Sorted.

End Py.

(** ** Exceptions and tables *)

Inductive exn :=
  | UnicodeDecodeError
  | ParserError
  | ValueError (msg : string)
  | RuntimeError (msg : string)
  | KeyError (key : string)
  | FileNotFoundError
  | ArrowInvalid
  | SystemExit (status : Z).

Inductive result (A : Type) :=
  | Ok (a : A)
  | Raise (e : exn).
Arguments Ok {A} a.
Arguments Raise {A} e.

(** Sequencing: an exception ends the computation. *)
#[global] Instance result_bind : MBind result := fun A B k r =>
  match r with
  | Ok a => k a
  | Raise e => Raise e
  end.

Module Frame.

(** A pandas table, row by row: every row has one cell per column. *)
Record DataFrame := { columns : list string; rows : list (list pyval) }.

Definition nrows (df : DataFrame) : nat := length (rows df).

Fixpoint index_of (c : string) (cols : list string) : option nat :=
  match cols with
  | [] => None
  | c' :: r => if decide (c' = c) then Some 0%nat else S <$> index_of c r
  end.

Definition cell (row : list pyval) (i : nat) : pyval := default PyNone (row !! i).

(** [df[c]] as the list of its values. *)
Definition column_values (c : string) (df : DataFrame) : list pyval :=
  match index_of c (columns df) with
  | Some i => fmap (fun r => cell r i) (rows df)
  | None => []
  end.

(** [df.insert(loc, name, series)]: refuses a name that is already a
    column; the series is aligned on the row index. *)
Definition insert_col (loc : nat) (name : string) (series : list pyval) (df : DataFrame)
  : result DataFrame :=
  if decide (name ∈ columns df)
  then Raise (ValueError ("cannot insert " +:+ name +:+ ", already exists"))
  else Ok {| columns := take loc (columns df) ++ name :: drop loc (columns df);
             rows := imap (fun i r => take loc r ++ cell series i :: drop loc r) (rows df) |}.

(** [df[name] = series]: replaces the column, or appends it. *)
Definition set_col (name : string) (series : list pyval) (df : DataFrame) : DataFrame :=
  match index_of name (columns df) with
  | Some j => {| columns := columns df;
                 rows := imap (fun i r => <[j := cell series i]> r) (rows df) |}
  | None => {| columns := columns df ++ [name];
               rows := imap (fun i r => r ++ [cell series i]) (rows df) |}
  end.

(** The cell of a row under the column [c]; null when there is no such
    column. *)
Definition lookup_cell (cols : list string) (row : list pyval) (c : string) : pyval :=
  match index_of c cols with
  | Some i => cell row i
  | None => PyNone
  end.

(** [df.reindex(columns=cols)] and [df[cols]] when every name of [cols] is
    a column: the table in the column order [cols], a missing column all
    null. *)
Definition reindex (cols : list string) (df : DataFrame) : DataFrame :=
  {| columns := cols;
     rows := fmap (fun r => fmap (lookup_cell (columns df) r) cols) (rows df) |}.

(** First column whose lower-cased name is [target.lower()]. *)
Definition find_col_ci (cols : list string) (target : string) : option string :=
  List.find (fun c => bool_decide (Py.lower c = Py.lower target)) cols.

(** [pd.to_numeric(x, errors="coerce").astype("Int64")] on one value. *)
Definition to_int64 (v : pyval) : pyval :=
  match v with
  | PyInt n => PyInt n
  | PyStr s => match Py.int s with Some n => PyInt n | None => PyNone end
  | PyNone => PyNone
  end.

(** [x.astype(str)] on one value of a column read with [dtype=str]: a
    missing value becomes the text [nan]. *)
Definition astype_str (v : pyval) : string :=
  match v with
  | PyNone => "nan"
  | PyStr s => s
  | PyInt n => Py.str n
  end.

(** [x.astype("string")] on one value: a null stays null. *)
Definition astype_string (v : pyval) : pyval :=
  match v with
  | PyNone => PyNone
  | PyStr s => PyStr s
  | PyInt n => PyStr (Py.str n)
  end.

(** [a + b] on nullable strings. *)
Definition str_add (a b : pyval) : pyval :=
  match a, b with
  | PyStr x, PyStr y => PyStr (x +:+ y)
  | _, _ => PyNone
  end.

End Frame.

(** ** Dictionary consolidation and label lookup
    ([etl-enoe/microdatos/apply_enoe_labels.py]) *)

Module Labels.

Record Categoria := { valor : string; categoria : string }.

(** One record of a dictionary document, as [load_all_json_dicts] hands it
    to the consolidation. A missing ["valor"] or ["categoria"] is the empty
    string, as [c.get(..., "")] makes it. *)
Record DictRow := { tabla : string; variable : string; categorias : list Categoria }.

Definition canon_base (base_pref : string) : string :=
  if decide (base_pref = "COE1" \/ base_pref = "COE1T") then "COE1T"
  else if decide (base_pref = "COE2" \/ base_pref = "COE2T") then "COE2T"
  else if decide (base_pref = "SDEM" \/ base_pref = "SDEMT") then "SDEMT"
  else if decide (base_pref = "HOG" \/ base_pref = "HOGT") then "HOGT"
  else if decide (base_pref = "VIV" \/ base_pref = "VIVT") then "VIVT"
  else base_pref.

Definition is_base_char (c : ascii) : bool := Py.is_upper c || Py.is_digit c.

(** [TABLA_BASE_RE = ^([A-Z0-9]+?)(\d)(\d{2})$]: the last three characters
    are the groups 2 and 3, what precedes is group 1 (at least one
    character). The result is the three groups. *)
Definition match_tabla_base (s : string) : option (string * ascii * string) :=
  let n := String.length s in
  if (n <? 4)%nat then None
  else
    let pref := String.substring 0 (n - 3) s in
    let tail := String.substring (n - 3) 3 s in
    match tail with
    | String t yy =>
        if Py.all_chars is_base_char pref && Py.is_digit t && Py.all_chars Py.is_digit yy
        then Some (pref, t, yy) else None
    | EmptyString => None
    end.

Definition parse_tabla_base (tabla : string) : string * Z * Z :=
  let s := Py.upper (Py.strip tabla) in
  match match_tabla_base s with
  | Some (base_pref, t, yy) =>
      (canon_base base_pref, Py.digit_val t, default 0 (Py.int yy))
  | None => (Py.filter_chars is_base_char s, 0, 0)
  end.

Definition year_quarter_rank (tri yy : Z) : Z := (2000 + yy) * 10 + tri.

Definition py_str (v : pyval) : string :=
  match v with
  | PyNone => "None"
  | PyStr s => s
  | PyInt n => Py.str n
  end.

(** Duplicates removed, first occurrences kept in order. *)
Fixpoint dedup_keep_first (seen : gset string) (l : list string) : list string :=
  match l with
  | [] => []
  | k :: r => if decide (k ∈ seen) then dedup_keep_first seen r
              else k :: dedup_keep_first ({[k]} ∪ seen) r
  end.

Definition norm_variants (v : pyval) : list string :=
  match v with
  | PyNone => []
  | _ =>
      let s := Py.strip (py_str v) in
      let out :=
        if negb (Py.fullmatch_int s) then [s; Py.upper s]
        else match Py.int s with
             | Some n => [s; Py.str n] ++ (if (0 <=? n) && (n <? 100) then [Py.fmt_02d n] else [])
             | None => [s]
             end in
      dedup_keep_first ∅ out
  end.

(** [fn] inside [_make_lookup_udf]: the first variant that is a key of the
    mapping decides. *)
Fixpoint lookup_first (mapping : gmap string string) (ks : list string) : option string :=
  match ks with
  | [] => None
  | k :: r => if decide (k ∈ dom mapping) then mapping !! k else lookup_first mapping r
  end.

(** The function returned by [_make_lookup_udf mapping]. *)
Definition lookup_udf (mapping : gmap string string) (v : pyval) : option string :=
  lookup_first mapping (norm_variants v).

(** The set [keys] that [normalize_code_keys] builds for a stripped,
    non-empty code. *)
Definition code_key_set (s : string) : gset string :=
  let keys : gset string := {[s]} in
  let keys := if negb (Py.fullmatch_int s) then keys ∪ {[Py.upper s]} else keys in
  if Py.fullmatch_int s then
    match Py.int s with
    | Some n =>
        let keys := keys ∪ {[Py.str n]} in
        if (0 <=? n) && (n <? 100) then keys ∪ {[Py.fmt_02d n]} else keys
    | None => keys
    end
  else keys.

Section Consolidation.
(** [list(keys)]: the order in which a Python set is enumerated is not
    fixed by the language; the model takes it as a parameter. *)
Variable list_of_set : gset string -> list string.

Definition normalize_code_keys (code : string) : list string :=
  let s := Py.strip code in
  if decide (s = "") then [] else list_of_set (code_key_set s).

Definition add_categoria (local_map : gmap string string) (c : Categoria)
  : gmap string string :=
  let code := Py.strip (valor c) in
  let label := Py.strip (categoria c) in
  if decide (code = "" \/ label = "") then local_map
  else foldl (fun m k => <[k := label]> m) local_map (normalize_code_keys code).

Definition local_map_of (cats : list Categoria) : gmap string string :=
  foldl add_categoria ∅ cats.

Definition row_key (r : DictRow) : string * string :=
  let '(base, _, _) := parse_tabla_base (if decide (tabla r = "") then "BASE" else tabla r) in
  (base, variable r).

Definition row_rank (r : DictRow) : Z :=
  let '(_, tri, yy) := parse_tabla_base (if decide (tabla r = "") then "BASE" else tabla r) in
  year_quarter_rank tri yy.

Definition row_entry (r : DictRow) : Z * gmap string string :=
  (row_rank r, local_map_of (categorias r)).

(** The first loop of [build_base_var_mappings]: [grouped]. *)
Definition grouped (rows : list DictRow)
  : gmap (string * string) (list (Z * gmap string string)) :=
  foldl (fun g r => <[row_key r := default [] (g !! row_key r) ++ [row_entry r]]> g) ∅ rows.

(** [merged] of one group: sort by rank, then [merged.update(mp)] in turn. *)
Definition merge_group (lst : list (Z * gmap string string)) : gmap string string :=
  foldl (fun merged e => snd e ∪ merged) ∅ (Py.sorted Z.ltb fst lst).

Definition build_base_var_mappings (rows : list DictRow)
  : gmap string (gmap string (gmap string string)) :=
  map_fold (fun bv lst result =>
              <[fst bv := <[snd bv := merge_group lst]> (default ∅ (result !! fst bv))]> result)
           ∅ (grouped rows).

(** [base_maps.get(base, {})] followed by the mapping of one variable. *)
Definition mapping_of (rows : list DictRow) (base var : string) : option (gmap string string) :=
  build_base_var_mappings rows !! base ≫= fun vm => vm !! var.
End Consolidation.

(** The values of a label column: the lookup function on every value of
    the source column. *)
Definition label_values (mapping : gmap string string) (values : list pyval)
  : list (option string) :=
  fmap (lookup_udf mapping) values.

(** [col_upper_to_orig]: for an upper-cased name, the last column of the
    table that has it. *)
Definition col_upper_to_orig (cols : list string) : gmap string string :=
  foldl (fun m c => <[Py.upper c := c]> m) ∅ cols.

(** The label columns that [apply_labels_to_parquet] derives for a table:
    for a variable of the dictionary with a non-empty mapping and a column
    of the same name up to case, the name [<column>_label] and its values. *)
Definition label_columns (var_maps : gmap string (gmap string string)) (t : Frame.DataFrame)
  : gmap string (string * list (option string)) :=
  map_imap (fun var_json mapping =>
              match col_upper_to_orig (Frame.columns t) !! Py.upper var_json with
              | Some parquet_col =>
                  if decide (mapping = ∅) then None
                  else Some (parquet_col +:+ "_label",
                             label_values mapping (Frame.column_values parquet_col t))
              | None => None
              end) var_maps.

(** *** The merge, seen from one key

    [last_hit k l] is the last entry of [l] that holds [k], with its rank;
    [winner k l] is the entry of [l] that holds [k] with the highest rank,
    the later one among equals. *)

Definition hit (k : string) (e : Z * gmap string string) : option (Z * string) :=
  (fun l => (fst e, l)) <$> snd e !! k.

Fixpoint last_hit (k : string) (l : list (Z * gmap string string)) : option (Z * string) :=
  match l with
  | [] => None
  | e :: r => match last_hit k r with Some h => Some h | None => hit k e end
  end.

Definition challenge (k : string) (e : Z * gmap string string) (w : option (Z * string))
  : option (Z * string) :=
  match w with
  | Some (r', l') =>
      match snd e !! k with
      | Some lx => if r' <? fst e then Some (fst e, lx) else w
      | None => w
      end
  | None => hit k e
  end.

Fixpoint winner (k : string) (l : list (Z * gmap string string)) : option (Z * string) :=
  match l with
  | [] => None
  | e :: r => challenge k e (winner k r)
  end.

Definition rank_sorted (l : list (Z * gmap string string)) : Prop :=
  StronglySorted (fun a b => fst a <= fst b) l.

(** The entries of one group, in the order of the rows. *)
Definition entries (list_of_set : gset string -> list string) (key : string * string)
    (rows : list DictRow) : list (Z * gmap string string) :=
  row_entry list_of_set <$> filter (fun r => row_key r = key) rows.

(** The code reads as the integer 1. *)
Definition reads_one (s : string) : Prop := Py.fullmatch_int s = true /\ Py.int s = Some 1.

(** The category [c] puts its label under the key [k]. *)
Definition inserts (c : Categoria) (k : string) : Prop :=
  Py.strip (valor c) <> "" /\ Py.strip (categoria c) <> "" /\
  k ∈ code_key_set (Py.strip (valor c)).

#[global] Instance inserts_dec c k : Decision (inserts c k).
Proof. unfold inserts. apply _. Defined.

End Labels.

(** ** Header scan, per-file load and the single-file writer
    ([etl-enoe/parquet.py]) *)

Module Parquet.
Import Frame.

Definition MODULES : list string := ["VIVT"; "HOGT"; "SDEMT"; "COE1T"; "COE2T"].

Definition META : list string := ["anio"; "trimestre"; "anio_trimestre"].

(** *** File names

    The pattern of [re_name] is embedded for file names of ASCII
    characters: its digits, its word boundary and its letters without
    regard to case are those of the ASCII range. *)

Definition ci_eq (c low : ascii) : bool := bool_decide (Py.lower_char c = low).

(** [\b] after a word character: the end of the text, or a character that
    is not a word character (of the ASCII range). *)
Definition word_boundary (rest : list ascii) : bool :=
  match rest with
  | [] => true
  | c :: _ => negb (Py.is_word c)
  end.

(** [re_name = _(20\d{2})_trim(\d)\b], case-insensitive, tried at the head
    of the text; the result is [(int(group 1), int(group 2))]. *)
Definition re_name_at (s : list ascii) : option (Z * Z) :=
  match s with
  | u1 :: c2 :: c0 :: d1 :: d2 :: u2 :: t :: r :: i :: m :: q :: rest =>
      if bool_decide (u1 = "_"%char) && bool_decide (c2 = "2"%char)
         && bool_decide (c0 = "0"%char) && Py.is_digit d1 && Py.is_digit d2
         && bool_decide (u2 = "_"%char)
         && ci_eq t "t" && ci_eq r "r" && ci_eq i "i" && ci_eq m "m"
         && Py.is_digit q && word_boundary rest
      then Some (default 0 (Py.int (string_of_list_ascii [c2; c0; d1; d2])),
                 default 0 (Py.int (string_of_list_ascii [q])))
      else None
  | _ => None
  end.

(** [re_name.search]: the leftmost position where the pattern matches. *)
Fixpoint re_name_search (s : list ascii) : option (Z * Z) :=
  match re_name_at s with
  | Some m => Some m
  | None => match s with
            | [] => None
            | _ :: s' => re_name_search s'
            end
  end.

Definition parse_year_trim_from_name (fname : string) : option Z * option Z :=
  match re_name_search (list_ascii_of_string fname) with
  | Some (y, q) => (Some y, Some q)
  | None => (None, None)
  end.

(** [sub in s]. *)
Fixpoint contains (sub s : string) : bool :=
  String.prefix sub s ||
  match s with
  | EmptyString => false
  | String _ r => contains sub r
  end.

Definition detect_module_from_filename (fname : string) : option string :=
  let up := Py.upper fname in
  match List.find (fun tag => contains tag up) MODULES with
  | Some tag => Some tag
  | None =>
      if contains "COE1" up then Some "COE1T"
      else if contains "COE2" up then Some "COE2T"
      else None
  end.

(** *** Encodings and delimiters *)

Inductive encoding :=
  | Utf8 | Utf8Sig | Cp1252 | Latin1 | Utf16 | Utf16le | Utf16be | Utf32le | Utf32be.

Inductive delimiter := Comma | Semicolon | Pipe | Tab.

#[global] Instance encoding_eq_dec : EqDecision encoding.
Proof. solve_decision. Defined.

#[global] Instance delimiter_eq_dec : EqDecision delimiter.
Proof. solve_decision. Defined.

Fixpoint starts_with (p b : list Byte.byte) : bool :=
  match p, b with
  | [], _ => true
  | x :: p', y :: b' => Byte.eqb x y && starts_with p' b'
  | _ :: _, [] => false
  end.

Definition count_zero (b : list Byte.byte) : nat :=
  length (filter (fun x => Byte.eqb x Byte.x00 = true) b).

(** [sniff_encoding] on the first 4096 bytes of the file. *)
Definition sniff_encoding (head : list Byte.byte) : option encoding :=
  if starts_with [Byte.xef; Byte.xbb; Byte.xbf] head then Some Utf8Sig
  else if starts_with [Byte.xff; Byte.xfe; Byte.x00; Byte.x00] head then Some Utf32le
  else if starts_with [Byte.x00; Byte.x00; Byte.xfe; Byte.xff] head then Some Utf32be
  else if starts_with [Byte.xff; Byte.xfe] head then Some Utf16le
  else if starts_with [Byte.xfe; Byte.xff] head then Some Utf16be
  else if (50 <? count_zero (take 2000 head))%nat then Some Utf16
  else None.

(** A file of the input directory. What the CSV parser and the codecs
    answer on it is part of the file: the fields below are the outcomes of
    the calls the code makes on this file. *)
Record CsvFile := {
  fname : string;
  head : list Byte.byte;
  (** [sample.decode(enc, errors="replace")] returns *)
  decodes : encoding -> bool;
  (** [sniff_delimiter] on the sample decoded with the encoding *)
  sniffed_delimiter : encoding -> delimiter;
  (** [pd.read_csv(io.StringIO(text), sep, nrows=0, engine="python").columns] *)
  header_of_sample : encoding -> delimiter -> result (list string);
  (** [pd.read_csv(path, sep, nrows=0, engine="python", encoding).columns] *)
  header_of_file : encoding -> delimiter -> result (list string);
  (** [pd.read_csv(path, sep, dtype=str, engine="c", encoding)] *)
  read_c : encoding -> delimiter -> result DataFrame;
  (** [pd.read_csv(path, sep, dtype=str, engine="python", encoding)] *)
  read_python : encoding -> delimiter -> result DataFrame;
  (** [pd.read_csv(io.StringIO(data.decode("latin-1", errors="replace")), sep, ...)] *)
  read_lossy : delimiter -> result DataFrame
}.

Definition DELIMITERS : list delimiter := [Comma; Semicolon; Pipe; Tab].

Definition encodings_try (f : CsvFile) : list encoding :=
  match sniff_encoding (head f) with
  | Some enc0 => [enc0]
  | None => []
  end ++ [Utf8; Utf8Sig; Cp1252; Latin1; Utf16; Utf16le; Utf16be].

(** A header parse that the code accepts: it returned, with at least one
    column. *)
Definition accepted (r : result (list string)) : option (list string) :=
  match r with
  | Ok (c :: cs) => Some (c :: cs)
  | _ => None
  end.

(** The first loop of [headers_only]. *)
Fixpoint headers_sniffed (f : CsvFile) (encs : list encoding)
  : option (list string * encoding * delimiter) :=
  match encs with
  | [] => None
  | enc :: rest =>
      if decodes f enc then
        let delim := sniffed_delimiter f enc in
        match accepted (header_of_sample f enc delim) with
        | Some cols => Some (cols, enc, delim)
        | None =>
            match accepted (header_of_file f enc delim) with
            | Some cols => Some (cols, enc, delim)
            | None => headers_sniffed f rest
            end
        end
      else headers_sniffed f rest
  end.

(** The second loop of [headers_only]: every encoding with every delimiter,
    on the file itself. *)
Fixpoint headers_combos (f : CsvFile) (combos : list (encoding * delimiter))
  : option (list string * encoding * delimiter) :=
  match combos with
  | [] => None
  | (enc, delim) :: rest =>
      match accepted (header_of_file f enc delim) with
      | Some cols => Some (cols, enc, delim)
      | None => headers_combos f rest
      end
  end.

Definition headers_only (f : CsvFile) : result (list string * encoding * delimiter) :=
  let encs := encodings_try f in
  match headers_sniffed f encs with
  | Some r => Ok r
  | None =>
      match headers_combos f (enc ← encs; delim ← DELIMITERS; [(enc, delim)]) with
      | Some r => Ok r
      | None => Raise UnicodeDecodeError
      end
  end.

(** *** The full reader *)

Fixpoint read_alternates (f : CsvFile) (delim : delimiter) (encs : list encoding)
  : option DataFrame :=
  match encs with
  | [] => None
  | enc2 :: rest =>
      match read_python f enc2 delim with
      | Ok df => Some df
      | Raise _ => read_alternates f delim rest
      end
  end.

Definition ALTERNATES : list encoding := [Utf8Sig; Utf16; Utf16le; Utf16be; Cp1252; Latin1].

Definition read_full_csv_robust (f : CsvFile) (enc : encoding) (delim : delimiter)
  : result DataFrame :=
  match read_c f enc delim with
  | Ok df => Ok df
  | Raise _ =>
      match read_python f enc delim with
      | Ok df => Ok df
      | Raise UnicodeDecodeError =>
          match read_alternates f delim ALTERNATES with
          | Some df => Ok df
          | None => read_lossy f delim
          end
      | Raise _ => read_lossy f delim
      end
  end.

(** *** Metadata columns *)

(** The digits of the period code, zero-filled to three. *)
Definition per_digits (v : pyval) : string :=
  Py.zfill 3 (Py.filter_chars Py.is_digit (astype_str v)).

Definition to_numeric_str (s : string) : pyval :=
  match Py.int s with
  | Some n => PyInt n
  | None => PyNone
  end.

Definition add_int (k : Z) (v : pyval) : pyval :=
  match v with
  | PyInt n => PyInt (k + n)
  | _ => PyNone
  end.

(** [derive_year_trim_from_per]: the series [(anio, tri)]. *)
Definition derive_year_trim_from_per (df : DataFrame) : list pyval * list pyval :=
  match find_col_ci (columns df) "per" with
  | None => (replicate (nrows df) PyNone, replicate (nrows df) PyNone)
  | Some per_col =>
      let per := fmap per_digits (column_values per_col df) in
      let tri := fmap (fun p => to_numeric_str (String.substring 0 1 p)) per in
      let yy := fmap (fun p => to_numeric_str (String.substring 1 2 p)) per in
      (fmap (add_int 2000) yy, tri)
  end.

Definition year_quarter_label (anio tri : pyval) : pyval :=
  str_add (str_add (astype_string anio) (PyStr "T")) (astype_string tri).

(** Year and quarter read off the zero-filled digits of a period code:
    the first digit is the quarter, the next two the years after 2000. *)
Definition period_of_digits (p : string) : Z * Z :=
  match p with
  | String d1 (String d2 (String d3 _)) =>
      (2000 + (10 * Py.digit_val d2 + Py.digit_val d3), Py.digit_val d1)
  | _ => (2000, 0)
  end.

(** The metadata cells of a row with year [y] and quarter [q]. *)
Definition meta_cells (y q : Z) : list pyval :=
  [PyInt y; PyInt q; PyStr ((Py.str y +:+ "T") +:+ Py.str q)].

(** The three [df.insert] of [add_meta_cols]. *)
Definition insert_meta (df : DataFrame) (anio_ser tri_ser : list pyval) : result DataFrame :=
  df ← insert_col 0 "anio" (fmap to_int64 anio_ser) df;
  df ← insert_col 1 "trimestre" (fmap to_int64 tri_ser) df;
  insert_col 2 "anio_trimestre"
    (zip_with year_quarter_label (column_values "anio" df) (column_values "trimestre" df)) df.

Definition add_meta_cols (df : DataFrame) (anio_from_name tri_from_name : option Z)
  : result DataFrame :=
  match anio_from_name, tri_from_name with
  | Some a, Some t =>
      insert_meta df (replicate (nrows df) (PyInt a)) (replicate (nrows df) (PyInt t))
  | _, _ =>
      let '(anio_ser, tri_ser) := derive_year_trim_from_per df in
      insert_meta df anio_ser tri_ser
  end.

(** *** Pass 1 *)

Record FileInfo := {
  fi_file : CsvFile;
  fi_mod : string;
  fi_anio : option Z;
  fi_tri : option Z;
  fi_encoding : encoding;
  fi_delimiter : delimiter;
  fi_cols : list string
}.

(** Warnings and errors sent to the log. *)
Inductive log_record :=
  | NoModuleWarning (name : string)
  | HeadersFailedError (name : string) (e : exn).

Record Scan := {
  info : list FileInfo;
  module_to_union : gmap string (gset string);
  module_to_files : gmap string (list string);
  log : list log_record
}.

Definition scan_init : Scan :=
  {| info := [];
     module_to_union := list_to_map (fmap (fun m => (m, ∅)) MODULES);
     module_to_files := list_to_map (fmap (fun m => (m, [])) MODULES);
     log := [] |}.

Definition scan_file (st : Scan) (f : CsvFile) : Scan :=
  match detect_module_from_filename (fname f) with
  | None =>
      {| info := info st; module_to_union := module_to_union st;
         module_to_files := module_to_files st;
         log := log st ++ [NoModuleWarning (fname f)] |}
  | Some mod_ =>
      match headers_only f with
      | Ok (cols, enc, delim) =>
          let '(anio, tri) := parse_year_trim_from_name (fname f) in
          {| info := info st ++ [{| fi_file := f; fi_mod := mod_; fi_anio := anio; fi_tri := tri;
                                    fi_encoding := enc; fi_delimiter := delim; fi_cols := cols |}];
             module_to_union :=
               <[mod_ := default ∅ (module_to_union st !! mod_) ∪ list_to_set cols]> (module_to_union st);
             module_to_files :=
               <[mod_ := default [] (module_to_files st !! mod_) ++ [fname f]]> (module_to_files st);
             log := log st |}
      | Raise e =>
          {| info := info st; module_to_union := module_to_union st;
             module_to_files := module_to_files st;
             log := log st ++ [HeadersFailedError (fname f) e] |}
      end
  end.

Definition pass1 (csv_paths : list CsvFile) : Scan := foldl scan_file scan_init csv_paths.

(** The order in which [sorted(glob.glob(...))] hands the files of the
    directory to the script: ascending in their names. *)
Definition sorted_paths (csv_files : list CsvFile) : Prop :=
  StronglySorted (fun a b => String.ltb (fname a) (fname b) = true) csv_files.

(** Two scans that differ at most in their log. *)
Definition same_scan (s s' : Scan) : Prop :=
  info s = info s' /\ module_to_union s = module_to_union s' /\
  module_to_files s = module_to_files s'.

(** The record that [pass1] keeps for a file: none when no module is
    inferred from its name or when [headers_only] raises. *)
Definition file_info_of (f : CsvFile) : option FileInfo :=
  match detect_module_from_filename (fname f) with
  | None => None
  | Some mod_ =>
      match headers_only f with
      | Ok (cols, enc, delim) =>
          let '(anio, tri) := parse_year_trim_from_name (fname f) in
          Some {| fi_file := f; fi_mod := mod_; fi_anio := anio; fi_tri := tri;
                  fi_encoding := enc; fi_delimiter := delim; fi_cols := cols |}
      | Raise _ => None
      end
  end.

(** The rows that the full reader returns for a file kept by [pass1];
    none for a file that is skipped or that the reader fails on. *)
Definition loaded_rows (f : CsvFile) : nat :=
  match file_info_of f with
  | Some fi =>
      match read_full_csv_robust f (fi_encoding fi) (fi_delimiter fi) with
      | Ok df => nrows df
      | Raise _ => 0%nat
      end
  | None => 0%nat
  end.

(** The rows read from the files of one module. *)
Definition module_rows (mod_ : string) (csv_paths : list CsvFile) : nat :=
  sum_list ((fun f => if decide (detect_module_from_filename (fname f) = Some mod_)
                      then loaded_rows f else 0%nat) <$> csv_paths).

(** The union kept for a module holds the columns of the files kept for
    it, and nothing else; every file kept has its module in the table. *)
Definition union_inv (st : Scan) : Prop :=
  (forall m U, module_to_union st !! m = Some U ->
     forall c, c ∈ U <-> exists fi, fi ∈ info st /\ fi_mod fi = m /\ c ∈ fi_cols fi) /\
  (forall fi, fi ∈ info st -> is_Some (module_to_union st !! fi_mod fi)).

(** Columns in the order of their lower-cased names. *)
Definition lower_sorted (l : list string) : Prop :=
  StronglySorted (fun a b => String.ltb (Py.lower b) (Py.lower a) = false) l.

(** Every stage of the full reader raises on the file. *)
Definition all_stages_fail (f : CsvFile) (enc : encoding) (delim : delimiter) : Prop :=
  (exists e, read_c f enc delim = Raise e) /\
  (exists e, read_python f enc delim = Raise e) /\
  (forall enc2, enc2 ∈ ALTERNATES -> exists e, read_python f enc2 delim = Raise e) /\
  (exists e, read_lossy f delim = Raise e).

(** *** Pass 2: one file *)

(** [for c in final_cols: if c not in df.columns: df[c] = pd.NA]. *)
Definition pad_columns (cols : list string) (df : DataFrame) : DataFrame :=
  foldl (fun df c => if decide (c ∈ columns df) then df
                     else set_col c (replicate (nrows df) PyNone) df) df cols.

(** The part of [load_one] after the metadata: the missing columns, the
    column order and the casts. *)
Definition conform (final_cols : list string) (df : DataFrame) : DataFrame :=
  let df := pad_columns final_cols df in
  let df := reindex final_cols df in
  let df := set_col "anio" (fmap to_int64 (column_values "anio" df)) df in
  let df := set_col "trimestre" (fmap to_int64 (column_values "trimestre" df)) df in
  let df := set_col "anio_trimestre"
              (zip_with year_quarter_label (column_values "anio" df)
                                           (column_values "trimestre" df)) df in
  let non_meta := filter (fun c => c ∉ META) (columns df) in
  foldl (fun df c => set_col c (fmap astype_string (column_values c df)) df) df non_meta.

(** The body of [load_one] for the file [fi] and the schema [final_cols]. *)
Definition load_one (fi : FileInfo) (final_cols : list string) : result DataFrame :=
  df ← read_full_csv_robust (fi_file fi) (fi_encoding fi) (fi_delimiter fi);
  df ← add_meta_cols df (fi_anio fi) (fi_tri fi);
  Ok (conform final_cols df).

(** Every row has one cell per column. *)
Definition well_formed (df : DataFrame) : Prop :=
  Forall (fun r => length r = length (columns df)) (rows df).

(** The metadata cells that [add_meta_cols] gives a row of the table [df]
    of the file [fi]. *)
Definition row_meta (fi : FileInfo) (df : DataFrame) (r : list pyval) : list pyval :=
  match fi_anio fi, fi_tri fi with
  | Some y, Some q => meta_cells y q
  | _, _ =>
      match find_col_ci (columns df) "per" with
      | Some per_col =>
          let '(y, q) := period_of_digits (per_digits (lookup_cell (columns df) r per_col)) in
          meta_cells y q
      | None => [PyNone; PyNone; PyNone]
      end
  end.

(** *** The writer *)

(** The Arrow type that [pa.Table.from_pandas] gives a column: [int64] for
    the dtype [Int64], [string] for the string dtype, [null] for a column
    that holds nothing but [pd.NA]; any other type by its name. *)
Inductive arrow_type := ArrowInt64 | ArrowString | ArrowNull | ArrowOther (name : string).

#[global] Instance arrow_type_eq_dec : EqDecision arrow_type.
Proof. solve_decision. Defined.

(** A partition as [pa.Table.from_pandas(pdf, preserve_index=False)]
    returns it: the table and the Arrow types of its columns, in their
    order. *)
Record ArrowTable := { pdf : DataFrame; types : list arrow_type }.

(** The partitions computed before the first one that raises. *)
Fixpoint loaded_prefix {A : Type} (parts : list (result A)) : list A :=
  match parts with
  | Ok a :: rest => a :: loaded_prefix rest
  | _ => []
  end.

(** Every partition is computed without an exception. *)
Definition all_loaded {A : Type} (parts : list (result A)) : Prop :=
  Forall (fun p => exists a, p = Ok a) parts.

(** A Parquet file on disk: the names of the schema fixed when the writer
    was opened, the rows appended so far, and whether the writer was
    closed (the footer is written). *)
Record ParquetFile := { schema : list string; table : list (list pyval); closed : bool }.

Definition open_writer (out_path : string) (cols : list string)
    (fs : gmap string ParquetFile) : gmap string ParquetFile :=
  <[out_path := {| schema := cols; table := []; closed := false |}]> fs.

Definition write_table (out_path : string) (rs : list (list pyval))
    (fs : gmap string ParquetFile) : gmap string ParquetFile :=
  alter (fun pf => {| schema := schema pf; table := table pf ++ rs; closed := closed pf |})
        out_path fs.

(** The file of the writer after more rows. *)
Definition appended (pf : ParquetFile) (rs : list (list pyval)) : ParquetFile :=
  {| schema := schema pf; table := table pf ++ rs; closed := closed pf |}.

Definition close_writer (out_path : string) (fs : gmap string ParquetFile)
  : gmap string ParquetFile :=
  alter (fun pf => {| schema := schema pf; table := table pf; closed := true |}) out_path fs.

(** [tbl.schema == writer.schema]: the names and the types of the columns,
    in their order. *)
Definition same_schema (cols_writer : list string) (types_writer : list arrow_type)
    (tbl : ArrowTable) : bool :=
  bool_decide (columns (pdf tbl) = cols_writer /\ types tbl = types_writer).

(** The Arrow type of the column [c] of a table; [null] for a column that
    the table does not have. *)
Definition type_of (tbl : ArrowTable) (c : string) : arrow_type :=
  match index_of c (columns (pdf tbl)) with
  | Some i => default ArrowNull (types tbl !! i)
  | None => ArrowNull
  end.

(** The alignment of a partition whose schema differs from the writer's:
    every column of the writer that the partition lacks is added with
    [pd.NA], the columns are taken in the writer's order and the table is
    converted again. A column that was added holds nothing but [pd.NA] and
    is typed [null]. *)
Definition align (cols_writer : list string) (tbl : ArrowTable) : ArrowTable :=
  {| pdf := reindex cols_writer (pad_columns cols_writer (pdf tbl));
     types := type_of tbl <$> cols_writer |}.

(** The table of a partition as it is handed to [writer.write_table]. *)
Definition aligned (cols_writer : list string) (types_writer : list arrow_type)
    (tbl : ArrowTable) : ArrowTable :=
  if same_schema cols_writer types_writer tbl then tbl else align cols_writer tbl.

(** [writer.write_table] refuses a table whose schema is not the writer's. *)
Definition schema_mismatch : exn :=
  ValueError "Table schema does not match schema used to create file".

(** The loop over [parts[1:]]: a partition is computed when its turn
    comes; an exception of its computation, or of [writer.write_table],
    leaves the loop. *)
Fixpoint write_rest (parts : list (result ArrowTable)) (out_path : string)
    (cols_writer : list string) (types_writer : list arrow_type)
    (fs : gmap string ParquetFile) : gmap string ParquetFile * result unit :=
  match parts with
  | [] => (fs, Ok tt)
  | Raise e :: _ => (fs, Raise e)
  | Ok p :: rest =>
      let tbl := aligned cols_writer types_writer p in
      if same_schema cols_writer types_writer tbl
      then write_rest rest out_path cols_writer types_writer
             (write_table out_path (rows (pdf tbl)) fs)
      else (fs, Raise schema_mismatch)
  end.

(** The writer. [parts] are the partitions of the table, each as its
    computation and [pa.Table.from_pandas] give it. No handler surrounds
    the loop: an exception leaves the function with the writer open, and
    the writer is closed when it is destroyed ([ParquetWriter.__del__]), at
    the latest when the interpreter exits; the file then holds the rows
    written before the exception. *)
Definition write_single_parquet_from_ddf (parts : list (result ArrowTable))
    (out_path : string) (fs : gmap string ParquetFile)
  : gmap string ParquetFile * result unit :=
  match parts with
  | [] => (fs, Raise (RuntimeError "No hay particiones que escribir."))
  | Raise e :: _ => (fs, Raise e)
  | Ok first :: rest =>
      let fs := open_writer out_path (columns (pdf first)) fs in
      let fs := write_table out_path (rows (pdf first)) fs in
      let '(fs, r) := write_rest rest out_path (columns (pdf first)) (types first) fs in
      (close_writer out_path fs, r)
  end.

(** *** Pass 2: the modules *)

(** What the run leaves on disk: the Parquet files and the coverage
    reports (column, files that bring it, files of the module). *)
Record World := {
  parquet : gmap string ParquetFile;
  reports : gmap string (list (string * nat * nat))
}.

Definition out_path_of (mod_ : string) : string :=
  "enoe_master_" +:+ Py.lower mod_ +:+ ".parquet".

Definition cov_csv_of (mod_ : string) : string :=
  "coverage_" +:+ Py.lower mod_ +:+ ".csv".

Definition coverage_of (final_cols : list string) (files_mod : list FileInfo)
  : list (string * nat * nat) :=
  fmap (fun col => (col, length (filter (fun fi => col ∈ fi_cols fi) files_mod),
                   length files_mod)) final_cols.

(** The Arrow types of the table that [load_one] returns for the schema
    [final_cols]: by its last casts [anio] and [trimestre] have the dtype
    [Int64] and every other column the string dtype, also when it holds
    nothing but nulls. *)
Definition loaded_types (final_cols : list string) : list arrow_type :=
  (fun c => if decide (c = "anio" \/ c = "trimestre") then ArrowInt64 else ArrowString)
    <$> final_cols.

(** A delayed [load_one] as a partition of the table handed to the
    writer. *)
Definition partition_of (final_cols : list string) (d : result DataFrame) : result ArrowTable :=
  df ← d; Ok {| pdf := df; types := loaded_types final_cols |}.

Section Pass2.
(** The order in which a set of column names is enumerated. *)
Variable list_of_set : gset string -> list string.

(** [final_cols]: the metadata, then the union sorted on the lower-cased
    names. *)
Definition final_cols_of (union : gset string) : list string :=
  let union_cols := Py.sorted String.ltb Py.lower (list_of_set union) in
  META ++ filter (fun c => c ∉ META) union_cols.

(** The part of [final_cols] after the metadata. *)
Definition schema_rest (union : gset string) : list string :=
  filter (fun c => c ∉ META) (Py.sorted String.ltb Py.lower (list_of_set union)).

(** One turn of the loop [for mod in MODULES]. *)
Definition build_module (file_info : list FileInfo)
    (module_to_union : gmap string (gset string)) (w : World) (mod_ : string)
  : World * result unit :=
  let files_mod := filter (fun fi => fi_mod fi = mod_) file_info in
  match files_mod with
  | [] => (w, Ok tt)
  | _ :: _ =>
      match module_to_union !! mod_ with
      | None => (w, Raise (KeyError mod_))
      | Some union =>
          let final_cols := final_cols_of union in
          let delayed_frames := fmap (fun fi => load_one fi final_cols) files_mod in
          let ddf := fmap (partition_of final_cols) delayed_frames in
          match write_single_parquet_from_ddf ddf (out_path_of mod_) (parquet w) with
          | (fs, Raise e) => ({| parquet := fs; reports := reports w |}, Raise e)
          | (fs, Ok _) =>
              ({| parquet := fs;
                  reports := <[cov_csv_of mod_ := coverage_of final_cols files_mod]> (reports w) |},
               Ok tt)
          end
      end
  end.

Fixpoint build_modules (mods : list string) (file_info : list FileInfo)
    (module_to_union : gmap string (gset string)) (w : World) : World * result unit :=
  match mods with
  | [] => (w, Ok tt)
  | mod_ :: rest =>
      match build_module file_info module_to_union w mod_ with
      | (w, Ok _) => build_modules rest file_info module_to_union w
      | (w, Raise e) => (w, Raise e)
      end
  end.

(** The delayed loads of the files of a module, in the order of the
    files. *)
Definition delayed_frames (file_info : list FileInfo)
    (module_to_union : gmap string (gset string)) (mod_ : string) : list (result DataFrame) :=
  let final_cols := final_cols_of (default ∅ (module_to_union !! mod_)) in
  (fun fi => load_one fi final_cols) <$> filter (fun fi => fi_mod fi = mod_) file_info.

Definition build_with_dask (file_info : list FileInfo)
    (module_to_union : gmap string (gset string)) (w : World) : World * result unit :=
  build_modules MODULES file_info module_to_union w.

(** The script, on the CSV files of the input directory in the order
    [sorted(glob.glob(...))] gives them. *)
Definition main (csv_files : list CsvFile) (w : World) : World * list log_record * result unit :=
  match csv_files with
  | [] => (w, [], Raise (SystemExit 1))
  | _ :: _ =>
      let s := pass1 csv_files in
      let '(w, r) := build_with_dask (info s) (module_to_union s) w in
      (w, log s, r)
  end.
End Pass2.

End Parquet.

(** ** Geographic labels ([etl-enoe/label_ent_mun.py]) *)

Module Geo.
Import Frame.
Import Parquet.

(** The catalog file: what the delimiter sniffer and the CSV parser answer
    on it. *)
Record CatalogFile := {
  cat_sniffed_delimiter : encoding -> delimiter;
  cat_read : encoding -> delimiter -> result DataFrame
}.

(** The loop over the encodings: the first read that returns. *)
Fixpoint first_read (cat : CatalogFile) (encs : list encoding) : option DataFrame :=
  match encs with
  | [] => None
  | enc :: rest =>
      match cat_read cat enc (cat_sniffed_delimiter cat enc) with
      | Ok df => Some df
      | Raise _ => first_read cat rest
      end
  end.

(** The table [df] of [read_catalog], before the check of its columns. *)
Definition catalog_table (cat : CatalogFile) : result DataFrame :=
  match first_read cat [Utf8; Utf8Sig; Cp1252; Latin1] with
  | Some df => Ok df
  | None => cat_read cat Latin1 Comma
  end.

Definition expected : list string := ["CVE_ENT"; "NOM_ENT"; "CVE_MUN"; "NOM_MUN"].

(** [x.astype(str).str.replace(r"\D", "").str.zfill(w)]. *)
Definition fixed_code (w : nat) (v : pyval) : string :=
  Py.zfill w (Py.filter_chars Py.is_digit (astype_str v)).

(** [drop_duplicates(subset=key)]: the first row of each key is kept. *)
Fixpoint drop_duplicates {K V : Type} `{EqDecision K} (seen : list K) (l : list (K * V))
  : list (K * V) :=
  match l with
  | [] => []
  | (k, v) :: r => if decide (k ∈ seen) then drop_duplicates seen r
                   else (k, v) :: drop_duplicates (k :: seen) r
  end.

Record Catalog := {
  ent_df : list (string * pyval);
  muni_df : list (string * string * pyval)
}.

Definition read_catalog (cat : CatalogFile) : result Catalog :=
  df ← catalog_table cat;
  let missing := filter (fun c => c ∉ columns df) expected in
  match missing with
  | _ :: _ =>
      Raise (ValueError ("Catálogo no tiene columnas esperadas: faltan "
                         +:+ String.concat ", " missing))
  | [] =>
      let cve_ent := fmap (fixed_code 2) (column_values "CVE_ENT" df) in
      let cve_mun := fmap (fixed_code 3) (column_values "CVE_MUN" df) in
      Ok {| ent_df := drop_duplicates [] (zip cve_ent (column_values "NOM_ENT" df));
            muni_df := drop_duplicates [] (zip (zip cve_ent cve_mun)
                                               (column_values "NOM_MUN" df)) |}
  end.

(** The key of a table row: [x.astype("string").str.replace(r"\D", "").str.zfill(w)];
    a null stays null. *)
Definition row_code (w : nat) (v : pyval) : option string :=
  match v with
  | PyNone => None
  | _ => Some (Py.zfill w (Py.filter_chars Py.is_digit (astype_str v)))
  end.

(** The name of the first row of a catalog table that has the key [k];
    null when no row has it, and for a null key. *)
Definition merged_name {K : Type} `{EqDecision K} (cat : list (K * pyval)) (k : option K)
  : pyval :=
  match k with
  | None => PyNone
  | Some k => match List.find (fun p => bool_decide (fst p = k)) cat with
              | Some p => snd p
              | None => PyNone
              end
  end.

Inductive geo_log := MissingParquetWarning (path : string).

(** The labelled table of SDEMT, which the last lines of the script read
    back. *)
Definition SUMMARY_PATH : string := "enoe_master_sdemt_labeled.parquet".

(** Lines 220 to 234, which the script runs after the loop: the labelled
    table of SDEMT is opened and the columns [ent_nombre] and [mun_nombre]
    are counted and printed. Nothing is written. *)
Definition summary (fs : gmap string ParquetFile) : result unit :=
  match fs !! SUMMARY_PATH with
  | None => Raise FileNotFoundError
  | Some pf =>
      if negb (closed pf) then Raise ArrowInvalid
      else if decide ("ent_nombre" ∈ schema pf)
           then if decide ("mun_nombre" ∈ schema pf) then Ok tt
                else Raise (KeyError "mun_nombre")
           else Raise (KeyError "ent_nombre")
  end.

Section Script.
(** The dask table that [label_one_parquet] builds from the table of an
    input file and the catalog (lines 146 to 196), as it is handed to the
    writer: the exception raised while the table is built, or its
    partitions, each as its computation and [pa.Table.from_pandas] give
    it. How dask splits the input into partitions, and the types that
    Arrow infers for the columns of each, are not fixed by the script:
    the table is a parameter of the model. *)
Variable labelled_ddf : DataFrame -> Catalog -> result (list (result ArrowTable)).

(** [label_one_parquet] on the input file [parquet_path], whose table is
    [t]: the output is written under the name of the input with
    [_labeled] before the extension. *)
Definition label_one_parquet (parquet_path : string) (t : DataFrame) (c : Catalog)
    (fs : gmap string ParquetFile) : gmap string ParquetFile * result unit :=
  match labelled_ddf t c with
  | Raise e => (fs, Raise e)
  | Ok parts =>
      write_single_parquet_from_ddf parts
        (Py.replace ".parquet" "_labeled.parquet" parquet_path) fs
  end.

(** The loop of the script over [PARQUETS_IN]: a path with the table found
    there, if the file exists. *)
Fixpoint label_all (c : Catalog) (inputs : list (string * option DataFrame))
    (fs : gmap string ParquetFile) (lg : list geo_log)
  : gmap string ParquetFile * list geo_log * result unit :=
  match inputs with
  | [] => (fs, lg, Ok tt)
  | (p, None) :: rest => label_all c rest fs (lg ++ [MissingParquetWarning p])
  | (p, Some t) :: rest =>
      match label_one_parquet p t c fs with
      | (fs, Ok _) => label_all c rest fs lg
      | (fs, Raise e) => (fs, lg, Raise e)
      end
  end.

(** The script: the catalog first, then the tables, then the summary of
    the labelled table of SDEMT. *)
Definition main (cat : CatalogFile) (inputs : list (string * option DataFrame))
    (fs : gmap string ParquetFile)
  : gmap string ParquetFile * list geo_log * result unit :=
  match read_catalog cat with
  | Raise e => (fs, [], Raise e)
  | Ok c =>
      match label_all c inputs fs [] with
      | (fs, lg, Ok _) => (fs, lg, summary fs)
      | (fs, lg, Raise e) => (fs, lg, Raise e)
      end
  end.
End Script.

End Geo.

(** ** The fallback of the delimiter sniffer
    ([sniff_delimiter] of [etl-enoe/parquet.py] and [etl-enoe/label_ent_mun.py]) *)

Module Sniffer.
Import Parquet.

(** The line boundaries of [str.splitlines] in the ASCII range: LF, VT, FF,
    CR, FS, GS and RS. *)
Definition is_line_break (c : ascii) : bool :=
  ((10 <=? Py.code c) && (Py.code c <=? 13)) || ((28 <=? Py.code c) && (Py.code c <=? 30)).

(** [text.splitlines()[0] if text else ""]. *)
Fixpoint first_line (text : string) : string :=
  match text with
  | EmptyString => EmptyString
  | String c r => if is_line_break c then EmptyString else String c (first_line r)
  end.

Definition delimiter_char (d : delimiter) : ascii :=
  match d with
  | Comma => ","%char
  | Semicolon => ";"%char
  | Pipe => "|"%char
  | Tab => "009"%char
  end.

(** [s.count(d)] for a one-character [d]. *)
Fixpoint count (d : ascii) (s : string) : nat :=
  match s with
  | EmptyString => 0%nat
  | String c r => ((if Ascii.eqb c d then 1 else 0) + count d r)%nat
  end.

(** [max(counts, key=counts.get)]: the keys are visited in the order of
    their insertion, and a key replaces the best one so far only when its
    count is strictly greater. *)
Fixpoint max_key {A : Type} (key : A -> nat) (best : A) (l : list A) : A :=
  match l with
  | [] => best
  | x :: r => max_key key (if (key best <? key x)%nat then x else best) r
  end.

(** [sniff_delimiter text_sample]; [sniffer] is the delimiter of the dialect
    that [csv.Sniffer().sniff] returns, none when it raises. *)
Definition sniff_delimiter (sniffer : option delimiter) (text_sample : string) : delimiter :=
  match sniffer with
  | Some d => d
  | None =>
      let line := first_line text_sample in
      match DELIMITERS with
      | [] => Comma
      | d0 :: candidates => max_key (fun d => count (delimiter_char d) line) d0 candidates
      end
  end.

End Sniffer.

(** ** What the scan logs ([pass1] of [etl-enoe/parquet.py]) *)

Module Scanning.
Import Parquet.

(** The record that [pass1] logs for a file it does not keep: the warning
    that no module is inferred from the name, or the error of
    [headers_only]; none for a file that is kept. *)
Definition skip_record (f : CsvFile) : option log_record :=
  match detect_module_from_filename (fname f) with
  | None => Some (NoModuleWarning (fname f))
  | Some _ => match headers_only f with
              | Ok _ => None
              | Raise e => Some (HeadersFailedError (fname f) e)
              end
  end.

End Scanning.

(** ** The application of the labels to a table
    ([apply_labels_to_parquet] of [etl-enoe/microdatos/apply_enoe_labels.py]) *)

Module Apply.
Import Labels.

(** [s.endswith(suffix)]. *)
Fixpoint ends_with (suffix s : string) : bool :=
  String.eqb s suffix ||
  match s with
  | EmptyString => false
  | String _ r => ends_with suffix r
  end.

Definition BASE_NAMES : list string := ["coe1t"; "coe2t"; "sdemt"; "hogt"; "vivt"].

(** The text that [BASE_FROM_PARQUET_RE] matches for the base [b], in lower
    case. *)
Definition labeled_name (b : string) : string :=
  "enoe_master_" +:+ b +:+ "_labeled.parquet".

Definition newline : string := String "010"%char EmptyString.

(** [base_from_parquet_path] on a path whose base name is [name]. The
    pattern is searched without regard to case and ends in [$]: it matches
    when the name ends with the text of one of the bases, or with that text
    and a final line feed. *)
Definition base_from_parquet_path (name : string) : result string :=
  let low := Py.lower name in
  match List.find (fun b => ends_with (labeled_name b) low
                            || ends_with (labeled_name b +:+ newline) low) BASE_NAMES with
  | Some b => Ok (Py.upper b)
  | None => Raise (ValueError ("No pude inferir la base desde el nombre: " +:+ name))
  end.

(** The bookkeeping of the loop over [var_maps.items()]. *)
Record Plan := {
  mapped_pairs : list (string * string * gmap string string);
  missing_in_parquet : list string;
  candidates : nat
}.

Definition plan_init : Plan :=
  {| mapped_pairs := []; missing_in_parquet := []; candidates := 0 |}.

(** One turn of the loop, for the variable [var_json] with its mapping. *)
Definition plan_step (orig_cols : list string) (st : Plan)
    (item : string * gmap string string) : Plan :=
  let '(var_json, mapping) := item in
  let v_up := Py.upper var_json in
  match col_upper_to_orig orig_cols !! v_up with
  | Some parquet_col =>
      if decide (mapping = ∅)
      then {| mapped_pairs := mapped_pairs st;
              missing_in_parquet := missing_in_parquet st ++ [var_json];
              candidates := candidates st |}
      else {| mapped_pairs := mapped_pairs st ++ [(v_up, parquet_col, mapping)];
              missing_in_parquet := missing_in_parquet st;
              candidates := S (candidates st) |}
  | None =>
      {| mapped_pairs := mapped_pairs st;
         missing_in_parquet := missing_in_parquet st ++ [var_json];
         candidates := candidates st |}
  end.

(** The loop, on the items of [var_maps] in the order of the dictionary. *)
Definition label_plan (orig_cols : list string) (items : list (string * gmap string string))
  : Plan :=
  foldl (plan_step orig_cols) plan_init items.

(** [(mapped_count, candidates, diag["missing_in_parquet"])] as
    [apply_labels_to_parquet] returns them; without a dictionary for the
    base the table is copied and the counts are zero. *)
Definition apply_counts (orig_cols : list string) (items : list (string * gmap string string))
  : nat * nat * list string :=
  match items with
  | [] => (0%nat, 0%nat, [])
  | _ :: _ =>
      let p := label_plan orig_cols items in
      (length (mapped_pairs p), candidates p, missing_in_parquet p)
  end.

End Apply.

(** ** The left merge of [label_one_parquet] ([etl-enoe/label_ent_mun.py]) *)

Module Merge.

(** [left.merge(right, how="left", left_on=..., right_on=...)] seen from
    the key column: for every row of the left table, in order, one row for
    each row of the right table with the same key, in the order of the right
    table, and one row with a null when there is none. A row is given as the
    position of the left row and the value brought from the right. A null
    key on the left finds nothing: the keys of the catalog are never
    null. *)
Definition matches {K : Type} `{EqDecision K} (right : list (K * pyval)) (k : option K)
  : list pyval :=
  match k with
  | None => []
  | Some k => snd <$> filter (fun p => fst p = k) right
  end.

Definition merge_left {K : Type} `{EqDecision K} (right : list (K * pyval))
    (left_keys : list (option K)) : list (nat * pyval) :=
  concat (imap (fun i k => match matches right k with
                           | [] => [(i, PyNone)]
                           | vs => (fun v => (i, v)) <$> vs
                           end) left_keys).

End Merge.

(** ** Sample inputs *)

Module Examples.
Import Frame.
Import Parquet.

(** Two releases of one dictionary variable, the later one first in the
    corpus. *)
Definition dict_2024q4 : Labels.DictRow :=
  {| Labels.tabla := "SDEMT424"; Labels.variable := "EMP_PPAL";
     Labels.categorias := [{| Labels.valor := "01"; Labels.categoria := "Informal" |}] |}.

Definition dict_2022q2 : Labels.DictRow :=
  {| Labels.tabla := "SDEMT222"; Labels.variable := "EMP_PPAL";
     Labels.categorias := [{| Labels.valor := "01"; Labels.categoria := "Formal" |};
                           {| Labels.valor := " "; Labels.categoria := "Sin dato" |}] |}.

(** The reverse of the enumeration [elements]. *)
Definition reversed (X : gset string) : list string := reverse (elements X).

(** A file on which every parse answers the same: the header [hdr] and the
    outcome [body]. *)
Definition plain_file (name : string) (hdr : result (list string)) (body : result DataFrame)
  : CsvFile :=
  {| fname := name; head := [];
     decodes := fun _ => true;
     sniffed_delimiter := fun _ => Comma;
     header_of_sample := fun _ _ => hdr;
     header_of_file := fun _ _ => hdr;
     read_c := fun _ _ => body;
     read_python := fun _ _ => body;
     read_lossy := fun _ => body |}.

Definition hogt_upper : CsvFile :=
  plain_file "hogt_2024_trim3.csv" (Ok ["ent"; "PER"])
    (Ok {| columns := ["ent"; "PER"];
           rows := [[PyStr "9"; PyStr "324"]; [PyStr "1"; PyNone]] |}).

Definition hogt_lower : CsvFile :=
  plain_file "ENOE_HOGT123__enoe_2023_trim1_csv.csv" (Ok ["per"; "x"])
    (Ok {| columns := ["per"; "x"]; rows := [[PyStr "123"; PyStr "u"]] |}).

(** A file whose header cannot be read. *)
Definition hogt_unreadable : CsvFile :=
  plain_file "hogt_bad.csv" (Raise ParserError) (Raise ParserError).

(** The files of one batch, in the order of their names: two files of
    HOGT around a file whose header is read and whose rows are not, and a
    file of SDEMT. *)
Definition hogt_q1 : CsvFile :=
  plain_file "hogt_2024_trim1.csv" (Ok ["ent"; "PER"])
    (Ok {| columns := ["ent"; "PER"];
           rows := [[PyStr "9"; PyStr "124"]; [PyStr "1"; PyStr "124"]] |}).

Definition hogt_q2_broken : CsvFile :=
  plain_file "hogt_2024_trim2.csv" (Ok ["ent"]) (Raise ParserError).

Definition sdemt_q3 : CsvFile :=
  plain_file "sdemt_2024_trim3.csv" (Ok ["ent"])
    (Ok {| columns := ["ent"]; rows := [[PyStr "9"]; [PyStr "1"]; [PyStr "2"]] |}).

Definition broken_batch : list CsvFile := [hogt_q1; hogt_q2_broken; hogt_upper; sdemt_q3].

(** A batch in which every file that is kept loads; the header of the
    third file cannot be read. *)
Definition sound_batch : list CsvFile := [hogt_q1; hogt_upper; hogt_unreadable; sdemt_q3].

(** A file named as [files.py] names its copies: the stem, two underscores
    and the folder of the release. Its period codes say the third quarter
    of 2024, the first quarter of 2023, and nothing. *)
Definition hogt_tagged : CsvFile :=
  plain_file "ENOE_HOGT324__enoe_2024_trim3_csv.csv" (Ok ["ent"; "per"])
    (Ok {| columns := ["ent"; "per"];
           rows := [[PyStr "9"; PyStr "324"]; [PyStr "1"; PyStr "123"]; [PyStr "2"; PyNone]] |}).

Definition info_of (f : CsvFile) : FileInfo :=
  default {| fi_file := f; fi_mod := ""; fi_anio := None; fi_tri := None;
             fi_encoding := Utf8; fi_delimiter := Comma; fi_cols := [] |}
          (file_info_of f).

Definition empty_world : World := {| parquet := ∅; reports := ∅ |}.

(** A table whose period code says the first quarter of 2023. *)
Definition per_table : DataFrame :=
  {| columns := ["per"]; rows := [[PyStr "123"]] |}.

(** A catalog without the column [NOM_MUN]. *)
Definition short_catalog : Geo.CatalogFile :=
  {| Geo.cat_sniffed_delimiter := fun _ => Comma;
     Geo.cat_read := fun _ _ =>
       Ok {| columns := ["CVE_ENT"; "NOM_ENT"; "CVE_MUN"];
             rows := [[PyStr "01"; PyStr "Aguascalientes"; PyStr "001"]] |} |}.

(** A labelling that hands the table, as it is, to the writer in one
    partition of string columns. *)
Definition whole_table (t : DataFrame) (c : Geo.Catalog) : result (list (result ArrowTable)) :=
  Ok [Ok {| pdf := t; types := (fun _ => ArrowString) <$> columns t |}].

Definition sdemt_table : DataFrame :=
  {| columns := ["ent"; "EMP_PPAL"]; rows := [[PyStr "1"; PyStr "01"]; [PyStr "1"; PyStr " 1 "]] |}.

End Examples.

(** ** More sample inputs *)

Module Samples.
Import Frame.
Import Parquet.
Import Examples.

(** A table that already has a column named [anio]. *)
Definition anio_table : DataFrame :=
  {| columns := ["anio"; "ent"]; rows := [[PyStr "2024"; PyStr "9"]] |}.

(** A file of the module HOGT whose table is [anio_table]. *)
Definition anio_file : CsvFile :=
  plain_file "hogt_2024_trim3.csv" (Ok ["anio"; "ent"]) (Ok anio_table).

(** A table whose period code is missing in the second row. *)
Definition per_null_table : DataFrame :=
  {| columns := ["PER"; "x"]; rows := [[PyStr "324"; PyStr "a"]; [PyNone; PyStr "b"]] |}.

(** A file of the module HOGT, without a period in its name, whose table
    is [per_null_table]. *)
Definition per_null_file : CsvFile :=
  plain_file "hogt.csv" (Ok ["PER"; "x"]) (Ok per_null_table).

(** A previous output of the module VIVT. *)
Definition old_vivt : ParquetFile :=
  {| schema := ["anio"]; table := [[PyInt 2019]]; closed := true |}.

Definition stale_world : World :=
  {| parquet := {["enoe_master_vivt.parquet" := old_vivt]}; reports := ∅ |}.

(** A catalog with a repeated entity code. *)
Definition small_catalog : Geo.CatalogFile :=
  {| Geo.cat_sniffed_delimiter := fun _ => Comma;
     Geo.cat_read := fun _ _ =>
       Ok {| columns := ["CVE_ENT"; "NOM_ENT"; "CVE_MUN"; "NOM_MUN"];
             rows := [[PyStr "1"; PyStr "Aguascalientes"; PyStr "1"; PyStr "Aguascalientes"];
                      [PyStr "01"; PyStr "Aguascalientes"; PyStr "002"; PyStr "Asientos"];
                      [PyStr "09"; PyStr "Ciudad de México"; PyStr "002"; PyStr "Azcapotzalco"]] |} |}.


End Samples.

(** ** Proof automation *)

(** Splits a membership in a union of singletons into its cases. *)
Ltac key_cases H :=
  repeat match type of H with
         | _ ∈ _ ∪ _ => apply elem_of_union in H as [H|H]
         | _ ∈ {[ _ ]} => apply elem_of_singleton in H
         end.

(** * Properties

    ** The merge of a group *)

Import Labels.
Section MergeFacts.
Implicit Types (e : Z * gmap string string) (l : list (Z * gmap string string)).

Lemma foldl_update_lookup k l (m0 : gmap string string) :
  foldl (fun merged e => snd e ∪ merged) m0 l !! k =
  match last_hit k l with Some (_, lab) => Some lab | None => m0 !! k end.
Proof.
  revert m0. induction l as [|e l IH]; intros m0; simpl; [done|].
  rewrite IH. destruct (last_hit k l) as [[? ?]|]; [done|].
  unfold hit. rewrite lookup_union.
  destruct (e.2 !! k) as [x|]; simpl; [by destruct (m0 !! k)|].
  by destruct (m0 !! k).
Qed.

Lemma last_hit_elem k l r lab :
  last_hit k l = Some (r, lab) -> exists e, e ∈ l /\ fst e = r /\ snd e !! k = Some lab.
Proof.
  induction l as [|e l IH]; simpl; [done|].
  destruct (last_hit k l) as [h|] eqn:E.
  - intros [= ->]. destruct (IH eq_refl) as (e' & ? & ? & ?).
    exists e'. split; [by right|done].
  - unfold hit. destruct (e.2 !! k) as [x|] eqn:Ek; simpl; [|done].
    intros [= <- <-]. exists e. split; [by left|done].
Qed.

Lemma insert_by_elem x l e : e ∈ Py.insert_by Z.ltb fst x l <-> e = x \/ e ∈ l.
Proof.
  induction l as [|y l IH]; simpl.
  - rewrite list_elem_of_singleton, elem_of_nil. tauto.
  - destruct (y.1 <? x.1); rewrite !elem_of_cons; [rewrite IH|]; tauto.
Qed.

Lemma insert_by_sorted x l : rank_sorted l -> rank_sorted (Py.insert_by Z.ltb fst x l).
Proof.
  induction 1 as [|y l Hs IH Hall]; simpl.
  - repeat constructor.
  - destruct (Z.ltb_spec y.1 x.1).
    + constructor; [done|]. apply Forall_forall. intros e [->|He]%insert_by_elem; [lia|].
      by eapply Forall_forall in Hall.
    + constructor; [by constructor|]. constructor; [done|].
      eapply Forall_impl; [exact Hall|]. simpl. intros; lia.
Qed.

Lemma sorted_sorted l : rank_sorted (Py.sorted Z.ltb fst l).
Proof. induction l; simpl; [constructor|by apply insert_by_sorted]. Qed.

Lemma sorted_elem l e : e ∈ Py.sorted Z.ltb fst l <-> e ∈ l.
Proof.
  induction l as [|x l IH]; simpl; [done|].
  rewrite insert_by_elem, elem_of_cons, IH. tauto.
Qed.

Lemma insert_last_hit k x l :
  rank_sorted l -> last_hit k (Py.insert_by Z.ltb fst x l) = challenge k x (last_hit k l).
Proof.
  induction 1 as [|y l Hs IH Hall]; simpl; [done|].
  destruct (Z.ltb_spec y.1 x.1) as [Hlt|Hge]; simpl.
  - rewrite IH. unfold challenge. destruct (last_hit k l) as [[r' l']|] eqn:E; simpl.
    + by destruct (x.2 !! k), (r' <? x.1).
    + unfold hit. destruct (x.2 !! k) as [lx|] eqn:Ex; simpl.
      * destruct (y.2 !! k); simpl; [|done].
        destruct (Z.ltb_spec y.1 x.1); [done|lia].
      * by destruct (y.2 !! k).
  - unfold challenge. destruct (last_hit k l) as [[r' l']|] eqn:E; simpl.
    + destruct (x.2 !! k); [|done].
      apply last_hit_elem in E as (e & He & <- & _).
      eapply Forall_forall in Hall; [|done].
      destruct (Z.ltb_spec e.1 x.1); [lia|done].
    + unfold hit. destruct (y.2 !! k) as [ly|]; simpl; [|done].
      destruct (x.2 !! k); simpl; [|done].
      destruct (Z.ltb_spec y.1 x.1); [lia|done].
Qed.

Lemma sorted_last_hit k l : last_hit k (Py.sorted Z.ltb fst l) = winner k l.
Proof.
  induction l as [|x l IH]; simpl; [done|].
  rewrite insert_last_hit by apply sorted_sorted. by rewrite IH.
Qed.

Lemma merge_group_lookup k l : merge_group l !! k = snd <$> winner k l.
Proof.
  unfold merge_group. rewrite foldl_update_lookup, sorted_last_hit, lookup_empty.
  by destruct (winner k l) as [[? ?]|].
Qed.

Lemma winner_elem k l r lab :
  winner k l = Some (r, lab) -> exists e, e ∈ l /\ fst e = r /\ snd e !! k = Some lab.
Proof.
  revert r lab. induction l as [|e l IH]; simpl; intros r lab; [done|].
  unfold challenge, hit. destruct (winner k l) as [[r' l']|].
  - destruct (e.2 !! k) as [lx|] eqn:Ek.
    + destruct (r' <? e.1).
      * intros [= <- <-]. exists e. split; [by left|done].
      * intros [= <- <-]. destruct (IH _ _ eq_refl) as (e' & ? & ? & ?).
        exists e'. split; [by right|done].
    + intros [= <- <-]. destruct (IH _ _ eq_refl) as (e' & ? & ? & ?).
      exists e'. split; [by right|done].
  - destruct (e.2 !! k) as [lx|] eqn:Ek; simpl; [|done].
    intros [= <- <-]. exists e. split; [by left|done].
Qed.

Lemma winner_None k l : winner k l = None <-> forall e, e ∈ l -> snd e !! k = None.
Proof.
  induction l as [|e l IH]; simpl.
  - split; [|done]. intros _ e He. by apply elem_of_nil in He.
  - unfold challenge, hit. destruct (winner k l) as [[r' l']|] eqn:E.
    + split.
      * by destruct (e.2 !! k), (r' <? e.1).
      * intros H. assert (Hn : Some (r', l') = None); [|done].
        apply IH. intros e' He'. apply H. by right.
    + destruct (e.2 !! k) eqn:Ek; simpl.
      * split; [done|]. intros H. specialize (H e (list_elem_of_here _ _)). congruence.
      * split; [|done]. intros _ e' [->|He']%elem_of_cons; [done|]. by apply IH.
Qed.

(** Entries before [e] holding [k] rank no higher, entries after [e]
    holding [k] rank strictly lower: [e] wins. *)
Lemma winner_split k pre e post lab :
  snd e !! k = Some lab ->
  (forall e', e' ∈ pre -> is_Some (snd e' !! k) -> fst e' <= fst e) ->
  (forall e', e' ∈ post -> is_Some (snd e' !! k) -> fst e' < fst e) ->
  winner k (pre ++ e :: post) = Some (fst e, lab).
Proof.
  intros Hk Hpre Hpost.
  assert (Hmid : winner k (e :: post) = Some (e.1, lab)).
  { simpl. unfold challenge, hit. rewrite Hk.
    destruct (winner k post) as [[r' l']|] eqn:E; simpl; [|done].
    apply winner_elem in E as (e' & He' & <- & Hl').
    specialize (Hpost e' He' (mk_is_Some _ _ Hl')).
    destruct (Z.ltb_spec e'.1 e.1); [done|lia]. }
  induction pre as [|x pre IH]; simpl; [exact Hmid|].
  rewrite IH; [|intros; apply Hpre; [by right|done]].
  unfold challenge. destruct (x.2 !! k) as [lx|] eqn:Ex; [|done].
  specialize (Hpre x (list_elem_of_here _ _) (mk_is_Some _ _ Ex)).
  destruct (Z.ltb_spec e.1 x.1); [lia|done].
Qed.

Lemma winner_ext k k' l :
  (forall e, e ∈ l -> snd e !! k = snd e !! k') -> winner k l = winner k' l.
Proof.
  induction l as [|e l IH]; simpl; intros H; [done|].
  rewrite IH by (intros; apply H; by right).
  unfold challenge, hit. by rewrite (H e (list_elem_of_here _ _)).
Qed.
End MergeFacts.

(** ** White space and the construction of the local maps *)
Section StripFacts.
Lemma rstrip_idem s : Py.rstrip (Py.rstrip s) = Py.rstrip s.
Proof.
  induction s as [|c r IH]; simpl; [done|].
  destruct (Py.rstrip r) as [|a b] eqn:E.
  - destruct (Py.is_space c) eqn:Ec; simpl; [done|].
    by rewrite Ec.
  - simpl in *. by rewrite IH.
Qed.

Lemma lstrip_head s :
  Py.lstrip s = "" \/ exists c r, Py.lstrip s = String c r /\ Py.is_space c = false.
Proof.
  induction s as [|c r IH]; simpl; [by left|].
  destruct (Py.is_space c) eqn:Ec; [done|]. right. by exists c, r.
Qed.

Lemma strip_idem s : Py.strip (Py.strip s) = Py.strip s.
Proof.
  unfold Py.strip.
  destruct (lstrip_head s) as [->|(c & r & -> & Hc)]; [done|].
  assert (Hl : Py.lstrip (Py.rstrip (String c r)) = Py.rstrip (String c r)).
  { simpl. destruct (Py.rstrip r); rewrite ?Hc; simpl; by rewrite ?Hc. }
  by rewrite Hl, rstrip_idem.
Qed.
End StripFacts.

Section ConsolidationFacts.
Variable list_of_set : gset string -> list string.
Hypothesis list_of_set_perm : forall X, list_of_set X ≡ₚ elements X.

Lemma list_of_set_elem X k : k ∈ list_of_set X <-> k ∈ X.
Proof. by rewrite list_of_set_perm, elem_of_elements. Qed.

Lemma foldl_insert_lookup (lab : string) ks (m0 : gmap string string) k :
  foldl (fun m k' => <[k' := lab]> m) m0 ks !! k =
  if decide (k ∈ ks) then Some lab else m0 !! k.
Proof.
  revert m0. induction ks as [|k' ks IH]; intros m0; simpl.
  - destruct (decide (k ∈ [])) as [H|H]; [by apply elem_of_nil in H|done].
  - rewrite IH.
    destruct (decide (k ∈ ks)) as [H1|H1], (decide (k ∈ k' :: ks)) as [H2|H2]; try done.
    + exfalso. apply H2. by right.
    + apply elem_of_cons in H2 as [->|?]; [|done]. by rewrite lookup_insert_eq.
    + rewrite lookup_insert_ne; [done|]. intros ->. apply H2. by left.
Qed.

Lemma add_categoria_lookup lm c k :
  add_categoria list_of_set lm c !! k =
  if decide (inserts c k) then Some (Py.strip (categoria c)) else lm !! k.
Proof.
  unfold add_categoria, inserts, normalize_code_keys. rewrite strip_idem.
  destruct (decide (Py.strip (valor c) = "" \/ Py.strip (categoria c) = "")) as [Hskip|Hskip].
  - rewrite decide_False; [done|]. tauto.
  - rewrite foldl_insert_lookup.
    rewrite (decide_False (P := Py.strip (valor c) = "")) by tauto.
    destruct (decide (k ∈ list_of_set _)) as [Hin|Hin].
    + apply list_of_set_elem in Hin. rewrite decide_True; [done|]. tauto.
    + rewrite decide_False; [done|]. intros (_ & _ & Hk). by apply Hin, list_of_set_elem.
Qed.

(** A property of the keys that every inserted key set has holds of
    every map [local_map_of] builds. *)
Lemma local_map_of_lookup_inv cats k lab :
  local_map_of list_of_set cats !! k = Some lab ->
  exists c, c ∈ cats /\ inserts c k /\ lab = Py.strip (categoria c).
Proof.
  unfold local_map_of.
  assert (G : forall lm, foldl (add_categoria list_of_set) lm cats !! k = Some lab ->
            lm !! k = Some lab \/ exists c, c ∈ cats /\ inserts c k /\ lab = Py.strip (categoria c)).
  { induction cats as [|c cats IH]; intros lm; simpl; [by left|].
    intros [H|(c' & ? & ?)]%IH.
    - rewrite add_categoria_lookup in H. destruct (decide (inserts c k)) as [Hi|Hi].
      + right. exists c. split; [by left|]. split; [done|congruence].
      + by left.
    - right. exists c'. split; [by right|done]. }
  intros [H|H]%G; [by rewrite lookup_empty in H|done].
Qed.

Lemma local_map_of_agree cats k k' :
  (forall c, c ∈ cats -> inserts c k <-> inserts c k') ->
  local_map_of list_of_set cats !! k = local_map_of list_of_set cats !! k'.
Proof.
  unfold local_map_of.
  assert (G : forall lm, lm !! k = lm !! k' ->
            (forall c, c ∈ cats -> inserts c k <-> inserts c k') ->
            foldl (add_categoria list_of_set) lm cats !! k
            = foldl (add_categoria list_of_set) lm cats !! k').
  { induction cats as [|c cats IH]; intros lm Hlm H; simpl; [done|].
    apply IH; [|intros; apply H; by right].
    rewrite !add_categoria_lookup.
    pose proof (H c (list_elem_of_here _ _)) as Hc.
    destruct (decide (inserts c k)), (decide (inserts c k')); tauto || done. }
  intros H. apply G; [done|exact H].
Qed.
End ConsolidationFacts.

(** ** Groups and the consolidated mappings *)
Section GroupFacts.
Variable list_of_set : gset string -> list string.

Lemma grouped_lookup_gen (rows : list DictRow) (key : string * string) (g : gmap (string * string) (list (Z * gmap string string))) :
  foldl (fun g r => <[row_key r := default [] (g !! row_key r) ++ [row_entry list_of_set r]]> g)
        g rows !! key
  = match entries list_of_set key rows with
    | [] => g !! key
    | new => Some (default [] (g !! key) ++ new)
    end.
Proof.
  revert g. induction rows as [|r rows IH]; intros g; simpl; [done|].
  rewrite IH. unfold entries. rewrite filter_cons.
  destruct (decide (row_key r = key)) as [<-|Hne].
  - rewrite lookup_insert_eq. simpl.
    destruct (filter (fun r0 => row_key r0 = row_key r) rows) as [|e es]; simpl; [done|].
    by rewrite <- app_assoc.
  - rewrite lookup_insert_ne by done. done.
Qed.

Lemma grouped_lookup (rows : list DictRow) (key : string * string) :
  grouped list_of_set rows !! key
  = match entries list_of_set key rows with [] => None | new => Some new end.
Proof.
  unfold grouped. rewrite grouped_lookup_gen, lookup_empty. simpl.
  by destruct (entries list_of_set key rows).
Qed.

Lemma build_lookup (rows : list DictRow) (base var : string) :
  mapping_of list_of_set rows base var
  = merge_group <$> grouped list_of_set rows !! (base, var).
Proof.
  unfold mapping_of, build_base_var_mappings.
  revert base var.
  apply (map_fold_weak_ind
    (fun (res : gmap string (gmap string (gmap string string))) g =>
       forall base var, res !! base ≫= (fun vm => vm !! var) = merge_group <$> g !! (base, var))).
  - intros base var. by rewrite !lookup_empty.
  - intros [b0 v0] lst g res Hnone IH base var. simpl.
    destruct (decide (base = b0)) as [->|Hb].
    + rewrite lookup_insert_eq. simpl.
      destruct (decide (var = v0)) as [->|Hv].
      * by rewrite !lookup_insert_eq.
      * rewrite !lookup_insert_ne by congruence.
        rewrite <- IH. by destruct (res !! b0).
    + rewrite !lookup_insert_ne by congruence. apply IH.
Qed.

Lemma mapping_of_entries (rows : list DictRow) (base var : string) :
  mapping_of list_of_set rows base var
  = match entries list_of_set (base, var) rows with [] => None | new => Some (merge_group new) end.
Proof.
  rewrite build_lookup, grouped_lookup. by destruct (entries list_of_set (base, var) rows).
Qed.

Lemma entries_app (key : string * string) (l1 l2 : list DictRow) : entries list_of_set key (l1 ++ l2) = entries list_of_set key l1 ++ entries list_of_set key l2.
Proof. unfold entries. by rewrite filter_app, fmap_app. Qed.

Lemma entries_elem (key : string * string) (rows : list DictRow) e :
  e ∈ entries list_of_set key rows <-> exists r, r ∈ rows /\ row_key r = key /\ e = row_entry list_of_set r.
Proof.
  unfold entries. rewrite list_elem_of_fmap. split.
  - intros (r & -> & [? ?]%list_elem_of_filter). by exists r.
  - intros (r & ? & ? & ->). exists r. split; [done|]. by apply list_elem_of_filter.
Qed.
End GroupFacts.

(** ** Decimal text and the key sets *)
Section DecimalFacts.
Lemma to_int_proper n : Z.to_int n <> Decimal.Pos Decimal.Nil /\ Z.to_int n <> Decimal.Neg Decimal.Nil.
Proof.
  destruct n as [|p|p]; simpl; split; try discriminate;
    intros [= H]; by apply DecimalPos.Unsigned.to_uint_nonnil in H.
Qed.

Lemma str_parse n : NilZero.int_of_string (Py.str n) = Some (Z.to_int n).
Proof. unfold Py.str. destruct (to_int_proper n). by apply NilZero.isi. Qed.

Lemma str_inj a b : Py.str a = Py.str b -> a = b.
Proof.
  intros H. apply DecimalZ.to_int_inj.
  assert (E : Some (Z.to_int a) = Some (Z.to_int b)) by (by rewrite <- !str_parse, H).
  by injection E.
Qed.

Lemma str_nonempty n : Py.str n <> "".
Proof.
  intros H. pose proof (str_parse n) as E. rewrite H in E. discriminate E.
Qed.

Lemma str_not_01 n : Py.str n <> "01".
Proof.
  intros H. pose proof (str_parse n) as E. rewrite H in E.
  assert (Hn : n = 1).
  { rewrite <- (DecimalZ.of_to n). injection E as <-. reflexivity. }
  subst n. discriminate E.
Qed.

Lemma fmt_02d_nonempty n : Py.fmt_02d n <> "".
Proof.
  unfold Py.fmt_02d. destruct (_ <? _)%nat; [discriminate|apply str_nonempty].
Qed.

Lemma fmt_02d_not_1 n : Py.fmt_02d n <> "1".
Proof.
  unfold Py.fmt_02d. destruct (String.length (Py.str n) <? 2)%nat eqn:E; [discriminate|].
  intros H. rewrite H in E. discriminate E.
Qed.

Lemma fmt_02d_01 n : Py.fmt_02d n = "01" -> n = 1.
Proof.
  unfold Py.fmt_02d. destruct (String.length (Py.str n) <? 2)%nat.
  - intros [= H]. by apply (str_inj n 1).
  - intros H. by apply str_not_01 in H.
Qed.
End DecimalFacts.

Section UpperFacts.
Lemma upper_char_digit c : Py.is_digit (Py.upper_char c) = true -> Py.upper_char c = c.
Proof.
  destruct c as [[] [] [] [] [] [] [] []]; vm_compute; congruence.
Qed.

Lemma upper_digits s : Py.all_chars Py.is_digit (Py.upper s) = true -> Py.upper s = s.
Proof.
  induction s as [|c r IH]; [done|].
  change (Py.upper (String c r)) with (String (Py.upper_char c) (Py.upper r)). simpl.
  intros [Hc Hr]%andb_true_iff. by rewrite (upper_char_digit c Hc), (IH Hr).
Qed.

Lemma upper_nonempty s : Py.upper s = "" -> s = "".
Proof. by destruct s. Qed.
End UpperFacts.

Section KeyFacts.
Lemma code_key_set_nonempty s : s <> "" -> "" ∉ code_key_set s.
Proof.
  intros Hs H. unfold code_key_set in H.
  destruct (Py.fullmatch_int s); simpl in H.
  - destruct (Py.int s) as [n|]; [destruct ((0 <=? n) && (n <? 100))|];
      key_cases H; try done.
    + by apply (str_nonempty n).
    + by apply (fmt_02d_nonempty n).
    + by apply (str_nonempty n).
  - key_cases H; [done|]. by apply Hs, upper_nonempty.
Qed.

Lemma key_1_iff s : "1" ∈ code_key_set s <-> reads_one s.
Proof.
  unfold code_key_set, reads_one.
  destruct (Py.fullmatch_int s) eqn:Hm; simpl.
  - destruct (Py.int s) as [n|] eqn:Hn.
    + assert (H1 : "1" ∈ ({[s]} ∪ {[Py.str n]} : gset string) <-> n = 1).
      { rewrite elem_of_union, !elem_of_singleton. split.
        - intros [<-|H]; [by injection Hn|]. by apply (str_inj n 1).
        - intros ->. by right. }
      pose proof (fmt_02d_not_1 n).
      destruct ((0 <=? n) && (n <? 100)).
      * rewrite elem_of_union, H1, elem_of_singleton. split; [intros [->|?]; done|].
        intros [_ [= ->]]. by left.
      * rewrite H1. split; [by intros ->|]. by intros [_ [= ->]].
    + rewrite elem_of_singleton. split; [intros <-; discriminate Hn|by intros [_ ?]].
  - rewrite elem_of_union, !elem_of_singleton. split; [|by intros [? _]].
    intros [<-|H]; [discriminate Hm|].
    assert (Py.upper s = s) as E by (apply upper_digits; by rewrite <- H).
    rewrite E in H. subst s. discriminate Hm.
Qed.

Lemma key_01_iff s : "01" ∈ code_key_set s <-> reads_one s.
Proof.
  unfold code_key_set, reads_one.
  destruct (Py.fullmatch_int s) eqn:Hm; simpl.
  - destruct (Py.int s) as [n|] eqn:Hn.
    + pose proof (str_not_01 n) as Hs. pose proof (fmt_02d_01 n) as Hf.
      destruct ((0 <=? n) && (n <? 100)) eqn:Hr.
      * rewrite !elem_of_union, !elem_of_singleton. split.
        -- intros [[<-|?]|?]; [by injection Hn as <-|done|]. split; [done|]. f_equal. by apply Hf.
        -- intros [_ [= ->]]. by right.
      * rewrite !elem_of_union, !elem_of_singleton. split.
        -- intros [<-|?]; [by injection Hn as <-|done].
        -- intros [_ [= ->]]. discriminate Hr.
    + rewrite elem_of_singleton. split; [intros <-; discriminate Hn|by intros [_ ?]].
  - rewrite elem_of_union, !elem_of_singleton. split; [|by intros [? _]].
    intros [<-|H]; [discriminate Hm|].
    assert (Py.upper s = s) as E by (apply upper_digits; by rewrite <- H).
    rewrite E in H. subst s. discriminate Hm.
Qed.
End KeyFacts.

(** ** Label lookup: claims C3, C4, C9 and C10 *)
Section LabelTheorems.
Variable list_of_set : gset string -> list string.

Lemma mapping_of_merge rows base var mp :
  mapping_of list_of_set rows base var = Some mp ->
  mp = merge_group (entries list_of_set (base, var) rows).
Proof.
  rewrite mapping_of_entries. destruct (entries _ _ _); [done|]. by intros [= <-].
Qed.

Lemma lookup_first_head (mp : gmap string string) k ks lab :
  mp !! k = Some lab -> lookup_first mp (k :: ks) = Some lab.
Proof.
  intros H. simpl. rewrite decide_True; [done|]. apply elem_of_dom. by exists lab.
Qed.

Lemma lookup_first_absent (mp : gmap string string) ks :
  (forall k, k ∈ ks -> mp !! k = None) -> lookup_first mp ks = None.
Proof.
  induction ks as [|k ks IH]; simpl; [done|]. intros H.
  rewrite decide_False.
  - apply IH. intros; apply H. by right.
  - rewrite elem_of_dom, (H k (list_elem_of_here _ _)). by intros [? ?].
Qed.
End LabelTheorems.

Lemma norm_variants_1 : norm_variants (PyStr "1") = ["1"; "01"].
Proof. by vm_compute. Qed.
Lemma norm_variants_01 : norm_variants (PyStr "01") = ["01"; "1"].
Proof. by vm_compute. Qed.
Lemma norm_variants_1_spaces : norm_variants (PyStr " 1 ") = ["1"; "01"].
Proof. by vm_compute. Qed.

Lemma norm_variants_blank s : Py.strip s = "" -> norm_variants (PyStr s) = [""].
Proof. intros H. unfold norm_variants. simpl. rewrite H. by vm_compute. Qed.

(** C3. The consolidated mapping of a group (base, variable) is the merge
    of the group's entries in ascending rank order, later entries
    overwriting earlier ones. Hence, when the row [e] holds the key [k],
    every row of the group before [e] that holds [k] ranks no higher and
    every row of the group after [e] that holds [k] ranks strictly lower,
    the consolidated mapping gives [k] the label of [e]. *)
Theorem C3_latest_release_wins (list_of_set : gset string -> list string)
    (pre post : list DictRow) (e : DictRow) (base var k label : string) :
  row_key e = (base, var) ->
  local_map_of list_of_set (categorias e) !! k = Some label ->
  Forall (fun r => row_key r = (base, var) ->
                   is_Some (local_map_of list_of_set (categorias r) !! k) ->
                   row_rank r <= row_rank e) pre ->
  Forall (fun r => row_key r = (base, var) ->
                   is_Some (local_map_of list_of_set (categorias r) !! k) ->
                   row_rank r < row_rank e) post ->
  exists mp, mapping_of list_of_set (pre ++ e :: post) base var = Some mp /\
             mp = merge_group (entries list_of_set (base, var) (pre ++ e :: post)) /\
             mp !! k = Some label.
Proof.
  intros Hkey Hk Hpre Hpost.
  rewrite mapping_of_entries.
  assert (Hsplit : entries list_of_set (base, var) (pre ++ e :: post)
                   = entries list_of_set (base, var) pre ++ row_entry list_of_set e
                     :: entries list_of_set (base, var) post).
  { rewrite entries_app. f_equal. unfold entries. rewrite filter_cons.
    by rewrite decide_True. }
  rewrite Hsplit.
  destruct (entries list_of_set (base, var) pre ++ _ :: _) as [|x xs] eqn:E;
    [by destruct (entries list_of_set (base, var) pre)|].
  eexists. split; [done|]. split; [done|].
  rewrite <- E, merge_group_lookup.
  rewrite (winner_split k _ (row_entry list_of_set e) _ label); [done|done| |].
  - intros e' (r & Hr & Hrk & ->)%entries_elem Hsome.
    by apply (proj1 (Forall_forall _ _) Hpre r Hr).
  - intros e' (r & Hr & Hrk & ->)%entries_elem Hsome.
    by apply (proj1 (Forall_forall _ _) Hpost r Hr).
Qed.

(** C4. In a consolidated mapping that stores a label under the key ["1"],
    the key ["01"] stores the same label, and the lookup function returns
    that label on each of the raw values ["1"], ["01"] and [" 1 "]. *)
Theorem C4_lookup_normalization (list_of_set : gset string -> list string)
    (rows : list DictRow) (base var : string) (mp : gmap string string) (label : string) :
  (forall X, list_of_set X ≡ₚ elements X) ->
  mapping_of list_of_set rows base var = Some mp ->
  mp !! "1" = Some label ->
  mp !! "01" = Some label /\
  lookup_udf mp (PyStr "1") = Some label /\
  lookup_udf mp (PyStr "01") = Some label /\
  lookup_udf mp (PyStr " 1 ") = Some label.
Proof.
  intros Hperm Hmp H1.
  assert (H01 : mp !! "01" = Some label).
  { rewrite <- H1. rewrite (mapping_of_merge _ _ _ _ _ Hmp), !merge_group_lookup.
    f_equal. apply winner_ext.
    intros e' (r & _ & _ & ->)%entries_elem. simpl.
    apply (local_map_of_agree _ Hperm). intros c _. unfold inserts.
    rewrite key_1_iff, key_01_iff. tauto. }
  unfold lookup_udf.
  rewrite norm_variants_1, norm_variants_01, norm_variants_1_spaces.
  by rewrite !(lookup_first_head _ _ _ label).
Qed.

(** C10. A category whose code or label is empty or white space leaves
    the map under construction unchanged; no consolidated mapping has the
    empty string as a key; and the lookup function returns null on a null
    value and on every empty or white-space value. *)
Theorem C10_no_empty_key (list_of_set : gset string -> list string)
    (rows : list DictRow) (base var : string) (mp : gmap string string) :
  (forall X, list_of_set X ≡ₚ elements X) ->
  mapping_of list_of_set rows base var = Some mp ->
  (forall lm c, Py.strip (valor c) = "" \/ Py.strip (categoria c) = "" ->
                add_categoria list_of_set lm c = lm) /\
  mp !! "" = None /\
  lookup_udf mp PyNone = None /\
  (forall s, Py.strip s = "" -> lookup_udf mp (PyStr s) = None).
Proof.
  intros Hperm Hmp.
  assert (Hempty : mp !! "" = None).
  { rewrite (mapping_of_merge _ _ _ _ _ Hmp), merge_group_lookup.
    destruct (winner "" _) as [[r lab]|] eqn:E; [|done]. exfalso.
    apply winner_elem in E as (e' & (row & _ & _ & ->)%entries_elem & _ & Hl).
    simpl in Hl. apply (local_map_of_lookup_inv _ Hperm) in Hl as (c & _ & (Hv & _ & Hin) & _).
    by apply (code_key_set_nonempty _ Hv). }
  split; [|split; [done|split; [done|]]].
  - intros lm c Hskip. unfold add_categoria. by rewrite decide_True.
  - intros s Hs. unfold lookup_udf. rewrite (norm_variants_blank s Hs).
    apply lookup_first_absent. by intros k ->%list_elem_of_singleton.
Qed.

Section Determinism.
Variables los1 los2 : gset string -> list string.
Hypothesis perm1 : forall X, los1 X ≡ₚ elements X.
Hypothesis perm2 : forall X, los2 X ≡ₚ elements X.

Lemma add_categoria_order lm c : add_categoria los1 lm c = add_categoria los2 lm c.
Proof.
  apply map_eq. intros k.
  by rewrite (add_categoria_lookup _ perm1), (add_categoria_lookup _ perm2).
Qed.

Lemma local_map_of_order cats : local_map_of los1 cats = local_map_of los2 cats.
Proof.
  unfold local_map_of. generalize (∅ : gmap string string).
  induction cats as [|c cats IH]; intros lm; simpl; [done|].
  by rewrite add_categoria_order, IH.
Qed.

Lemma grouped_order rows : grouped los1 rows = grouped los2 rows.
Proof.
  unfold grouped. generalize (∅ : gmap (string * string) (list (Z * gmap string string))).
  induction rows as [|r rows IH]; intros g; simpl; [done|].
  unfold row_entry. rewrite local_map_of_order. apply IH.
Qed.

Lemma build_order rows : build_base_var_mappings los1 rows = build_base_var_mappings los2 rows.
Proof. unfold build_base_var_mappings. by rewrite grouped_order. Qed.
End Determinism.

(** C9. The consolidated mappings, and with them the values of every label
    column derived for a table, are the same in two runs on the same
    dictionary rows, whatever the order in which each run enumerates its
    sets of keys. *)
Theorem C9_label_application_deterministic (los1 los2 : gset string -> list string)
    (rows : list DictRow) (base : string) (t : Frame.DataFrame) :
  (forall X, los1 X ≡ₚ elements X) ->
  (forall X, los2 X ≡ₚ elements X) ->
  build_base_var_mappings los1 rows = build_base_var_mappings los2 rows /\
  label_columns (default ∅ (build_base_var_mappings los1 rows !! base)) t
  = label_columns (default ∅ (build_base_var_mappings los2 rows !! base)) t.
Proof.
  intros H1 H2. pose proof (build_order los1 los2 H1 H2 rows) as E.
  split; [done|]. by rewrite E.
Qed.

(** ** The stable sort *)
Section SortedFacts.
Context {A K : Type} (ltb : K -> K -> bool) (key : A -> K).
Hypothesis ltb_asym : forall a b, ltb a b = true -> ltb b a = false.
Hypothesis geb_trans : forall a b c, ltb b a = false -> ltb c b = false -> ltb c a = false.

Local Abbreviation key_le := (Py.key_le ltb key).

Lemma insert_by_perm x l : Py.insert_by ltb key x l ≡ₚ x :: l.
Proof.
  induction l as [|y l IH]; simpl; [done|].
  destruct (ltb (key y) (key x)); [|done].
  rewrite IH. apply Permutation_swap.
Qed.

Lemma sorted_perm l : Py.sorted ltb key l ≡ₚ l.
Proof.
  induction l as [|x l IH]; simpl; [done|]. by rewrite insert_by_perm, IH.
Qed.

Lemma insert_by_key_sorted x l :
  StronglySorted key_le l -> StronglySorted key_le (Py.insert_by ltb key x l).
Proof.
  induction 1 as [|y l Hs IH Hall]; simpl.
  - repeat constructor.
  - destruct (ltb (key y) (key x)) eqn:E.
    + constructor; [done|]. rewrite insert_by_perm. constructor; [|done].
      unfold Py.key_le. by apply ltb_asym.
    + constructor; [by constructor|]. constructor; [done|].
      eapply Forall_impl; [exact Hall|]. intros z Hz. unfold Py.key_le in *.
      by apply (geb_trans _ (key y)).
Qed.

Lemma sorted_key_sorted l : StronglySorted key_le (Py.sorted ltb key l).
Proof. induction l; simpl; [constructor|by apply insert_by_key_sorted]. Qed.

Lemma filter_strongly_sorted (R : A -> A -> Prop) (P : A -> Prop) `{forall x, Decision (P x)} l :
  StronglySorted R l -> StronglySorted R (filter P l).
Proof.
  induction 1 as [|y l Hs IH Hall]; [constructor|].
  rewrite filter_cons. destruct (decide (P y)); [|done].
  constructor; [done|]. apply Forall_forall. intros z [_ Hz]%list_elem_of_filter.
  by eapply Forall_forall in Hall.
Qed.
End SortedFacts.

Section StringOrder.
Lemma ascii_compare_lt_trans a b c :
  Ascii.compare a b = Lt -> Ascii.compare b c = Lt -> Ascii.compare a c = Lt.
Proof.
  unfold Ascii.compare. rewrite !N.compare_lt_iff. apply N.lt_trans.
Qed.

Lemma ascii_compare_eq a b : Ascii.compare a b = Eq -> a = b.
Proof. apply Ascii.compare_eq_iff. Qed.

Lemma string_compare_lt_trans a : forall b c,
  String.compare a b = Lt -> String.compare b c = Lt -> String.compare a c = Lt.
Proof.
  induction a as [|x a IH]; intros [|y b] [|z c]; simpl; try done.
  destruct (Ascii.compare x y) eqn:Exy; try done.
  - apply ascii_compare_eq in Exy as ->.
    destruct (Ascii.compare y z) eqn:Eyz; try done. apply IH.
  - destruct (Ascii.compare y z) eqn:Eyz; try done.
    + apply ascii_compare_eq in Eyz as ->. by rewrite Exy.
    + by rewrite (ascii_compare_lt_trans x y z).
Qed.

Lemma string_ltb_asym a b : String.ltb a b = true -> String.ltb b a = false.
Proof.
  unfold String.ltb. rewrite (String.compare_antisym a b).
  by destruct (String.compare b a).
Qed.

Lemma string_ltb_antisym a b :
  String.ltb a b = false -> String.ltb b a = false -> a = b.
Proof.
  unfold String.ltb. rewrite (String.compare_antisym a b).
  destruct (String.compare b a) eqn:E; simpl; try done.
  intros _ _. symmetry. by apply String.compare_eq_iff.
Qed.

Lemma string_geb_trans a b c :
  String.ltb b a = false -> String.ltb c b = false -> String.ltb c a = false.
Proof.
  unfold String.ltb. intros Hba Hcb.
  destruct (String.compare c a) eqn:Eca; try done. exfalso.
  destruct (String.compare b a) eqn:Eba; try done.
  - apply String.compare_eq_iff in Eba as ->. by rewrite Eca in Hcb.
  - destruct (String.compare c b) eqn:Ecb; try done.
    + apply String.compare_eq_iff in Ecb as ->. congruence.
    + rewrite (String.compare_antisym b a) in Eba.
      destruct (String.compare a b) eqn:Eab; try done.
      pose proof (string_compare_lt_trans _ _ _ Eca Eab) as H. congruence.
Qed.
End StringOrder.

(** ** Tables and the metadata columns *)
Import Frame.
Import Parquet.

Section FrameFacts.
Lemma index_of_is_Some c cols : c ∈ cols <-> is_Some (index_of c cols).
Proof.
  induction cols as [|c' cols IH]; simpl.
  - split; [by intros ?%elem_of_nil|by intros [? ?]].
  - destruct (decide (c' = c)) as [->|Hne].
    + split; [by eexists|by left].
    + rewrite elem_of_cons, IH, fmap_is_Some. split; [by intros [->|?]|by right].
Qed.

Lemma index_of_None c cols : c ∉ cols <-> index_of c cols = None.
Proof. rewrite index_of_is_Some, eq_None_not_Some. done. Qed.

Lemma index_of_app_l c l1 l2 i : index_of c l1 = Some i -> index_of c (l1 ++ l2) = Some i.
Proof.
  revert i. induction l1 as [|c' l1 IH]; intros i; simpl; [done|].
  destruct (decide (c' = c)); [done|].
  destruct (index_of c l1) as [j|]; [|done]. by rewrite (IH j eq_refl).
Qed.

Lemma nrows_insert_col loc name s df df' :
  insert_col loc name s df = Ok df' -> nrows df' = nrows df.
Proof.
  unfold insert_col. destruct (decide _); [done|]. intros [= <-].
  unfold nrows. simpl. apply length_imap.
Qed.

Lemma nrows_set_col name s df : nrows (set_col name s df) = nrows df.
Proof.
  unfold set_col, nrows. destruct (index_of name (columns df)); simpl; apply length_imap.
Qed.

Lemma columns_set_col_in name s df :
  name ∈ columns df -> columns (set_col name s df) = columns df.
Proof.
  intros [i Hi]%index_of_is_Some. unfold set_col. by rewrite Hi.
Qed.

Lemma nrows_reindex cols df : nrows (reindex cols df) = nrows df.
Proof. unfold reindex, nrows. simpl. apply length_fmap. Qed.

Lemma nrows_pad_columns cols df : nrows (pad_columns cols df) = nrows df.
Proof.
  unfold pad_columns. revert df. induction cols as [|c cols IH]; intros df; simpl; [done|].
  rewrite IH. destruct (decide _); [done|apply nrows_set_col].
Qed.

(** A series computed row by row, put back next to the rows. *)
Lemma imap_cell_fmap {B} (h : list pyval -> pyval) (F : pyval -> list pyval -> B) l :
  imap (fun i r => F (cell (h <$> l) i) r) l = (fun r => F (h r) r) <$> l.
Proof.
  apply list_eq. intros i. rewrite list_lookup_imap, list_lookup_fmap.
  destruct (l !! i) as [r|] eqn:E; simpl; [|done].
  unfold cell. by rewrite list_lookup_fmap, E.
Qed.

Lemma zip_with_fmap_same {B C D} (g : B -> C -> D) (h1 : list pyval -> B) (h2 : list pyval -> C)
    (l : list (list pyval)) :
  zip_with g (h1 <$> l) (h2 <$> l) = (fun r => g (h1 r) (h2 r)) <$> l.
Proof. induction l as [|r l IH]; simpl; [done|]. f_equal. apply IH. Qed.

Lemma replicate_as_fmap {B C} (v : C) (l : list B) : replicate (length l) v = (fun _ => v) <$> l.
Proof. induction l as [|r l IH]; simpl; [done|]. f_equal. apply IH. Qed.
End FrameFacts.

Section MetaFacts.
Lemma insert_col_rows loc name (l0 : list (list pyval)) (g : list pyval -> list pyval)
    (h : list pyval -> pyval) cols :
  name ∉ cols ->
  insert_col loc name (h <$> l0) {| columns := cols; rows := g <$> l0 |}
  = Ok {| columns := take loc cols ++ name :: drop loc cols;
          rows := (fun r0 => take loc (g r0) ++ h r0 :: drop loc (g r0)) <$> l0 |}.
Proof.
  intros Hfree. unfold insert_col. simpl. rewrite decide_False by done.
  f_equal. f_equal. apply list_eq. intros i.
  rewrite list_lookup_imap, !list_lookup_fmap.
  destruct (l0 !! i) as [r|] eqn:E; simpl; [|done].
  unfold cell. by rewrite list_lookup_fmap, E.
Qed.

Lemma column_values_rows c cols i (l0 : list (list pyval)) (g : list pyval -> list pyval) :
  index_of c cols = Some i ->
  column_values c {| columns := cols; rows := g <$> l0 |} = (fun r0 => cell (g r0) i) <$> l0.
Proof.
  intros Hi. unfold column_values. simpl. rewrite Hi. by rewrite <- list_fmap_compose.
Qed.

(** The three inserts, for series computed row by row. *)
Lemma insert_meta_rows df (h1 h2 : list pyval -> pyval) :
  (forall c, c ∈ META -> c ∉ columns df) ->
  insert_meta df (h1 <$> rows df) (h2 <$> rows df)
  = Ok {| columns := META ++ columns df;
          rows := (fun r => to_int64 (h1 r) :: to_int64 (h2 r)
                            :: year_quarter_label (to_int64 (h1 r)) (to_int64 (h2 r)) :: r)
                  <$> rows df |}.
Proof.
  intros Hfree. unfold insert_meta.
  assert (Ha : "anio" ∉ columns df) by (apply Hfree; by left).
  assert (Ht : "trimestre" ∉ columns df) by (apply Hfree; right; by left).
  assert (Hl : "anio_trimestre" ∉ columns df) by (apply Hfree; right; right; by left).
  destruct df as [cols rs]. simpl in *.
  rewrite <- (list_fmap_id rs) at 2. rewrite <- !list_fmap_compose.
  rewrite (insert_col_rows 0 "anio" rs id (to_int64 ∘ h1) cols Ha). simpl.
  rewrite (insert_col_rows 1 "trimestre" rs _ (to_int64 ∘ h2)); simpl.
  2:{ rewrite drop_0, elem_of_cons. by intros [?|?]. }
  rewrite !drop_0.
  rewrite !(column_values_rows _ _ _ rs) by reflexivity.
  rewrite zip_with_fmap_same.
  rewrite (insert_col_rows 2 "anio_trimestre" rs _ _); simpl.
  2:{ rewrite !elem_of_cons. by intros [?|[?|?]]. }
  rewrite drop_0.
  assert (E : forall A B (f g : A -> B) (l : list A), (forall x, f x = g x) -> f <$> l = g <$> l)
    by (intros; by apply list_fmap_ext).
  rewrite (E _ _ _ (fun r => to_int64 (h1 r) :: to_int64 (h2 r)
             :: year_quarter_label (to_int64 (h1 r)) (to_int64 (h2 r)) :: r)); [done|].
  intros r. unfold cell. simpl. by rewrite !drop_0.
Qed.
End MetaFacts.

(** ** File names and period codes *)
Section PeriodFacts.
Lemma int_digit_head c r : Py.is_digit c = true -> Py.int (String c r) = Py.nat_digits 0 (String c r).
Proof.
  destruct c as [[] [] [] [] [] [] [] []]; try (intros H; by vm_compute in H); intros _; by destruct r.
Qed.

Lemma all_digits_filter s : Py.all_chars Py.is_digit (Py.filter_chars Py.is_digit s) = true.
Proof.
  induction s as [|c r IH]; simpl; [done|].
  destruct (Py.is_digit c) eqn:E; simpl; [by rewrite E|done].
Qed.

Lemma zero_is_digit : Py.is_digit "0" = true.
Proof. done. Qed.

Lemma per_digits_shape v :
  exists d1 d2 d3 rest,
    per_digits v = String d1 (String d2 (String d3 rest)) /\
    Py.is_digit d1 = true /\ Py.is_digit d2 = true /\ Py.is_digit d3 = true.
Proof.
  unfold per_digits. pose proof (all_digits_filter (astype_str v)) as H.
  destruct (Py.filter_chars Py.is_digit (astype_str v)) as [|a [|b [|c rest]]]; simpl in H.
  - by exists "0"%char, "0"%char, "0"%char, "".
  - apply andb_true_iff in H as [Ha _].
    by exists "0"%char, "0"%char, a, "".
  - apply andb_true_iff in H as [Ha [Hb _]%andb_true_iff].
    by exists "0"%char, a, b, "".
  - apply andb_true_iff in H as [Ha [Hb [Hc _]%andb_true_iff]%andb_true_iff].
    by exists a, b, c, rest.
Qed.

(** On the zero-filled digits the two slices always read as numbers. *)
Lemma period_slices v :
  let p := per_digits v in
  to_numeric_str (String.substring 0 1 p) = PyInt (snd (period_of_digits p)) /\
  add_int 2000 (to_numeric_str (String.substring 1 2 p)) = PyInt (fst (period_of_digits p)).
Proof.
  destruct (per_digits_shape v) as (d1 & d2 & d3 & rest & -> & H1 & H2 & H3).
  cbv zeta. unfold to_numeric_str.
  assert (E1 : String.substring 0 1 (String d1 (String d2 (String d3 rest))) = String d1 "")
    by (by destruct rest).
  assert (E2 : String.substring 1 2 (String d1 (String d2 (String d3 rest)))
               = String d2 (String d3 "")) by (by destruct rest).
  rewrite E1, E2, !int_digit_head by done. simpl. rewrite H1, H2, H3. simpl.
  split; f_equal; lia.
Qed.
End PeriodFacts.

Section SearchFacts.
(** [re_name_search] returns the match at the leftmost position that has
    one, and nothing when no position has one. *)
Lemma re_name_search_Some s m :
  re_name_search s = Some m ->
  exists pre rest, s = pre ++ rest /\ re_name_at rest = Some m /\
    forall pre1 pre2, pre = pre1 ++ pre2 -> pre2 <> [] -> re_name_at (pre2 ++ rest) = None.
Proof.
  induction s as [|c s IH].
  - simpl. intros [= <-].
  - cbn [re_name_search]. destruct (re_name_at (c :: s)) as [m'|] eqn:E.
    + intros [= <-]. exists [], (c :: s). split; [done|]. split; [done|].
      intros pre1 pre2 Hp Hne. symmetry in Hp. apply app_eq_nil in Hp as [_ ->]. done.
    + intros (pre & rest & -> & Hm & Hleft)%IH.
      exists (c :: pre), rest. split; [done|]. split; [done|].
      intros [|c1 pre1] pre2 Hp Hne; simpl in Hp.
      * subst pre2. exact E.
      * injection Hp as -> ->. by apply (Hleft pre1 pre2).
Qed.

End SearchFacts.

(** ** The header scan: claim C6 *)
Section HeaderFacts.
Lemma accepted_Some r cols : accepted r = Some cols <-> r = Ok cols /\ cols <> [].
Proof.
  unfold accepted. destruct r as [[|c cs]|e]; split; try done.
  - by intros [[= <-] ?].
  - by intros [= <-].
  - by intros [[= <-] _].
  - by intros [? _].
Qed.

Lemma headers_sniffed_Some f encs cols enc delim :
  headers_sniffed f encs = Some (cols, enc, delim) ->
  enc ∈ encs /\ delim = sniffed_delimiter f enc /\ cols <> [] /\
  (header_of_sample f enc delim = Ok cols \/ header_of_file f enc delim = Ok cols).
Proof.
  induction encs as [|e encs IH]; simpl; [done|].
  destruct (decodes f e).
  - destruct (accepted (header_of_sample f e _)) as [cs|] eqn:E1.
    + intros [= <- <- <-]. apply accepted_Some in E1 as [? ?].
      split; [by left|]. split; [done|]. split; [done|by left].
    + destruct (accepted (header_of_file f e _)) as [cs|] eqn:E2.
      * intros [= <- <- <-]. apply accepted_Some in E2 as [? ?].
        split; [by left|]. split; [done|]. split; [done|by right].
      * intros (? & ? & ? & ?)%IH. split; [by right|done].
  - intros (? & ? & ? & ?)%IH. split; [by right|done].
Qed.

Lemma headers_combos_Some f combos cols enc delim :
  headers_combos f combos = Some (cols, enc, delim) ->
  (enc, delim) ∈ combos /\ cols <> [] /\ header_of_file f enc delim = Ok cols.
Proof.
  induction combos as [|[e d] combos IH]; simpl; [done|].
  destruct (accepted (header_of_file f e d)) as [cs|] eqn:E.
  - intros [= <- <- <-]. apply accepted_Some in E as [? ?]. split; [by left|done].
  - intros (? & ? & ?)%IH. split; [by right|done].
Qed.

Lemma headers_sniffed_None f encs :
  (forall enc, enc ∈ encs ->
     accepted (header_of_sample f enc (sniffed_delimiter f enc)) = None /\
     accepted (header_of_file f enc (sniffed_delimiter f enc)) = None) ->
  headers_sniffed f encs = None.
Proof.
  induction encs as [|e encs IH]; simpl; [done|]. intros H.
  destruct (H e (list_elem_of_here _ _)) as [-> ->].
  rewrite IH; [by destruct (decodes f e)|]. intros; apply H. by right.
Qed.

Lemma headers_combos_None f combos :
  (forall enc delim, (enc, delim) ∈ combos -> accepted (header_of_file f enc delim) = None) ->
  headers_combos f combos = None.
Proof.
  induction combos as [|[e d] combos IH]; simpl; [done|]. intros H.
  rewrite (H e d (list_elem_of_here _ _)). apply IH. intros; apply H. by right.
Qed.

Lemma combos_elem (encs : list encoding) enc delim :
  (enc, delim) ∈ (enc ← encs; delim ← DELIMITERS; [(enc, delim)]) -> enc ∈ encs.
Proof.
  intros (e & (d & [= -> ->]%list_elem_of_singleton & _)%list_elem_of_bind & He)%list_elem_of_bind.
  done.
Qed.
End HeaderFacts.

Section ScanFacts.
Lemma scan_file_same s s' f : same_scan s s' -> same_scan (scan_file s f) (scan_file s' f).
Proof.
  intros (Hi & Hu & Hf). unfold scan_file.
  destruct (detect_module_from_filename (fname f)); [|done].
  destruct (headers_only f) as [[[cols enc] delim]|e]; [|done].
  destruct (parse_year_trim_from_name (fname f)). unfold same_scan. simpl.
  by rewrite Hi, Hu, Hf.
Qed.

Lemma scan_files_same fs : forall s s', same_scan s s' ->
  same_scan (foldl scan_file s fs) (foldl scan_file s' fs).
Proof.
  induction fs as [|f fs IH]; intros s s' H; simpl; [done|]. by apply IH, scan_file_same.
Qed.

Lemma scan_file_log s f x : x ∈ log s -> x ∈ log (scan_file s f).
Proof.
  intros H. unfold scan_file.
  destruct (detect_module_from_filename (fname f)); simpl.
  - destruct (headers_only f) as [[[cols enc] delim]|e]; simpl.
    + by destruct (parse_year_trim_from_name (fname f)).
    + apply elem_of_app. by left.
  - apply elem_of_app. by left.
Qed.

Lemma scan_files_log fs : forall s x, x ∈ log s -> x ∈ log (foldl scan_file s fs).
Proof.
  induction fs as [|f fs IH]; intros s x H; simpl; [done|]. by apply IH, scan_file_log.
Qed.
End ScanFacts.

(** C6. When [headers_only] returns, the encoding it returns is one of the
    candidates and the header parse of the returned (encoding, delimiter)
    pair gave the returned columns, of which there is at least one. When no
    candidate combination gives a column, [headers_only] raises, and pass 1
    goes on: it logs the error for the file (or, for a file from whose name
    no module is inferred, the warning that it is omitted), and the scan,
    and the build that follows it, are those of the batch without the
    file. *)
Theorem C6_header_sniffer (f : CsvFile) :
  (forall cols enc delim,
     headers_only f = Ok (cols, enc, delim) ->
     enc ∈ encodings_try f /\ cols <> [] /\
     (header_of_sample f enc delim = Ok cols \/ header_of_file f enc delim = Ok cols)) /\
  ((forall enc, enc ∈ encodings_try f ->
      accepted (header_of_sample f enc (sniffed_delimiter f enc)) = None /\
      forall delim, accepted (header_of_file f enc delim) = None) ->
   headers_only f = Raise UnicodeDecodeError /\
   forall before after,
     let s := pass1 (before ++ f :: after) in
     let s' := pass1 (before ++ after) in
     info s = info s' /\ module_to_union s = module_to_union s' /\
     module_to_files s = module_to_files s' /\
     match detect_module_from_filename (fname f) with
     | Some _ => HeadersFailedError (fname f) UnicodeDecodeError
     | None => NoModuleWarning (fname f)
     end ∈ log s /\
     forall list_of_set w,
       build_with_dask list_of_set (info s) (module_to_union s) w
       = build_with_dask list_of_set (info s') (module_to_union s') w).
Proof.
  split.
  - intros cols enc delim. unfold headers_only.
    destruct (headers_sniffed f (encodings_try f)) as [r|] eqn:E1.
    + intros [= ->]. apply headers_sniffed_Some in E1 as (? & ? & ? & ?). done.
    + destruct (headers_combos f _) as [r|] eqn:E2; [|done].
      intros [= ->]. apply headers_combos_Some in E2 as (Hin & ? & ?).
      apply combos_elem in Hin. split; [done|]. split; [done|by right].
  - intros Hnone.
    assert (Hraise : headers_only f = Raise UnicodeDecodeError).
    { unfold headers_only. rewrite headers_sniffed_None.
      - rewrite headers_combos_None; [done|].
        intros enc delim Hin%combos_elem. by apply Hnone.
      - intros enc Hin. destruct (Hnone enc Hin) as [? H]. split; [done|apply H]. }
    split; [done|]. intros before after s s'.
    assert (Hsame : same_scan s s' /\
                    match detect_module_from_filename (fname f) with
                    | Some _ => HeadersFailedError (fname f) UnicodeDecodeError
                    | None => NoModuleWarning (fname f)
                    end ∈ log s).
    { unfold s, s', pass1. rewrite !foldl_app. simpl.
      split.
      - apply scan_files_same. unfold scan_file. rewrite Hraise.
        by destruct (detect_module_from_filename (fname f)).
      - apply scan_files_log. unfold scan_file. rewrite Hraise.
        destruct (detect_module_from_filename (fname f)); simpl;
          apply elem_of_app; right; by left. }
    destruct Hsame as [(Hi & Hu & Hf) Hlog].
    split; [done|]. split; [done|]. split; [done|]. split; [done|].
    intros los w. by rewrite Hi, Hu.
Qed.

(** ** The writer and the load of one file *)
Section WriterFacts.
Implicit Types (fs : gmap string ParquetFile) (parts : list (result ArrowTable)).

Lemma same_schema_spec cw tw t :
  same_schema cw tw t = true <-> columns (pdf t) = cw /\ types t = tw.
Proof. unfold same_schema. apply bool_decide_eq_true. Qed.

Lemma aligned_same cw tw t : same_schema cw tw t = true -> aligned cw tw t = t.
Proof. intros H. unfold aligned. by rewrite H. Qed.

(** What the loop over the partitions leaves: the partitions [done] were
    written, and the loop ended at [tail]. *)
Lemma write_rest_spec out_path cw tw parts : forall fs fs' r,
  write_rest parts out_path cw tw fs = (fs', r) ->
  exists done tail,
    parts = (Ok <$> done) ++ tail /\
    Forall (fun p => same_schema cw tw (aligned cw tw p) = true) done /\
    (forall p, p <> out_path -> fs' !! p = fs !! p) /\
    fs' !! out_path
    = (fun pf => appended pf (concat ((fun p => rows (pdf (aligned cw tw p))) <$> done)))
        <$> fs !! out_path /\
    match tail with
    | [] => r = Ok tt
    | Raise e :: _ => r = Raise e
    | Ok p :: _ => same_schema cw tw (aligned cw tw p) = false /\ r = Raise schema_mismatch
    end.
Proof.
  induction parts as [|[p|e] parts IH]; intros fs fs' r; simpl.
  - intros [= <- <-]. exists [], []. split; [done|]. split; [done|]. split; [done|].
    split; [|done]. destruct (fs !! out_path) as [[? ? ?]|]; simpl; [|done].
    unfold appended. simpl. by rewrite app_nil_r.
  - destruct (same_schema cw tw (aligned cw tw p)) eqn:Es.
    + intros (done & tail & -> & Hall & Hother & Hpath & Htail)%IH.
      exists (p :: done), tail. split; [done|]. split; [by constructor|]. split.
      * intros q Hq. rewrite (Hother q Hq). unfold write_table. by rewrite lookup_alter_ne.
      * split; [|done]. rewrite Hpath. unfold write_table. rewrite lookup_alter_eq.
        destruct (fs !! out_path) as [[? ? ?]|]; simpl; [|done].
        unfold appended. simpl. by rewrite app_assoc.
    + intros [= <- <-]. exists [], (Ok p :: parts). split; [done|]. split; [done|].
      split; [done|]. split; [|done].
      destruct (fs !! out_path) as [[? ? ?]|]; simpl; [|done].
      unfold appended. simpl. by rewrite app_nil_r.
  - intros [= <- <-]. exists [], (Raise e :: parts). split; [done|]. split; [done|].
    split; [done|]. split; [|done].
    destruct (fs !! out_path) as [[? ? ?]|]; simpl; [|done].
    unfold appended. simpl. by rewrite app_nil_r.
Qed.

Lemma write_rest_other out_path cw tw parts fs fs' r :
  write_rest parts out_path cw tw fs = (fs', r) ->
  forall p, p <> out_path -> fs' !! p = fs !! p.
Proof. by intros (? & ? & _ & _ & H & _)%write_rest_spec. Qed.

Lemma write_single_other out_path parts fs fs' r :
  write_single_parquet_from_ddf parts out_path fs = (fs', r) ->
  forall p, p <> out_path -> fs' !! p = fs !! p.
Proof.
  unfold write_single_parquet_from_ddf. destruct parts as [|[t0|e] parts];
    [by intros [= <- <-]| |by intros [= <- <-]].
  destruct (write_rest parts _ _ _ _) as [fs1 r1] eqn:E. intros [= <- <-] p Hp.
  unfold close_writer. rewrite lookup_alter_ne by done.
  rewrite (write_rest_other _ _ _ _ _ _ _ E p Hp). unfold write_table, open_writer.
  rewrite lookup_alter_ne by done. by rewrite lookup_insert_ne.
Qed.

Lemma all_loaded_prefix {A} (parts : list (result A)) :
  all_loaded parts <-> parts = Ok <$> loaded_prefix parts.
Proof.
  unfold all_loaded. induction parts as [|[a|e] parts IH]; csimpl.
  - split; [done|constructor].
  - rewrite Forall_cons, IH. split.
    + intros [_ H]. by f_equal.
    + intros [= H]. split; [by eexists|done].
  - split; [|done]. intros [[a Ha] _]%Forall_cons. done.
Qed.

Lemma all_loaded_raise {A} (parts : list (result A)) e :
  Raise e ∈ parts -> ~ all_loaded parts.
Proof.
  intros Hin Hall. unfold all_loaded in Hall.
  destruct (proj1 (Forall_forall _ _) Hall _ Hin) as [a Ha]. done.
Qed.

(** Partitions that have the schema of the writer are written as they
    are, up to the first one that raises. *)
Lemma write_rest_conforming out_path cw tw parts : forall fs fs' r,
  Forall (fun p => forall t, p = Ok t -> same_schema cw tw t = true) parts ->
  write_rest parts out_path cw tw fs = (fs', r) ->
  fs' !! out_path
  = (fun pf => appended pf (concat ((fun t => rows (pdf t)) <$> loaded_prefix parts)))
      <$> fs !! out_path /\
  (r = Ok tt <-> all_loaded parts) /\
  (forall e, r = Raise e -> Raise e ∈ parts).
Proof.
  induction parts as [|[p|e] parts IH]; intros fs fs' r Hc; simpl.
  - intros [= <- <-]. split; [|split; [split; [constructor|done]|done]].
    destruct (fs !! out_path) as [[? ? ?]|]; simpl; [|done].
    unfold appended. simpl. by rewrite app_nil_r.
  - apply Forall_cons in Hc as [Hp Hc]. specialize (Hp p eq_refl).
    rewrite (aligned_same _ _ _ Hp), Hp.
    intros (Hpath & Hr & He)%IH; [|done]. split; [|split].
    + rewrite Hpath. unfold write_table. rewrite lookup_alter_eq.
      destruct (fs !! out_path) as [[? ? ?]|]; simpl; [|done].
      unfold appended. simpl. by rewrite app_assoc.
    + rewrite Hr. unfold all_loaded. rewrite Forall_cons. split; [|by intros [_ ?]].
      intros ?. split; [by eexists|done].
    + intros e0 He0. right. by apply He.
  - intros [= <- <-]. split; [|split].
    + destruct (fs !! out_path) as [[? ? ?]|]; simpl; [|done].
      unfold appended. simpl. by rewrite app_nil_r.
    + split; [done|]. intros H. exfalso. eapply all_loaded_raise; [|exact H]. by left.
    + intros e0 [= <-]. by left.
Qed.

Lemma write_single_conforming out_path parts fs fs' r :
  (forall t0 t, parts !! 0%nat = Some (Ok t0) -> Ok t ∈ parts ->
                same_schema (columns (pdf t0)) (types t0) t = true) ->
  write_single_parquet_from_ddf parts out_path fs = (fs', r) ->
  fs' !! out_path
  = match loaded_prefix parts with
    | [] => fs !! out_path
    | t0 :: ts => Some {| schema := columns (pdf t0);
                          table := concat ((fun t => rows (pdf t)) <$> t0 :: ts);
                          closed := true |}
    end /\
  (r = Ok tt <-> parts <> [] /\ all_loaded parts) /\
  (forall e, r = Raise e ->
     (parts = [] /\ e = RuntimeError "No hay particiones que escribir.") \/ Raise e ∈ parts).
Proof.
  unfold write_single_parquet_from_ddf. destruct parts as [|[t0|e] parts]; simpl.
  - intros _ [= <- <-]. split; [done|]. split; [split; [done|by intros [? _]]|].
    intros e [= <-]. by left.
  - intros Hc. destruct (write_rest parts _ _ _ _) as [fs1 r1] eqn:E. intros [= <- <-].
    apply write_rest_conforming in E as (Hpath & Hr & He).
    + split; [|split].
      * unfold close_writer. rewrite lookup_alter_eq, Hpath. unfold write_table, open_writer.
        by rewrite lookup_alter_eq, lookup_insert_eq.
      * rewrite Hr. unfold all_loaded. rewrite Forall_cons. split.
        -- intros ?. split; [done|]. split; [by eexists|done].
        -- by intros [_ [_ ?]].
      * intros e He'. right. right. by apply He.
    + apply Forall_forall. intros p Hp t ->. apply (Hc t0 t eq_refl). by right.
  - intros _ [= <- <-]. split; [done|]. split.
    + split; [done|]. intros [_ H]. exfalso. eapply all_loaded_raise; [|exact H]. by left.
    + intros e0 [= <-]. right. by left.
Qed.

(** The partitions of a module: the delayed loads with the types of
    their casts. *)
Lemma loaded_prefix_partition fc (ds : list (result DataFrame)) :
  loaded_prefix (partition_of fc <$> ds)
  = (fun df => {| pdf := df; types := loaded_types fc |}) <$> loaded_prefix ds.
Proof. induction ds as [|[d|e] ds IH]; csimpl; [done| |done]. f_equal. exact IH. Qed.

Lemma all_loaded_partition fc (ds : list (result DataFrame)) :
  all_loaded (partition_of fc <$> ds) <-> all_loaded ds.
Proof.
  unfold all_loaded. rewrite Forall_fmap. apply Forall_iff. intros [d|e]; simpl.
  - split; intros _; by eexists.
  - split; intros [? ?]; done.
Qed.

Lemma write_single_loaded out_path fc (ds : list (result DataFrame)) fs fs' r :
  Forall (fun d => forall df, d = Ok df -> columns df = fc) ds ->
  write_single_parquet_from_ddf (partition_of fc <$> ds) out_path fs = (fs', r) ->
  (forall p, p <> out_path -> fs' !! p = fs !! p) /\
  fs' !! out_path
  = match loaded_prefix ds with
    | [] => fs !! out_path
    | _ :: _ => Some {| schema := fc; table := concat (rows <$> loaded_prefix ds);
                        closed := true |}
    end /\
  (r = Ok tt <-> ds <> [] /\ all_loaded ds) /\
  (forall e, r = Raise e ->
     (ds = [] /\ e = RuntimeError "No hay particiones que escribir.") \/ Raise e ∈ ds).
Proof.
  intros Hc Hw. split; [by eapply write_single_other|].
  apply write_single_conforming in Hw as (Hpath & Hr & He).
  - split; [|split].
    + rewrite Hpath, loaded_prefix_partition.
      destruct (loaded_prefix ds) as [|d0 dfs] eqn:El; [done|]. cbn [fmap list_fmap pdf].
      f_equal. f_equal.
      * assert (Hin : Ok d0 ∈ ds).
        { clear -El. revert d0 dfs El. induction ds as [|[d|e] ds IH]; intros d0 dfs; simpl;
            [done| |done]. intros [= -> _]. by left. }
        exact (proj1 (Forall_forall _ _) Hc _ Hin d0 eq_refl).
      * simpl. f_equal. f_equal. by rewrite <- list_fmap_compose.
    + rewrite Hr, all_loaded_partition. split; intros [Hne ?]; (split; [|done]).
      * intros ->. by apply Hne.
      * intros Hnil. apply Hne. by apply fmap_nil_inv in Hnil.
    + intros e [[Hnil ->]|Hin]%He.
      * left. split; [by apply fmap_nil_inv in Hnil|done].
      * right. apply list_elem_of_fmap in Hin as ([d|e'] & Heq & Hin); simpl in Heq; [done|].
        by injection Heq as ->.
  - intros t0 t Hhd Hin. apply same_schema_spec.
    destruct ds as [|[d0|e0] ds]; simpl in Hhd; [done| |done]. injection Hhd as <-. simpl.
    apply list_elem_of_fmap in Hin as ([d|e'] & Heq & Hin); simpl in Heq; [|done].
    injection Heq as ->. simpl.
    rewrite (proj1 (Forall_forall _ _) Hc _ Hin d eq_refl).
    rewrite (proj1 (Forall_forall _ _) Hc (Ok d0) (list_elem_of_here _ _) d0 eq_refl). done.
Qed.
End WriterFacts.

Section LoadFacts.
Lemma columns_foldl_set_col (g : string -> DataFrame -> list pyval) cs : forall df,
  (forall c, c ∈ cs -> c ∈ columns df) ->
  columns (foldl (fun df c => set_col c (g c df) df) df cs) = columns df /\
  nrows (foldl (fun df c => set_col c (g c df) df) df cs) = nrows df.
Proof.
  induction cs as [|c cs IH]; intros df Hin; simpl; [done|].
  assert (Hc : columns (set_col c (g c df) df) = columns df)
    by (apply columns_set_col_in, Hin; by left).
  destruct (IH (set_col c (g c df) df)) as [-> ->].
  - rewrite Hc. intros; apply Hin. by right.
  - by rewrite Hc, nrows_set_col.
Qed.

Lemma load_one_shape fi final_cols df' :
  (forall c, c ∈ META -> c ∈ final_cols) ->
  load_one fi final_cols = Ok df' ->
  columns df' = final_cols /\
  exists df, read_full_csv_robust (fi_file fi) (fi_encoding fi) (fi_delimiter fi) = Ok df /\
             nrows df' = nrows df.
Proof.
  intros Hmeta. unfold load_one.
  destruct (read_full_csv_robust _ _ _) as [df|e]; simpl; [|done].
  destruct (add_meta_cols df _ _) as [df1|e] eqn:E1; simpl; [|done].
  intros [= <-]. unfold conform.
  set (d2 := reindex final_cols (pad_columns final_cols df1)).
  set (d3 := set_col "anio" _ d2).
  set (d4 := set_col "trimestre" _ d3).
  set (d5 := set_col "anio_trimestre" _ d4).
  assert (H3 : columns d3 = final_cols /\ nrows d3 = nrows df1).
  { unfold d3. rewrite columns_set_col_in, nrows_set_col.
    - unfold d2. by rewrite nrows_reindex, nrows_pad_columns.
    - apply Hmeta. by left. }
  assert (H4 : columns d4 = final_cols /\ nrows d4 = nrows df1).
  { unfold d4. rewrite columns_set_col_in, nrows_set_col; [done|].
    rewrite (proj1 H3). apply Hmeta. right; by left. }
  assert (H5 : columns d5 = final_cols /\ nrows d5 = nrows df1).
  { unfold d5. rewrite columns_set_col_in, nrows_set_col; [done|].
    rewrite (proj1 H4). apply Hmeta. right; right; by left. }
  destruct (columns_foldl_set_col (fun c d => astype_string <$> column_values c d)
              (filter (fun c => c ∉ META) (columns d5)) d5) as [Hc Hn].
  { by intros c [_ ?]%list_elem_of_filter. }
  split; [rewrite Hc; apply H5|]. exists df. split; [done|]. rewrite Hn, (proj2 H5).
  unfold add_meta_cols in E1.
  assert (Hm : forall s1 s2, insert_meta df s1 s2 = Ok df1 -> nrows df1 = nrows df).
  { intros s1 s2. unfold insert_meta.
    destruct (insert_col 0 _ _ df) as [a|] eqn:Ea; simpl; [|done].
    destruct (insert_col 1 _ _ a) as [b|] eqn:Eb; simpl; [|done].
    intros Ec. apply nrows_insert_col in Ea, Eb, Ec. congruence. }
  destruct (fi_anio fi), (fi_tri fi); try destruct (derive_year_trim_from_per df);
    by eapply Hm.
Qed.

Lemma load_one_raise fi final_cols e :
  read_full_csv_robust (fi_file fi) (fi_encoding fi) (fi_delimiter fi) = Raise e ->
  load_one fi final_cols = Raise e.
Proof. intros H. unfold load_one. by rewrite H. Qed.
End LoadFacts.

(** ** The rows of a loaded file *)
Section ConformFacts.
Lemma index_of_app_r c l1 l2 :
  c ∉ l1 -> index_of c (l1 ++ l2) = (fun i => (length l1 + i)%nat) <$> index_of c l2.
Proof.
  induction l1 as [|c' l1 IH]; intros Hc; simpl.
  - by destruct (index_of c l2).
  - rewrite decide_False by (intros ->; apply Hc; by left).
    rewrite IH by (intros ?; apply Hc; by right).
    by destruct (index_of c l2).
Qed.

Lemma index_of_lt c l i : index_of c l = Some i -> (i < length l)%nat.
Proof.
  revert i. induction l as [|c' l IH]; intros i; simpl; [done|].
  destruct (decide (c' = c)); [intros [= <-]; lia|].
  destruct (index_of c l) as [j|]; [|done]. intros [= <-].
  specialize (IH j eq_refl). lia.
Qed.


Lemma cell_app_l (r : list pyval) x i : (i < length r)%nat -> cell (r ++ x) i = cell r i.
Proof. intros H. unfold cell. by rewrite lookup_app_l. Qed.


Lemma set_col_new_rows name cols (l0 : list (list pyval)) (g : list pyval -> list pyval)
    (h : list pyval -> pyval) :
  index_of name cols = None ->
  set_col name (h <$> l0) {| columns := cols; rows := g <$> l0 |}
  = {| columns := cols ++ [name]; rows := (fun r0 => g r0 ++ [h r0]) <$> l0 |}.
Proof.
  intros Hj. unfold set_col. simpl. rewrite Hj. f_equal.
  apply list_eq. intros i. rewrite list_lookup_imap, !list_lookup_fmap.
  destruct (l0 !! i) as [r|] eqn:E; simpl; [|done].
  unfold cell. by rewrite list_lookup_fmap, E.
Qed.

Lemma fmap_ext_in {B C} (f g : B -> C) (l : list B) :
  (forall x, x ∈ l -> f x = g x) -> f <$> l = g <$> l.
Proof.
  intros H. apply list_fmap_ext. intros i x Hx. apply H. by eapply list_elem_of_lookup_2.
Qed.

(** Padding with null columns changes no cell that [reindex] reads. *)
Lemma reindex_pad fc cs : forall cols (l0 : list (list pyval)) (g : list pyval -> list pyval),
  (forall r0, r0 ∈ l0 -> length (g r0) = length cols) ->
  reindex fc (pad_columns cs {| columns := cols; rows := g <$> l0 |})
  = reindex fc {| columns := cols; rows := g <$> l0 |}.
Proof.
  unfold pad_columns. induction cs as [|c cs IH]; intros cols l0 g Hwf; simpl; [done|].
  destruct (decide (c ∈ cols)) as [Hc|Hc]; [by apply IH|].
  unfold nrows. simpl. rewrite length_fmap, (replicate_as_fmap PyNone l0).
  rewrite (set_col_new_rows c cols l0 g (fun _ => PyNone))
    by (by apply index_of_None).
  rewrite IH.
  - unfold reindex. simpl. f_equal. rewrite <- !list_fmap_compose.
    apply fmap_ext_in. intros r0 Hr0. simpl. apply list_fmap_ext. intros _ c0 _.
    unfold lookup_cell.
    destruct (index_of c0 cols) as [i|] eqn:Ei.
    + rewrite (index_of_app_l _ _ _ _ Ei). apply cell_app_l.
      rewrite (Hwf r0 Hr0). by eapply index_of_lt.
    + rewrite index_of_app_r by (by apply index_of_None). simpl.
      destruct (decide (c = c0)); simpl; [|done].
      unfold cell. rewrite lookup_app_r by (rewrite (Hwf r0 Hr0); lia).
      by rewrite (Hwf r0 Hr0), Nat.add_0_r, Nat.sub_diag.
  - intros r0 Hr0. rewrite length_app, (Hwf r0 Hr0), length_app. done.
Qed.


Lemma astype_string_idem v : astype_string (astype_string v) = astype_string v.
Proof. by destruct v. Qed.




(** [add_meta_cols] as the three inserts of two series computed row by
    row, whose cells are those of [row_meta]. *)
Lemma add_meta_cols_series fi df :
  exists h1 h2 : list pyval -> pyval,
    add_meta_cols df (fi_anio fi) (fi_tri fi) = insert_meta df (h1 <$> rows df) (h2 <$> rows df) /\
    forall r, [to_int64 (h1 r); to_int64 (h2 r);
               year_quarter_label (to_int64 (h1 r)) (to_int64 (h2 r))] = row_meta fi df r.
Proof.
  assert (Hper : exists h1 h2 : list pyval -> pyval,
             (let '(a, t) := derive_year_trim_from_per df in insert_meta df a t)
             = insert_meta df (h1 <$> rows df) (h2 <$> rows df) /\
             forall r, [to_int64 (h1 r); to_int64 (h2 r);
                        year_quarter_label (to_int64 (h1 r)) (to_int64 (h2 r))]
                       = match find_col_ci (columns df) "per" with
                         | Some per_col =>
                             let '(y, q) := period_of_digits
                                              (per_digits (lookup_cell (columns df) r per_col)) in
                             meta_cells y q
                         | None => [PyNone; PyNone; PyNone]
                         end).
  { unfold derive_year_trim_from_per.
    destruct (find_col_ci (columns df) "per") as [per_col|] eqn:Hper.
    - assert (Hin : per_col ∈ columns df).
      { unfold find_col_ci in Hper. apply find_some in Hper as [Hin _].
        by apply list_elem_of_In. }
      apply index_of_is_Some in Hin as [i Hi].
      exists (fun r => add_int 2000 (to_numeric_str (String.substring 1 2 (per_digits (cell r i))))),
             (fun r => to_numeric_str (String.substring 0 1 (per_digits (cell r i)))).
      split.
      + unfold column_values. rewrite Hi. by rewrite <- !list_fmap_compose.
      + intros r. unfold lookup_cell. rewrite Hi.
        destruct (period_slices (cell r i)) as [Eq Ey]. rewrite Eq, Ey.
        by destruct (period_of_digits (per_digits (cell r i))).
    - exists (fun _ => PyNone), (fun _ => PyNone). split; [|done].
      unfold nrows. by rewrite !replicate_as_fmap. }
  unfold add_meta_cols, row_meta.
  destruct (fi_anio fi) as [a|], (fi_tri fi) as [t|]; try exact Hper.
  exists (fun _ => PyInt a), (fun _ => PyInt t). split; [|done].
  unfold nrows. by rewrite !replicate_as_fmap.
Qed.

End ConformFacts.

(** ** Pass 1 and the schema of a module *)
Section Pass1Facts.
Lemma scan_file_info st f :
  info (scan_file st f) = info st ++ from_option (fun fi => [fi]) [] (file_info_of f).
Proof.
  unfold scan_file, file_info_of.
  destruct (detect_module_from_filename (fname f)); simpl; [|by rewrite app_nil_r].
  destruct (headers_only f) as [[[cols enc] delim]|e]; simpl; [|by rewrite app_nil_r].
  by destruct (parse_year_trim_from_name (fname f)).
Qed.

Lemma pass1_info_gen fs : forall st,
  info (foldl scan_file st fs) = info st ++ omap file_info_of fs.
Proof.
  induction fs as [|f fs IH]; intros st; simpl; [by rewrite app_nil_r|].
  rewrite IH, scan_file_info. rewrite <- app_assoc. f_equal.
  by destruct (file_info_of f).
Qed.

Lemma pass1_info fs : info (pass1 fs) = omap file_info_of fs.
Proof. unfold pass1. by rewrite pass1_info_gen. Qed.

Lemma detect_in_MODULES name m : detect_module_from_filename name = Some m -> m ∈ MODULES.
Proof.
  unfold detect_module_from_filename.
  destruct (find _ MODULES) as [tag|] eqn:E.
  - intros [= <-]. apply find_some in E as [Hin _]. by apply list_elem_of_In.
  - destruct (contains "COE1" _); [intros [= <-]; by do 3 right; left|].
    destruct (contains "COE2" _); [intros [= <-]; by do 4 right; left|done].
Qed.

Lemma file_info_of_Some f fi :
  file_info_of f = Some fi ->
  fi_file fi = f /\ detect_module_from_filename (fname f) = Some (fi_mod fi) /\
  headers_only f = Ok (fi_cols fi, fi_encoding fi, fi_delimiter fi).
Proof.
  unfold file_info_of.
  destruct (detect_module_from_filename (fname f)) as [m|]; [|done].
  destruct (headers_only f) as [[[cols enc] delim]|e]; [|done].
  destruct (parse_year_trim_from_name (fname f)). by intros [= <-].
Qed.

Lemma union_inv_init : union_inv scan_init.
Proof.
  split.
  - intros m U H c.
    change ((list_to_map ((fun m => (m, ∅ : gset string)) <$> MODULES)
               : gmap string (gset string)) !! m = Some U) in H.
    apply elem_of_list_to_map_2, list_elem_of_fmap in H as (m' & [= -> ->] & _).
    split; [by intros ?%not_elem_of_empty|]. by intros (fi & ?%elem_of_nil & _).
  - by intros fi ?%elem_of_nil.
Qed.

Lemma union_inv_step st f : union_inv st -> union_inv (scan_file st f).
Proof.
  intros [Hu Hi]. unfold scan_file.
  destruct (detect_module_from_filename (fname f)) as [m0|]; [|done].
  destruct (headers_only f) as [[[cols enc] delim]|e]; [|done].
  destruct (parse_year_trim_from_name (fname f)) as [a t].
  split; simpl.
  - intros m U. destruct (decide (m = m0)) as [->|Hne].
    + rewrite lookup_insert_eq. intros [= <-] c.
      rewrite elem_of_union, elem_of_list_to_set. split.
      * intros [Hc|Hc].
        -- destruct (module_to_union st !! m0) as [U0|] eqn:E; simpl in Hc;
             [|by apply not_elem_of_empty in Hc].
           apply (Hu m0 U0 E) in Hc as (fi & ? & ? & ?). exists fi.
           split; [apply elem_of_app; by left|done].
        -- eexists. split; [apply elem_of_app; right; by left|done].
      * intros (fi & [Hin|Hin]%elem_of_app & Hm & Hc);
          [|apply list_elem_of_singleton in Hin; subst fi; by right].
        left. destruct (Hi fi Hin) as [U0 E]. rewrite Hm in E. rewrite E. simpl.
        apply (Hu m0 U0 E). by exists fi.
    + rewrite lookup_insert_ne by done. intros E c. rewrite (Hu m U E c). split.
      * intros (fi & ? & ? & ?). exists fi. split; [apply elem_of_app; by left|done].
      * intros (fi & [Hin|Hin]%elem_of_app & Hm & Hc); [by exists fi|].
        apply list_elem_of_singleton in Hin. subst fi. simpl in Hm. congruence.
  - intros fi [Hin|Hin]%elem_of_app.
    + destruct (decide (fi_mod fi = m0)) as [->|Hne];
        [by rewrite lookup_insert_eq|rewrite lookup_insert_ne by done; by apply Hi].
    + apply list_elem_of_singleton in Hin. subst fi. simpl. by rewrite lookup_insert_eq.
Qed.

Lemma union_inv_pass1 fs : union_inv (pass1 fs).
Proof.
  unfold pass1. generalize union_inv_init. generalize scan_init.
  induction fs as [|f fs IH]; intros st H; simpl; [done|]. by apply IH, union_inv_step.
Qed.
End Pass1Facts.

Section SchemaFacts.
Variable list_of_set : gset string -> list string.
Hypothesis list_of_set_perm : forall X, list_of_set X ≡ₚ elements X.

Lemma final_cols_split U : final_cols_of list_of_set U = META ++ schema_rest list_of_set U.
Proof. done. Qed.

Lemma schema_rest_elem U c : c ∈ schema_rest list_of_set U <-> (c ∉ META) /\ (c ∈ U).
Proof.
  unfold schema_rest. rewrite list_elem_of_filter.
  by rewrite (sorted_perm String.ltb Py.lower), list_of_set_perm, elem_of_elements.
Qed.

Lemma schema_rest_NoDup U : NoDup (schema_rest list_of_set U).
Proof.
  unfold schema_rest. apply NoDup_filter.
  rewrite (sorted_perm String.ltb Py.lower), list_of_set_perm. apply NoDup_elements.
Qed.

Lemma schema_rest_sorted U : lower_sorted (schema_rest list_of_set U).
Proof.
  unfold schema_rest, lower_sorted. apply filter_strongly_sorted.
  apply (sorted_key_sorted String.ltb Py.lower string_ltb_asym string_geb_trans).
Qed.

Lemma final_cols_NoDup U : NoDup (final_cols_of list_of_set U).
Proof.
  rewrite final_cols_split. apply NoDup_app. split; [|split].
  - assert (H : bool_decide (NoDup META) = true) by (by vm_compute).
    by apply bool_decide_eq_true in H.
  - intros c Hc [Hn _]%schema_rest_elem. done.
  - apply schema_rest_NoDup.
Qed.

(** When no two names of the union differ only in case, the schema does
    not depend on the order of enumeration. *)
Lemma final_cols_order U (list_of_set' : gset string -> list string) :
  (forall X, list_of_set' X ≡ₚ elements X) ->
  (forall a b, a ∈ U -> b ∈ U -> Py.lower a = Py.lower b -> a = b) ->
  final_cols_of list_of_set' U = final_cols_of list_of_set U.
Proof.
  intros Hperm' Hinj. unfold final_cols_of. f_equal. f_equal.
  apply (StronglySorted_unique_strong (Py.key_le String.ltb Py.lower)).
  - intros x1 x2 Hx1 Hx2 H12 H21. unfold Py.key_le in *.
    rewrite (sorted_perm String.ltb Py.lower), Hperm', elem_of_elements in Hx1.
    rewrite (sorted_perm String.ltb Py.lower), list_of_set_perm, elem_of_elements in Hx2.
    apply Hinj; [done|done|]. by apply string_ltb_antisym.
  - apply (sorted_key_sorted String.ltb Py.lower string_ltb_asym string_geb_trans).
  - apply (sorted_key_sorted String.ltb Py.lower string_ltb_asym string_geb_trans).
  - by rewrite !(sorted_perm String.ltb Py.lower), Hperm', list_of_set_perm.
Qed.

Lemma final_cols_meta U c : c ∈ META -> c ∈ final_cols_of list_of_set U.
Proof. intros H. rewrite final_cols_split. apply elem_of_app. by left. Qed.

Lemma final_cols_elem U c : c ∈ U -> c ∈ final_cols_of list_of_set U.
Proof.
  intros H. rewrite final_cols_split, elem_of_app.
  destruct (decide (c ∈ META)); [by left|]. right. by apply schema_rest_elem.
Qed.
End SchemaFacts.

(** ** The loop over the modules *)
Section BuildFacts.
Variable list_of_set : gset string -> list string.
Hypothesis list_of_set_perm : forall X, list_of_set X ≡ₚ elements X.

Implicit Types (file_info : list FileInfo) (mu : gmap string (gset string)) (w : World).

Lemma sequence_ok (dfs : list DataFrame) {B}
    (xs : list B) (g : B -> result DataFrame) :
  g <$> xs = Ok <$> dfs -> Forall2 (fun x d => g x = Ok d) xs dfs.
Proof.
  revert dfs. induction xs as [|x xs IH]; intros [|d dfs]; simpl; try done.
  intros [= Hx Hxs]. constructor; [done|by apply IH].
Qed.

Lemma delayed_columns (fis : list FileInfo) U :
  Forall (fun d => forall df, d = Ok df -> columns df = final_cols_of list_of_set U)
         ((fun fi => load_one fi (final_cols_of list_of_set U)) <$> fis).
Proof.
  apply Forall_fmap, Forall_forall. intros fi _ df Hd. simpl in Hd.
  apply load_one_shape in Hd as [? _]; [done|]. apply final_cols_meta.
Qed.

Lemma delayed_frames_Some file_info mu m U :
  mu !! m = Some U ->
  delayed_frames list_of_set file_info mu m
  = (fun fi => load_one fi (final_cols_of list_of_set U))
      <$> filter (fun fi => fi_mod fi = m) file_info.
Proof. intros H. unfold delayed_frames. by rewrite H. Qed.

Lemma delayed_frames_nil file_info mu m :
  filter (fun fi => fi_mod fi = m) file_info = [] ->
  delayed_frames list_of_set file_info mu m = [].
Proof. intros H. unfold delayed_frames. by rewrite H. Qed.

(** One turn of the loop over the modules: the file of the module holds
    the tables loaded before the first load that raises, and the turn
    completes when every load does. *)
Lemma build_module_spec file_info mu w w' r m :
  (filter (fun fi => fi_mod fi = m) file_info <> [] -> is_Some (mu !! m)) ->
  build_module list_of_set file_info mu w m = (w', r) ->
  (forall p, p <> out_path_of m -> parquet w' !! p = parquet w !! p) /\
  parquet w' !! out_path_of m
  = match loaded_prefix (delayed_frames list_of_set file_info mu m) with
    | [] => parquet w !! out_path_of m
    | _ :: _ =>
        Some {| schema := final_cols_of list_of_set (default ∅ (mu !! m));
                table := concat (rows <$> loaded_prefix
                                   (delayed_frames list_of_set file_info mu m));
                closed := true |}
    end /\
  (r = Ok tt <-> all_loaded (delayed_frames list_of_set file_info mu m)) /\
  (forall e, r = Raise e -> Raise e ∈ delayed_frames list_of_set file_info mu m) /\
  (~ all_loaded (delayed_frames list_of_set file_info mu m) -> reports w' = reports w).
Proof.
  intros Hmu. unfold build_module.
  destruct (filter (fun fi => fi_mod fi = m) file_info) as [|fi0 fis] eqn:Ef.
  { rewrite (delayed_frames_nil _ _ _ Ef). intros [= <- <-]. split; [done|]. split; [done|].
    split; [split; [constructor|done]|]. split; [done|]. intros H. exfalso. apply H. constructor. }
  destruct (Hmu ltac:(done)) as [U HU]. rewrite HU.
  rewrite (delayed_frames_Some _ _ _ _ HU), Ef. cbn [default].
  destruct (write_single_parquet_from_ddf _ _ _) as [fs r0] eqn:Ew.
  apply write_single_loaded in Ew as (Hother & Hpath & Hr & He); [|apply delayed_columns].
  assert (Hres : (w', r) = ({| parquet := fs; reports := reports w' |}, r0) /\
                 (r0 <> Ok tt -> reports w' = reports w) ->
          (forall p, p <> out_path_of m -> parquet w' !! p = parquet w !! p) /\
          parquet w' !! out_path_of m
          = match loaded_prefix ((fun fi => load_one fi (final_cols_of list_of_set U))
                                   <$> fi0 :: fis) with
            | [] => parquet w !! out_path_of m
            | _ :: _ =>
                Some {| schema := final_cols_of list_of_set U;
                        table := concat (rows <$> loaded_prefix
                                   ((fun fi => load_one fi (final_cols_of list_of_set U))
                                      <$> fi0 :: fis));
                        closed := true |}
            end /\
          (r = Ok tt <-> all_loaded ((fun fi => load_one fi (final_cols_of list_of_set U))
                                       <$> fi0 :: fis)) /\
          (forall e, r = Raise e ->
             Raise e ∈ (fun fi => load_one fi (final_cols_of list_of_set U)) <$> fi0 :: fis) /\
          (~ all_loaded ((fun fi => load_one fi (final_cols_of list_of_set U)) <$> fi0 :: fis) ->
           reports w' = reports w)).
  { intros [[= Hw ->] Hrep]. assert (Hp : parquet w' = fs) by (by rewrite Hw). rewrite Hp.
    split; [done|]. split; [done|]. split.
    - rewrite Hr. split; [by intros [_ ?]|]. intros ?. split; [done|done].
    - split.
      + intros e He0. by destruct (He e He0) as [[? _]|?].
      + intros Hn. apply Hrep. intros ->. apply Hn. by apply Hr. }
  destruct r0 as [[]|e]; intros [= <- <-]; apply Hres; (split; [done|]); simpl; [|done].
  intros H. by destruct H.
Qed.

(** A module that [build_module] completes: nothing to do, or its file
    is written whole. *)
Lemma build_module_ok file_info mu w w' m :
  build_module list_of_set file_info mu w m = (w', Ok tt) ->
  (forall p, p <> out_path_of m -> parquet w' !! p = parquet w !! p) /\
  (filter (fun fi => fi_mod fi = m) file_info <> [] ->
   exists U dfs,
     mu !! m = Some U /\
     Forall2 (fun fi d => load_one fi (final_cols_of list_of_set U) = Ok d)
             (filter (fun fi => fi_mod fi = m) file_info) dfs /\
     parquet w' !! out_path_of m
     = Some {| schema := final_cols_of list_of_set U;
               table := concat (rows <$> dfs);
               closed := true |}).
Proof.
  intros Hb.
  assert (Hmu : filter (fun fi => fi_mod fi = m) file_info <> [] -> is_Some (mu !! m)).
  { intros Hne. unfold build_module in Hb.
    destruct (filter (fun fi => fi_mod fi = m) file_info); [done|].
    by destruct (mu !! m). }
  destruct (build_module_spec file_info mu w w' (Ok tt) m Hmu Hb) as (Hother & Hpath & Hr & _).
  split; [done|]. intros Hne. destruct (Hmu Hne) as [U HU]. exists U.
  assert (Hall : all_loaded (delayed_frames list_of_set file_info mu m)) by (by apply Hr).
  apply all_loaded_prefix in Hall.
  exists (loaded_prefix (delayed_frames list_of_set file_info mu m)).
  split; [done|]. split.
  - apply sequence_ok. by rewrite <- (delayed_frames_Some file_info mu m U HU).
  - rewrite Hpath, HU. cbn [default].
    destruct (loaded_prefix (delayed_frames list_of_set file_info mu m)) as [|d0 dfs] eqn:El;
      [|done].
    exfalso. rewrite (delayed_frames_Some file_info mu m U HU) in Hall.
    destruct (filter (fun fi => fi_mod fi = m) file_info); [done|]. by csimpl in Hall.
Qed.

Lemma build_modules_ok mods file_info mu : forall w w',
  NoDup (out_path_of <$> mods) ->
  build_modules list_of_set mods file_info mu w = (w', Ok tt) ->
  forall m, m ∈ mods -> filter (fun fi => fi_mod fi = m) file_info <> [] ->
  exists U dfs,
    mu !! m = Some U /\
    Forall2 (fun fi d => load_one fi (final_cols_of list_of_set U) = Ok d)
            (filter (fun fi => fi_mod fi = m) file_info) dfs /\
    parquet w' !! out_path_of m
    = Some {| schema := final_cols_of list_of_set U;
              table := concat (rows <$> dfs);
              closed := true |}.
Proof.
  induction mods as [|m0 mods IH]; intros w w' Hnd Hb m Hin Hne; simpl in *.
  - by apply elem_of_nil in Hin.
  - apply NoDup_cons in Hnd as [Hfresh Hnd].
    destruct (build_module list_of_set file_info mu w m0) as [w1 [[]|e]] eqn:E; [|done].
    apply build_module_ok in E as [Hother Hm0].
    destruct (decide (m ∈ mods)) as [Hm|Hm].
    + by apply (IH w1 w' Hnd Hb m Hm).
    + apply elem_of_cons in Hin as [->|?]; [|done].
      destruct (Hm0 Hne) as (U & dfs & HU & Hl & Hp). exists U, dfs.
      split; [done|]. split; [done|]. rewrite <- Hp.
      clear -Hb Hfresh. revert w1 Hb.
      induction mods as [|m1 mods IH]; intros w1 Hb; simpl in *; [by injection Hb as ->|].
      destruct (build_module list_of_set file_info mu w1 m1) as [w2 [[]|e]] eqn:E; [|done].
      apply build_module_ok in E as [Hother _].
      rewrite (IH (fun H => Hfresh (list_elem_of_further _ _ _ H)) w2 Hb).
      apply Hother. intros Heq. apply Hfresh. rewrite Heq. by left.
Qed.

Lemma out_paths_NoDup : NoDup (out_path_of <$> MODULES).
Proof.
  assert (H : bool_decide (NoDup (out_path_of <$> MODULES)) = true) by (by vm_compute).
  by apply bool_decide_eq_true in H.
Qed.
End BuildFacts.

Section AbortFacts.
Variable list_of_set : gset string -> list string.

Implicit Types (fs : gmap string ParquetFile) (w : World).
Implicit Types (file_info : list FileInfo) (mu : gmap string (gset string)).

Lemma build_module_frame file_info mu w w' r m :
  build_module list_of_set file_info mu w m = (w', r) ->
  forall p, p <> out_path_of m -> parquet w' !! p = parquet w !! p.
Proof.
  unfold build_module.
  destruct (filter (fun fi => fi_mod fi = m) file_info) as [|fi0 fis]; [by intros [= <- <-]|].
  destruct (mu !! m) as [U|]; [|by intros [= <- <-]].
  destruct (write_single_parquet_from_ddf _ _ _) as [fs [[]|e]] eqn:Ew;
    intros [= <- <-]; simpl; by eapply write_single_other.
Qed.

Lemma build_module_reports_frame file_info mu w w' r m :
  build_module list_of_set file_info mu w m = (w', r) ->
  forall q, q <> cov_csv_of m -> reports w' !! q = reports w !! q.
Proof.
  unfold build_module.
  destruct (filter (fun fi => fi_mod fi = m) file_info) as [|fi0 fis]; [by intros [= <- <-]|].
  destruct (mu !! m) as [U|]; [|by intros [= <- <-]].
  destruct (write_single_parquet_from_ddf _ _ _) as [fs [[]|e]];
    intros [= <- <-] q Hq; simpl; [by rewrite lookup_insert_ne|done].
Qed.

Lemma build_modules_other mods file_info mu : forall w w' r,
  build_modules list_of_set mods file_info mu w = (w', r) ->
  (forall p, p ∉ out_path_of <$> mods -> parquet w' !! p = parquet w !! p) /\
  (forall q, q ∉ cov_csv_of <$> mods -> reports w' !! q = reports w !! q).
Proof.
  induction mods as [|m0 mods IH]; intros w w' r; simpl.
  - by intros [= <- <-].
  - destruct (build_module list_of_set file_info mu w m0) as [w1 r1] eqn:E.
    pose proof (build_module_frame _ _ _ _ _ _ E) as Hp1.
    pose proof (build_module_reports_frame _ _ _ _ _ _ E) as Hq1.
    assert (Hgo : forall w2, (forall p, p ∉ out_path_of <$> mods ->
                                 parquet w2 !! p = parquet w1 !! p) /\
                             (forall q, q ∉ cov_csv_of <$> mods ->
                                 reports w2 !! q = reports w1 !! q) ->
              (forall p, p ∉ out_path_of m0 :: (out_path_of <$> mods) ->
                 parquet w2 !! p = parquet w !! p) /\
              (forall q, q ∉ cov_csv_of m0 :: (cov_csv_of <$> mods) ->
                 reports w2 !! q = reports w !! q)).
    { intros w2 [Hp Hq]. split.
      - intros p Hn. apply not_elem_of_cons in Hn as [? ?]. rewrite Hp by done. by apply Hp1.
      - intros q Hn. apply not_elem_of_cons in Hn as [? ?]. rewrite Hq by done. by apply Hq1. }
    destruct r1 as [[]|e].
    + intros Hb. apply Hgo. by eapply IH.
    + intros [= <- <-]. by apply Hgo.
Qed.

Lemma loaded_prefix_app_raise {A} (xs ys : list (result A)) e :
  loaded_prefix (xs ++ Raise e :: ys) = loaded_prefix xs.
Proof. induction xs as [|[a|e0] xs IH]; csimpl; [done| |done]. f_equal. exact IH. Qed.

(** The loop over the modules, module by module: a module is reached
    when every load of the modules before it completes; its file then
    holds the tables loaded before its first load that raises. A module
    that is not reached is left as it was. *)
Lemma build_modules_spec mods file_info mu : forall w w' r,
  NoDup (out_path_of <$> mods) ->
  (forall m, filter (fun fi => fi_mod fi = m) file_info <> [] -> is_Some (mu !! m)) ->
  build_modules list_of_set mods file_info mu w = (w', r) ->
  (r = Ok tt <->
   forall m, m ∈ mods -> all_loaded (delayed_frames list_of_set file_info mu m)) /\
  (forall e, r = Raise e ->
     exists m, m ∈ mods /\ Raise e ∈ delayed_frames list_of_set file_info mu m) /\
  forall before m after, mods = before ++ m :: after ->
    ((forall m', m' ∈ before -> all_loaded (delayed_frames list_of_set file_info mu m')) ->
     parquet w' !! out_path_of m
     = match loaded_prefix (delayed_frames list_of_set file_info mu m) with
       | [] => parquet w !! out_path_of m
       | _ :: _ =>
           Some {| schema := final_cols_of list_of_set (default ∅ (mu !! m));
                   table := concat (rows <$> loaded_prefix
                                      (delayed_frames list_of_set file_info mu m));
                   closed := true |}
       end) /\
    ((exists m', m' ∈ before /\
                 ~ all_loaded (delayed_frames list_of_set file_info mu m')) ->
     parquet w' !! out_path_of m = parquet w !! out_path_of m).
Proof.
  intros w w' r Hnd Hmu. revert w w' r Hnd.
  induction mods as [|m0 mods IH]; intros w w' r Hnd; simpl.
  - intros [= <- <-]. split; [split; [by intros _ m ?%elem_of_nil|done]|]. split; [done|].
    intros [|? ?] m after; done.
  - rewrite fmap_cons in Hnd. apply NoDup_cons in Hnd as [Hfresh Hnd].
    destruct (build_module list_of_set file_info mu w m0) as [w1 r1] eqn:E.
    destruct (build_module_spec list_of_set file_info mu w w1 r1 m0 (Hmu m0) E)
      as (Hother & Hpath & Hok & Hraise & _).
    destruct r1 as [[]|e].
    + intros Hb. destruct (IH w1 w' r Hnd Hb) as (Hr & He & Hmods).
      destruct (build_modules_other mods file_info mu w1 w' r Hb) as [Hfr _].
      split; [|split].
      * rewrite Hr. split.
        -- intros H m [->|Hm]%elem_of_cons; [by apply Hok|by apply H].
        -- intros H m Hm. apply H. by right.
      * intros e0 He0. destruct (He e0 He0) as (m & Hm & Hin). exists m. split; [by right|done].
      * intros [|b before] m after Heq; simplify_eq/=.
        -- split; [|by intros (? & ?%elem_of_nil & _)]. intros _.
           rewrite (Hfr (out_path_of m)) by done. exact Hpath.
        -- assert (Hne : out_path_of m <> out_path_of b).
           { intros Heq. apply Hfresh. rewrite <- Heq. rewrite fmap_app, fmap_cons.
             apply elem_of_app. right. by left. }
           destruct (Hmods before m after eq_refl) as [Hreach Hnot]. split.
           ++ intros Hall. rewrite Hreach by (intros m' Hm'; apply Hall; by right).
              by rewrite (Hother _ Hne).
           ++ intros (m' & [->|Hm']%elem_of_cons & Hn).
              ** exfalso. apply Hn. by apply Hok.
              ** rewrite Hnot by (by exists m'). by apply Hother.
    + intros [= <- <-]. split; [|split].
      * split; [done|]. intros H. assert (Hc : Raise e = Ok tt); [|done].
        apply Hok, H. by left.
      * intros e0 [= <-]. exists m0. split; [by left|]. by apply Hraise.
      * intros [|b before] m after Heq; simplify_eq/=.
        -- split; [by intros _|by intros (? & ?%elem_of_nil & _)].
        -- assert (Hne : out_path_of m <> out_path_of b).
           { intros Heq. apply Hfresh. rewrite <- Heq. rewrite fmap_app, fmap_cons.
             apply elem_of_app. right. by left. }
           split.
           ++ intros Hall. exfalso. assert (Hc : Raise e = Ok tt); [|done].
              apply Hok, Hall. by left.
           ++ intros _. by apply Hother.
Qed.

(** No report is written for a module whose loads do not all complete,
    nor for a module after it. *)
Lemma build_modules_reports_kept mods file_info mu : forall w w' r,
  NoDup (cov_csv_of <$> mods) ->
  (forall m, filter (fun fi => fi_mod fi = m) file_info <> [] -> is_Some (mu !! m)) ->
  build_modules list_of_set mods file_info mu w = (w', r) ->
  forall before m after, mods = before ++ m :: after ->
    (exists m', m' ∈ before ++ [m] /\
                ~ all_loaded (delayed_frames list_of_set file_info mu m')) ->
    reports w' !! cov_csv_of m = reports w !! cov_csv_of m.
Proof.
  intros w w' r Hnd Hmu. revert w w' r Hnd.
  induction mods as [|m0 mods IH]; intros w w' r Hnd; simpl.
  - intros _ [|? ?] m after; done.
  - rewrite fmap_cons in Hnd. apply NoDup_cons in Hnd as [Hfresh Hnd].
    destruct (build_module list_of_set file_info mu w m0) as [w1 r1] eqn:E.
    destruct (build_module_spec list_of_set file_info mu w w1 r1 m0 (Hmu m0) E)
      as (_ & _ & Hok & _ & Hrep).
    pose proof (build_module_reports_frame _ _ _ _ _ _ E) as Hq1.
    destruct r1 as [[]|e].
    + intros Hb [|b before] m after Heq (m' & Hm' & Hn); simplify_eq/=.
      * apply list_elem_of_singleton in Hm' as ->. exfalso. by apply Hn, Hok.
      * apply elem_of_cons in Hm' as [->|Hm']; [exfalso; by apply Hn, Hok|].
        rewrite (IH w1 w' r Hnd Hb before m after eq_refl) by (by exists m').
        apply Hq1. intros Heq. apply Hfresh. rewrite <- Heq, fmap_app, fmap_cons.
        apply elem_of_app. right. by left.
    + intros [= <- <-] before m after Heq _.
      rewrite Hrep; [done|]. intros H. assert (Hc : Raise e = Ok tt); [|done]. by apply Hok.
Qed.

Lemma cov_paths_NoDup : NoDup (cov_csv_of <$> MODULES).
Proof.
  assert (H : bool_decide (NoDup (cov_csv_of <$> MODULES)) = true) by (by vm_compute).
  by apply bool_decide_eq_true in H.
Qed.
End AbortFacts.

(** ** The run: claims C1, C2 and C5 *)
Section RunFacts.
Variable list_of_set : gset string -> list string.

Lemma info_file fs fi :
  fi ∈ info (pass1 fs) -> exists f, f ∈ fs /\ file_info_of f = Some fi.
Proof. rewrite pass1_info. by intros ?%list_elem_of_omap. Qed.

Lemma info_mod_in_MODULES fs fi : fi ∈ info (pass1 fs) -> fi_mod fi ∈ MODULES.
Proof.
  intros (f & _ & (_ & Hd & _)%file_info_of_Some)%info_file.
  by eapply detect_in_MODULES.
Qed.

(** What a completed run leaves for a module that has a scanned file. *)
Lemma main_ok fs w w' lg m :
  main list_of_set fs w = (w', lg, Ok tt) ->
  (exists fi, fi ∈ info (pass1 fs) /\ fi_mod fi = m) ->
  exists U dfs,
    module_to_union (pass1 fs) !! m = Some U /\
    Forall2 (fun fi d => load_one fi (final_cols_of list_of_set U) = Ok d)
            (filter (fun fi => fi_mod fi = m) (info (pass1 fs))) dfs /\
    parquet w' !! out_path_of m
    = Some {| schema := final_cols_of list_of_set U;
              table := concat (rows <$> dfs);
              closed := true |}.
Proof.
  unfold main. destruct fs as [|f0 fs0]; [done|].
  destruct (build_with_dask _ _ _ _) as [w1 r] eqn:E. intros [= <- <- ->] (fi & Hin & Hm).
  apply (build_modules_ok list_of_set MODULES _ _ w w1 out_paths_NoDup E).
  - rewrite <- Hm. by eapply info_mod_in_MODULES.
  - intros Hnil. assert (H : fi ∈ filter (fun fi => fi_mod fi = m) (info (pass1 (f0 :: fs0))))
      by (by apply list_elem_of_filter).
    rewrite Hnil in H. by apply elem_of_nil in H.
Qed.

Lemma read_full_fails f enc delim :
  all_stages_fail f enc delim -> exists e, read_full_csv_robust f enc delim = Raise e.
Proof.
  intros ((e1 & H1) & (e2 & H2) & H3 & (e4 & H4)). unfold read_full_csv_robust.
  rewrite H1, H2, H4.
  assert (Hn : read_alternates f delim ALTERNATES = None).
  { generalize H3. generalize ALTERNATES. clear. intros l. induction l as [|enc2 l IH]; intros H;
      simpl; [done|].
    destruct (H enc2 (list_elem_of_here _ _)) as [e ->]. apply IH. intros; apply H. by right. }
  rewrite Hn. exists e4. by destruct e2.
Qed.

Lemma rows_of_module m fc fs : forall dfs,
  (forall c, c ∈ META -> c ∈ fc) ->
  Forall2 (fun fi d => load_one fi fc = Ok d)
          (filter (fun fi => fi_mod fi = m) (omap file_info_of fs)) dfs ->
  sum_list (nrows <$> dfs) = module_rows m fs.
Proof.
  intros dfs Hmeta. revert dfs. unfold module_rows.
  induction fs as [|f fs IH]; intros dfs; csimpl.
  - rewrite filter_nil. by intros ->%Forall2_nil_inv_l.
  - unfold loaded_rows at 1.
    destruct (file_info_of f) as [fi|] eqn:Ef; csimpl.
    + destruct (file_info_of_Some f fi Ef) as (Hf & Hd & _).
      rewrite filter_cons. destruct (decide (fi_mod fi = m)) as [Hm|Hm].
      * intros (d & dfs' & Hd0 & Hrest & ->)%Forall2_cons_inv_l. csimpl.
        rewrite (IH dfs' Hrest), decide_True by congruence.
        apply load_one_shape in Hd0 as (_ & df & Hread & ->); [|done].
        rewrite Hf in Hread. by rewrite Hread.
      * intros H. rewrite (IH dfs H), decide_False; [done|]. congruence.
    + intros H. rewrite (IH dfs H). by destruct (decide _).
Qed.

Lemma all_loaded_cases {A} (ps : list (result A)) :
  all_loaded ps \/ exists e, Raise e ∈ ps.
Proof.
  induction ps as [|[a|e] ps IH].
  - left. constructor.
  - destruct IH as [IH|[e He]].
    + left. constructor; [by eexists|done].
    + right. exists e. by right.
  - right. exists e. by left.
Qed.

Lemma reached_cases {A} (f : string -> list (result A)) (ms : list string) :
  (forall m, m ∈ ms -> all_loaded (f m)) \/ (exists m, m ∈ ms /\ ~ all_loaded (f m)).
Proof.
  induction ms as [|m0 ms IH].
  - left. by intros m ?%elem_of_nil.
  - destruct (all_loaded_cases (f m0)) as [H0|[e He]].
    + destruct IH as [IH|(m & Hm & Hn)].
      * left. intros m [->|Hm]%elem_of_cons; [done|by apply IH].
      * right. exists m. split; [by right|done].
    + right. exists m0. split; [by left|]. by apply (all_loaded_raise _ e).
Qed.

(** The scan keeps a set of columns for the module of every file it
    keeps. *)
Lemma pass1_unions fs m :
  filter (fun fi => fi_mod fi = m) (info (pass1 fs)) <> [] ->
  is_Some (module_to_union (pass1 fs) !! m).
Proof.
  intros Hne. destruct (filter (fun fi => fi_mod fi = m) (info (pass1 fs))) as [|fi fis] eqn:Ef;
    [done|].
  assert (Hin : fi ∈ filter (fun fi => fi_mod fi = m) (info (pass1 fs)))
    by (rewrite Ef; by left).
  apply list_elem_of_filter in Hin as [<- Hin].
  by apply (proj2 (union_inv_pass1 fs)).
Qed.

(** The run, module by module. *)
Lemma main_spec fs w w' lg r :
  fs <> [] ->
  main list_of_set fs w = (w', lg, r) ->
  lg = log (pass1 fs) /\
  build_modules list_of_set MODULES (info (pass1 fs)) (module_to_union (pass1 fs)) w = (w', r).
Proof.
  intros Hne. unfold main. destruct fs as [|f0 fs0]; [done|].
  unfold build_with_dask.
  destruct (build_modules _ _ _ _ _) as [w1 r1]. by intros [= <- <- <-].
Qed.
End RunFacts.

(** C1 (amended). For a module with at least one scanned file, the schema
    [final_cols] is the three metadata columns followed by the union of the
    header columns of the files scanned for the module, without those named
    like a metadata column. The union is taken on the exact names: it has no
    repeated name, and two names that differ only in case are both kept. The
    part after the metadata is sorted on the lower-cased names. No column of
    a contributing file is missing from the schema, and a completed run
    leaves an output for the module whose schema is this list. This holds
    for every order in which the set of names is enumerated; when no two
    names of the union differ only in case, the schema itself is the same
    for every such order. *)
Theorem C1_schema_is_union (list_of_set : gset string -> list string)
    (csv_paths : list CsvFile) (mod_ : string) :
  (forall X, list_of_set X ≡ₚ elements X) ->
  (exists fi, fi ∈ info (pass1 csv_paths) /\ fi_mod fi = mod_) ->
  exists U rest,
    module_to_union (pass1 csv_paths) !! mod_ = Some U /\
    final_cols_of list_of_set U = META ++ rest /\
    NoDup (META ++ rest) /\
    lower_sorted rest /\
    (forall c, c ∈ rest <->
       (c ∉ META) /\ exists fi, fi ∈ info (pass1 csv_paths) /\ fi_mod fi = mod_ /\ c ∈ fi_cols fi) /\
    (forall fi c, fi ∈ info (pass1 csv_paths) -> fi_mod fi = mod_ -> c ∈ fi_cols fi ->
       c ∈ META ++ rest) /\
    (forall w w' lg, main list_of_set csv_paths w = (w', lg, Ok tt) ->
       exists pf, parquet w' !! out_path_of mod_ = Some pf /\ schema pf = META ++ rest) /\
    ((forall a b, a ∈ U -> b ∈ U -> Py.lower a = Py.lower b -> a = b) ->
     forall list_of_set', (forall X, list_of_set' X ≡ₚ elements X) ->
       final_cols_of list_of_set' U = META ++ rest).
Proof.
  intros Hperm Hex. destruct Hex as (fi0 & Hin0 & Hm0).
  destruct (union_inv_pass1 csv_paths) as [Hu Hi].
  destruct (Hi fi0 Hin0) as [U HU]. rewrite Hm0 in HU.
  exists U, (schema_rest list_of_set U).
  split; [done|]. split; [done|].
  split; [apply (final_cols_NoDup list_of_set Hperm)|].
  split; [apply schema_rest_sorted|].
  split; [|split; [|split]].
  - intros c. rewrite (schema_rest_elem list_of_set Hperm), (Hu mod_ U HU c). done.
  - intros fi c Hin Hm Hc. apply (final_cols_elem list_of_set Hperm).
    apply (Hu mod_ U HU). by exists fi.
  - intros w w' lg Hmain.
    destruct (main_ok list_of_set csv_paths w w' lg mod_ Hmain) as (U' & dfs & HU' & _ & Hp);
      [by exists fi0|].
    rewrite HU in HU'. injection HU' as <-. eexists. split; [exact Hp|done].
  - intros Hinj los' Hperm'. by apply (final_cols_order list_of_set Hperm).
Qed.

(** C2 (amended). For a module with a scanned file: the run completes
    exactly when every load of every module completes, and the output of
    the module is then closed and holds the rows of the tables loaded from
    its files, in the order of the files, none repeated and none lost; its
    row count is the sum of the row counts that the full reader returned
    for these files, a file skipped in pass 1 counting for zero rows. No
    file is dropped in pass 2. When every load of the modules before it in
    [MODULES] completes, the output of the module holds the tables loaded
    before its first load that raises, and is left as it was when that is
    its first load; when a load of a module before it raises, its output is
    left as it was. *)
Theorem C2_row_count_conservation (list_of_set : gset string -> list string)
    (csv_paths : list CsvFile) (mod_ : string) (w w' : World) (lg : list log_record)
    (r : result unit) :
  main list_of_set csv_paths w = (w', lg, r) ->
  (exists fi, fi ∈ info (pass1 csv_paths) /\ fi_mod fi = mod_) ->
  let parts := delayed_frames list_of_set (info (pass1 csv_paths))
                 (module_to_union (pass1 csv_paths)) in
  exists U before after,
    module_to_union (pass1 csv_paths) !! mod_ = Some U /\
    MODULES = before ++ mod_ :: after /\
    (r = Ok tt <-> forall m, m ∈ MODULES -> all_loaded (parts m)) /\
    (r = Ok tt ->
     exists pf dfs,
       parquet w' !! out_path_of mod_ = Some pf /\ closed pf = true /\
       parts mod_ = Ok <$> dfs /\
       table pf = concat (rows <$> dfs) /\
       length (table pf) = module_rows mod_ csv_paths) /\
    ((forall m, m ∈ before -> all_loaded (parts m)) ->
     parquet w' !! out_path_of mod_
     = match loaded_prefix (parts mod_) with
       | [] => parquet w !! out_path_of mod_
       | _ :: _ => Some {| schema := final_cols_of list_of_set U;
                           table := concat (rows <$> loaded_prefix (parts mod_));
                           closed := true |}
       end) /\
    ((exists m, m ∈ before /\ ~ all_loaded (parts m)) ->
     parquet w' !! out_path_of mod_ = parquet w !! out_path_of mod_).
Proof.
  intros Hmain (fi & Hin & Hm) parts.
  assert (Hne : csv_paths <> []) by (intros ->; by apply elem_of_nil in Hin).
  destruct (main_spec list_of_set csv_paths w w' lg r Hne Hmain) as [_ Hb].
  assert (Hfiles : filter (fun fi => fi_mod fi = mod_) (info (pass1 csv_paths)) <> []).
  { intros Hnil. assert (H : fi ∈ filter (fun fi => fi_mod fi = mod_) (info (pass1 csv_paths)))
      by (by apply list_elem_of_filter). rewrite Hnil in H. by apply elem_of_nil in H. }
  destruct (pass1_unions csv_paths mod_ Hfiles) as [U HU].
  assert (Hmod : mod_ ∈ MODULES) by (rewrite <- Hm; by eapply info_mod_in_MODULES).
  apply list_elem_of_split in Hmod as (before & after & Hsplit).
  destruct (build_modules_spec list_of_set MODULES _ _ w w' r out_paths_NoDup
              (pass1_unions csv_paths) Hb) as (Hr & _ & Hmods).
  destruct (Hmods before mod_ after Hsplit) as [Hreach Hnot]. fold parts in Hr, Hreach, Hnot.
  rewrite HU in Hreach. cbn [default] in Hreach.
  exists U, before, after. split; [done|]. split; [done|]. split; [done|].
  split; [|split; [done|done]].
  intros Hok. pose proof (proj1 Hr Hok) as Hall.
  assert (Hp : parts mod_ = Ok <$> loaded_prefix (parts mod_)).
  { apply all_loaded_prefix, Hall. rewrite Hsplit. apply elem_of_app. right. by left. }
  assert (Hd : parts mod_
               = (fun fi => load_one fi (final_cols_of list_of_set U))
                   <$> filter (fun fi => fi_mod fi = mod_) (info (pass1 csv_paths)))
    by (by apply delayed_frames_Some).
  rewrite Hreach by (intros m Hm'; apply Hall; rewrite Hsplit; apply elem_of_app; by left).
  destruct (loaded_prefix (parts mod_)) as [|d0 dfs] eqn:El.
  { exfalso. rewrite Hd in Hp.
    destruct (filter (fun fi => fi_mod fi = mod_) (info (pass1 csv_paths))); [done|].
    by csimpl in Hp. }
  eexists _, (d0 :: dfs). split; [done|]. split; [done|]. split; [done|]. split; [done|].
  cbn [table]. rewrite length_concat, <- list_fmap_compose.
  apply (rows_of_module mod_ (final_cols_of list_of_set U) csv_paths (d0 :: dfs)).
  - intros c Hc. unfold final_cols_of. apply elem_of_app. by left.
  - rewrite <- pass1_info. apply sequence_ok. by rewrite <- Hd.
Qed.

(** C5 (amended). When every stage of the full reader raises on a file
    kept by pass 1, the exception is not absorbed and the file is not
    dropped: the run ends with the exception of a load that raised. Nothing
    that follows the file is written: the output of its module is left as
    it was before the run or holds only rows of the files of the module
    that precede it, no coverage report is written for the module, and the
    outputs and reports of the modules after it in [MODULES] are left as
    they were. *)
Theorem C5_failed_load_aborts_run (list_of_set : gset string -> list string)
    (csv_paths : list CsvFile) (w : World) (fi : FileInfo) :
  fi ∈ info (pass1 csv_paths) ->
  all_stages_fail (fi_file fi) (fi_encoding fi) (fi_delimiter fi) ->
  exists w' lg e U pre post before after,
    main list_of_set csv_paths w = (w', lg, Raise e) /\
    (exists m, m ∈ MODULES /\
       Raise e ∈ delayed_frames list_of_set (info (pass1 csv_paths))
                  (module_to_union (pass1 csv_paths)) m) /\
    module_to_union (pass1 csv_paths) !! fi_mod fi = Some U /\
    filter (fun fi' => fi_mod fi' = fi_mod fi) (info (pass1 csv_paths)) = pre ++ fi :: post /\
    MODULES = before ++ fi_mod fi :: after /\
    (parquet w' !! out_path_of (fi_mod fi) = parquet w !! out_path_of (fi_mod fi) \/
     parquet w' !! out_path_of (fi_mod fi)
     = Some {| schema := final_cols_of list_of_set U;
               table := concat (rows <$> loaded_prefix
                                  ((fun fi' => load_one fi' (final_cols_of list_of_set U))
                                     <$> pre));
               closed := true |}) /\
    reports w' !! cov_csv_of (fi_mod fi) = reports w !! cov_csv_of (fi_mod fi) /\
    (forall m, m ∈ after ->
       parquet w' !! out_path_of m = parquet w !! out_path_of m /\
       reports w' !! cov_csv_of m = reports w !! cov_csv_of m).
Proof.
  intros Hin [e0 Hfail]%read_full_fails.
  assert (Hne : csv_paths <> []) by (intros ->; by apply elem_of_nil in Hin).
  destruct (main list_of_set csv_paths w) as [[w' lg] r] eqn:Hmain.
  destruct (main_spec list_of_set csv_paths w w' lg r Hne Hmain) as [_ Hb].
  set (parts := delayed_frames list_of_set (info (pass1 csv_paths))
                  (module_to_union (pass1 csv_paths))).
  assert (Hf : fi ∈ filter (fun fi' => fi_mod fi' = fi_mod fi) (info (pass1 csv_paths)))
    by (by apply list_elem_of_filter).
  destruct (pass1_unions csv_paths (fi_mod fi)) as [U HU].
  { intros Hnil. rewrite Hnil in Hf. by apply elem_of_nil in Hf. }
  apply list_elem_of_split in Hf as (pre & post & Hfiles).
  pose proof (info_mod_in_MODULES csv_paths fi Hin) as Hmod.
  apply list_elem_of_split in Hmod as (before & after & Hsplit).
  assert (Hd : parts (fi_mod fi)
               = ((fun fi' => load_one fi' (final_cols_of list_of_set U)) <$> pre)
                 ++ Raise e0 :: ((fun fi' => load_one fi' (final_cols_of list_of_set U)) <$> post)).
  { unfold parts. rewrite (delayed_frames_Some list_of_set _ _ _ U HU), Hfiles, fmap_app, fmap_cons.
    by rewrite (load_one_raise fi _ e0 Hfail). }
  assert (Hbad : ~ all_loaded (parts (fi_mod fi))).
  { apply (all_loaded_raise _ e0). rewrite Hd. apply elem_of_app. right. by left. }
  destruct (build_modules_spec list_of_set MODULES _ _ w w' r out_paths_NoDup
              (pass1_unions csv_paths) Hb) as (Hr & He & Hmods).
  fold parts in Hr, He, Hmods.
  destruct r as [[]|e].
  { exfalso. apply Hbad, Hr; [done|]. rewrite Hsplit. apply elem_of_app. right. by left. }
  exists w', lg, e, U, pre, post, before, after.
  split; [done|]. split; [by apply He|]. split; [done|]. split; [done|]. split; [done|].
  split; [|split].
  - destruct (Hmods before (fi_mod fi) after Hsplit) as [Hreach Hnot].
    destruct (reached_cases parts before) as [Hall|Hex]; [|left; by apply Hnot].
    rewrite (Hreach Hall), HU, Hd, loaded_prefix_app_raise. cbn [default from_option id].
    destruct (loaded_prefix ((fun fi' => load_one fi' (final_cols_of list_of_set U)) <$> pre))
      as [|d0 dfs]; [by left|by right].
  - apply (build_modules_reports_kept list_of_set MODULES _ _ w w' (Raise e) cov_paths_NoDup
             (pass1_unions csv_paths) Hb before (fi_mod fi) after Hsplit).
    exists (fi_mod fi). split; [|done]. apply elem_of_app. right. by left.
  - intros m Hm. apply list_elem_of_split in Hm as (a1 & a2 & ->).
    assert (Hsplit' : MODULES = (before ++ fi_mod fi :: a1) ++ m :: a2)
      by (by rewrite Hsplit, <- app_assoc).
    split.
    + apply (proj2 (Hmods _ m a2 Hsplit')). exists (fi_mod fi). split; [|done].
      apply elem_of_app. right. by left.
    + apply (build_modules_reports_kept list_of_set MODULES _ _ w w' (Raise e) cov_paths_NoDup
               (pass1_unions csv_paths) Hb _ m a2 Hsplit').
      exists (fi_mod fi). split; [|done]. rewrite <- app_assoc. apply elem_of_app. right. by left.
Qed.

Section Completion.
Variable list_of_set : gset string -> list string.

(** When every file kept by the scan loads, the run completes. *)
Lemma main_completes fs w :
  fs <> [] ->
  (forall fi U, fi ∈ info (pass1 fs) ->
     module_to_union (pass1 fs) !! fi_mod fi = Some U ->
     exists d, load_one fi (final_cols_of list_of_set U) = Ok d) ->
  exists w', main list_of_set fs w = (w', log (pass1 fs), Ok tt).
Proof.
  intros Hne Hload. destruct (main list_of_set fs w) as [[w' lg] r] eqn:Hmain.
  destruct (main_spec list_of_set fs w w' lg r Hne Hmain) as [-> Hb].
  destruct (build_modules_spec list_of_set MODULES _ _ w w' r out_paths_NoDup
              (pass1_unions fs) Hb) as (Hr & _ & _).
  exists w'. f_equal. apply Hr. intros m _. unfold all_loaded.
  unfold delayed_frames. apply Forall_fmap, Forall_forall. intros fi Hfi. simpl.
  apply list_elem_of_filter in Hfi as [Hm Hin].
  destruct (proj2 (union_inv_pass1 fs) fi Hin) as [U HU].
  rewrite <- Hm, HU. cbn [default from_option id]. by apply Hload.
Qed.
End Completion.

(** ** The catalog check (claim C8), claim C7 and the claims on sample inputs *)
Import Examples.

(** C8. When the catalog table lacks one of the columns [CVE_ENT],
    [NOM_ENT], [CVE_MUN], [NOM_MUN], [read_catalog] raises [ValueError] and
    the script ends with it before any table is labelled: nothing is
    written. *)
Theorem C8_catalog_schema_mismatch_aborts
    (labelled_ddf : DataFrame -> Geo.Catalog -> result (list (result ArrowTable)))
    (cat : Geo.CatalogFile) (df : DataFrame)
    (inputs : list (string * option DataFrame)) (fs : gmap string ParquetFile) :
  Geo.catalog_table cat = Ok df ->
  (exists c, c ∈ Geo.expected /\ c ∉ columns df) ->
  exists msg, Geo.read_catalog cat = Raise (ValueError msg) /\
              Geo.main labelled_ddf cat inputs fs = (fs, [], Raise (ValueError msg)).
Proof.
  intros Hdf (c & Hexp & Hmiss). unfold Geo.main, Geo.read_catalog. rewrite Hdf. simpl.
  destruct (filter (fun c => c ∉ columns df) Geo.expected) as [|c0 cs] eqn:E.
  - assert (H : c ∈ filter (fun c => c ∉ columns df) Geo.expected)
      by (by apply list_elem_of_filter).
    rewrite E in H. by apply elem_of_nil in H.
  - by eexists.
Qed.

Lemma C3_witness :
  exists mp, mapping_of elements ([] ++ dict_2024q4 :: [dict_2022q2]) "SDEMT" "EMP_PPAL" = Some mp /\
             mp = merge_group (entries elements ("SDEMT", "EMP_PPAL")
                                 ([] ++ dict_2024q4 :: [dict_2022q2])) /\
             mp !! "01" = Some "Informal".
Proof.
  apply (C3_latest_release_wins elements [] [dict_2022q2] dict_2024q4
           "SDEMT" "EMP_PPAL" "01" "Informal").
  - reflexivity.
  - reflexivity.
  - constructor.
  - repeat constructor.
Defined.

Lemma C4_witness :
  let mp := default ∅ (mapping_of elements [dict_2024q4; dict_2022q2] "SDEMT" "EMP_PPAL") in
  mp !! "01" = Some "Informal" /\
  lookup_udf mp (PyStr "1") = Some "Informal" /\
  lookup_udf mp (PyStr "01") = Some "Informal" /\
  lookup_udf mp (PyStr " 1 ") = Some "Informal".
Proof.
  apply (C4_lookup_normalization elements [dict_2024q4; dict_2022q2] "SDEMT" "EMP_PPAL").
  - intros X. reflexivity.
  - vm_compute. reflexivity.
  - vm_compute. reflexivity.
Defined.

Lemma C9_witness :
  build_base_var_mappings elements [dict_2024q4; dict_2022q2]
  = build_base_var_mappings reversed [dict_2024q4; dict_2022q2] /\
  label_columns (default ∅ (build_base_var_mappings elements [dict_2024q4; dict_2022q2] !! "SDEMT"))
                sdemt_table
  = label_columns (default ∅ (build_base_var_mappings reversed [dict_2024q4; dict_2022q2] !! "SDEMT"))
                  sdemt_table.
Proof.
  apply (C9_label_application_deterministic elements reversed).
  - intros X. reflexivity.
  - intros X. unfold reversed. apply reverse_Permutation.
Defined.

Lemma C10_witness :
  let mp := default ∅ (mapping_of elements [dict_2024q4; dict_2022q2] "SDEMT" "EMP_PPAL") in
  (forall lm c, Py.strip (valor c) = "" \/ Py.strip (categoria c) = "" ->
                add_categoria elements lm c = lm) /\
  mp !! "" = None /\
  lookup_udf mp PyNone = None /\
  (forall s, Py.strip s = "" -> lookup_udf mp (PyStr s) = None).
Proof.
  apply (C10_no_empty_key elements [dict_2024q4; dict_2022q2] "SDEMT" "EMP_PPAL").
  - intros X. reflexivity.
  - vm_compute. reflexivity.
Defined.

Lemma C8_witness :
  exists msg, Geo.read_catalog short_catalog = Raise (ValueError msg) /\
              Geo.main whole_table short_catalog
                [("enoe_master_sdemt.parquet", Some sdemt_table)] ∅
              = (∅, [], Raise (ValueError msg)).
Proof.
  apply (C8_catalog_schema_mismatch_aborts whole_table short_catalog
           {| columns := ["CVE_ENT"; "NOM_ENT"; "CVE_MUN"];
              rows := [[PyStr "01"; PyStr "Aguascalientes"; PyStr "001"]] |}).
  - reflexivity.
  - exists "NOM_MUN". split.
    + vm_compute. do 3 right. left.
    + intros H. vm_compute in H. repeat (inversion_clear H as [|? ? ? H']; rename H' into H).
Defined.

(** C7 (code bug). [files.py] names the copy of a file after its stem
    and the folder of its release: [ENOE_HOGT324__enoe_2024_trim3_csv.csv].
    The name contains [_2024_trim3], but the pattern of
    [parse_year_trim_from_name] ends in a word boundary and the name goes
    on with an underscore: no period is read from the name, and each row
    takes its period from its own period code: 2023T1 for the code 123,
    2000T0 for a missing code. *)
Theorem C7_tagged_name_falls_back_to_period :
  Py.ascii_text (fname hogt_tagged) /\
  contains "_2024_trim3" (fname hogt_tagged) = true /\
  parse_year_trim_from_name (fname hogt_tagged) = (None, None) /\
  load_one (info_of hogt_tagged) (META ++ ["ent"; "per"])
  = Ok {| columns := ["anio"; "trimestre"; "anio_trimestre"; "ent"; "per"];
          rows := [[PyInt 2024; PyInt 3; PyStr "2024T3"; PyStr "9"; PyStr "324"];
                   [PyInt 2023; PyInt 1; PyStr "2023T1"; PyStr "1"; PyStr "123"];
                   [PyInt 2000; PyInt 0; PyStr "2000T0"; PyStr "2"; PyNone]] |}.
Proof. repeat split; vm_compute; reflexivity. Qed.

Lemma C6_witness :
  (forall cols enc delim,
     headers_only hogt_upper = Ok (cols, enc, delim) ->
     enc ∈ encodings_try hogt_upper /\ cols <> [] /\
     (header_of_sample hogt_upper enc delim = Ok cols \/
      header_of_file hogt_upper enc delim = Ok cols)) /\
  headers_only hogt_unreadable = Raise UnicodeDecodeError /\
  info (pass1 ([hogt_upper] ++ hogt_unreadable :: [hogt_lower]))
  = info (pass1 ([hogt_upper] ++ [hogt_lower])) /\
  HeadersFailedError "hogt_bad.csv" UnicodeDecodeError
    ∈ log (pass1 ([hogt_upper] ++ hogt_unreadable :: [hogt_lower])).
Proof.
  split; [apply (C6_header_sniffer hogt_upper)|].
  destruct (proj2 (C6_header_sniffer hogt_unreadable)) as [Hraise Hpass].
  - intros enc _. split; [reflexivity|]. intros delim. reflexivity.
  - split; [exact Hraise|].
    destruct (Hpass [hogt_upper] [hogt_lower]) as (Hi & _ & _ & Hlog & _).
    split; [exact Hi|exact Hlog].
Defined.

Lemma C1_witness :
  exists U rest,
    module_to_union (pass1 [hogt_upper; hogt_lower]) !! "HOGT" = Some U /\
    final_cols_of elements U = META ++ rest /\
    NoDup (META ++ rest) /\
    lower_sorted rest /\
    (forall c, c ∈ rest <->
       (c ∉ META) /\ exists fi, fi ∈ info (pass1 [hogt_upper; hogt_lower]) /\
                                fi_mod fi = "HOGT" /\ c ∈ fi_cols fi) /\
    (forall fi c, fi ∈ info (pass1 [hogt_upper; hogt_lower]) -> fi_mod fi = "HOGT" ->
       c ∈ fi_cols fi -> c ∈ META ++ rest) /\
    (forall w w' lg, main elements [hogt_upper; hogt_lower] w = (w', lg, Ok tt) ->
       exists pf, parquet w' !! out_path_of "HOGT" = Some pf /\ schema pf = META ++ rest) /\
    ((forall a b, a ∈ U -> b ∈ U -> Py.lower a = Py.lower b -> a = b) ->
     forall list_of_set', (forall X, list_of_set' X ≡ₚ elements X) ->
       final_cols_of list_of_set' U = META ++ rest).
Proof.
  apply (C1_schema_is_union elements [hogt_upper; hogt_lower] "HOGT").
  - intros X. reflexivity.
  - exists (info_of hogt_upper). split; [|reflexivity].
    apply list_elem_of_here.
Defined.

Lemma C1_counterexample :
  let U := default ∅ (module_to_union (pass1 [hogt_upper; hogt_lower]) !! "HOGT") in
  ~ NoDup (Py.lower <$> final_cols_of elements U) /\
  final_cols_of elements U <> final_cols_of reversed U.
Proof.
  split.
  - assert (H : bool_decide (NoDup (Py.lower <$> final_cols_of elements
                  (default ∅ (module_to_union (pass1 [hogt_upper; hogt_lower]) !! "HOGT"))))
                = false) by (vm_compute; reflexivity).
    by apply bool_decide_eq_false in H.
  - vm_compute. discriminate.
Qed.

Lemma C2_witness :
  exists pf dfs,
    parquet (fst (fst (main elements sound_batch empty_world))) !! out_path_of "HOGT" = Some pf /\
    closed pf = true /\
    delayed_frames elements (info (pass1 sound_batch)) (module_to_union (pass1 sound_batch))
      "HOGT" = Ok <$> dfs /\
    table pf = concat (rows <$> dfs) /\
    length (table pf) = module_rows "HOGT" sound_batch /\
    length (table pf) = 4%nat.
Proof.
  destruct (C2_row_count_conservation elements sound_batch "HOGT" empty_world
              (fst (fst (main elements sound_batch empty_world)))
              (snd (fst (main elements sound_batch empty_world)))
              (snd (main elements sound_batch empty_world)))
    as (U & before & after & _ & _ & _ & Hok & _).
  - by destruct (main elements sound_batch empty_world) as [[? ?] ?].
  - exists (info_of hogt_q1). split; [|reflexivity]. apply list_elem_of_here.
  - destruct Hok as (pf & dfs & Hp & Hc & Hd & Ht & Hl); [vm_compute; reflexivity|].
    exists pf, dfs. repeat (split; [assumption|]). rewrite Hl. vm_compute. reflexivity.
Defined.

Lemma C2_counterexample :
  sorted_paths broken_batch /\
  module_rows "HOGT" broken_batch = 4%nat /\
  module_rows "SDEMT" broken_batch = 3%nat /\
  exists w',
    main elements broken_batch empty_world = (w', [], Raise ParserError) /\
    (exists pf, parquet w' !! out_path_of "HOGT" = Some pf /\ length (table pf) = 2%nat) /\
    parquet w' !! out_path_of "SDEMT" = None.
Proof.
  split; [|split; [|split]].
  - assert (H : bool_decide (sorted_paths broken_batch) = true) by (vm_compute; reflexivity).
    by apply bool_decide_eq_true in H.
  - vm_compute. reflexivity.
  - vm_compute. reflexivity.
  - eexists. split; [vm_compute; reflexivity|]. split; [|vm_compute; reflexivity].
    eexists. split; vm_compute; reflexivity.
Qed.

Lemma C5_witness :
  exists w' lg e U pre post before after,
    main elements broken_batch empty_world = (w', lg, Raise e) /\
    (exists m, m ∈ MODULES /\
       Raise e ∈ delayed_frames elements (info (pass1 broken_batch))
                  (module_to_union (pass1 broken_batch)) m) /\
    module_to_union (pass1 broken_batch) !! fi_mod (info_of hogt_q2_broken) = Some U /\
    filter (fun fi' => fi_mod fi' = fi_mod (info_of hogt_q2_broken)) (info (pass1 broken_batch))
    = pre ++ info_of hogt_q2_broken :: post /\
    MODULES = before ++ fi_mod (info_of hogt_q2_broken) :: after /\
    (parquet w' !! out_path_of (fi_mod (info_of hogt_q2_broken))
     = parquet empty_world !! out_path_of (fi_mod (info_of hogt_q2_broken)) \/
     parquet w' !! out_path_of (fi_mod (info_of hogt_q2_broken))
     = Some {| schema := final_cols_of elements U;
               table := concat (rows <$> loaded_prefix
                                  ((fun fi' => load_one fi' (final_cols_of elements U))
                                     <$> pre));
               closed := true |}) /\
    reports w' !! cov_csv_of (fi_mod (info_of hogt_q2_broken))
    = reports empty_world !! cov_csv_of (fi_mod (info_of hogt_q2_broken)) /\
    (forall m, m ∈ after ->
       parquet w' !! out_path_of m = parquet empty_world !! out_path_of m /\
       reports w' !! cov_csv_of m = reports empty_world !! cov_csv_of m).
Proof.
  apply (C5_failed_load_aborts_run elements broken_batch empty_world (info_of hogt_q2_broken)).
  - apply list_elem_of_further, list_elem_of_here.
  - repeat split; try (intros; eexists; reflexivity); eexists; reflexivity.
Defined.

Lemma C5_counterexample :
  sorted_paths broken_batch /\
  all_stages_fail hogt_q2_broken Utf8 Comma /\
  (exists df, read_full_csv_robust hogt_upper Utf8 Comma = Ok df /\ nrows df = 2%nat) /\
  (exists df, read_full_csv_robust sdemt_q3 Utf8 Comma = Ok df /\ nrows df = 3%nat) /\
  exists w',
    main elements broken_batch empty_world = (w', [], Raise ParserError) /\
    parquet w' !! out_path_of "HOGT"
    = Some {| schema := ["anio"; "trimestre"; "anio_trimestre"; "ent"; "PER"];
              table := [[PyInt 2024; PyInt 1; PyStr "2024T1"; PyStr "9"; PyStr "124"];
                        [PyInt 2024; PyInt 1; PyStr "2024T1"; PyStr "1"; PyStr "124"]];
              closed := true |} /\
    parquet w' !! out_path_of "SDEMT" = None /\
    reports w' = ∅.
Proof.
  split; [|split; [|split; [|split]]].
  - assert (H : bool_decide (sorted_paths broken_batch) = true) by (vm_compute; reflexivity).
    by apply bool_decide_eq_true in H.
  - repeat split; try (intros; eexists; reflexivity); eexists; reflexivity.
  - eexists. split; reflexivity.
  - eexists. split; reflexivity.
  - eexists. split; [vm_compute; reflexivity|]. repeat split; vm_compute; reflexivity.
Qed.

(** * Further properties

    ** File names, the reader and the scan *)
Section CharFacts.
Lemma upper_char_idem c : Py.upper_char (Py.upper_char c) = Py.upper_char c.
Proof. destruct c as [[] [] [] [] [] [] [] []]; vm_compute; reflexivity. Qed.

Lemma upper_lower_char c : Py.upper_char (Py.lower_char c) = Py.upper_char c.
Proof. destruct c as [[] [] [] [] [] [] [] []]; vm_compute; reflexivity. Qed.

Lemma lower_upper_char c : Py.lower_char (Py.upper_char c) = Py.lower_char c.
Proof. destruct c as [[] [] [] [] [] [] [] []]; vm_compute; reflexivity. Qed.

Lemma lower_char_idem c : Py.lower_char (Py.lower_char c) = Py.lower_char c.
Proof. destruct c as [[] [] [] [] [] [] [] []]; vm_compute; reflexivity. Qed.

Lemma is_digit_upper_char c : Py.is_digit (Py.upper_char c) = Py.is_digit c.
Proof. destruct c as [[] [] [] [] [] [] [] []]; vm_compute; reflexivity. Qed.

Lemma is_digit_lower_char c : Py.is_digit (Py.lower_char c) = Py.is_digit c.
Proof. destruct c as [[] [] [] [] [] [] [] []]; vm_compute; reflexivity. Qed.

Lemma is_word_upper_char c : Py.is_word (Py.upper_char c) = Py.is_word c.
Proof. destruct c as [[] [] [] [] [] [] [] []]; vm_compute; reflexivity. Qed.

Lemma is_word_lower_char c : Py.is_word (Py.lower_char c) = Py.is_word c.
Proof. destruct c as [[] [] [] [] [] [] [] []]; vm_compute; reflexivity. Qed.

Lemma is_space_upper_char c : Py.is_space (Py.upper_char c) = Py.is_space c.
Proof. destruct c as [[] [] [] [] [] [] [] []]; vm_compute; reflexivity. Qed.

Lemma digit_upper_char c : Py.is_digit c = true -> Py.upper_char c = c.
Proof. destruct c as [[] [] [] [] [] [] [] []]; vm_compute; first [reflexivity | discriminate]. Qed.

Lemma digit_lower_char c : Py.is_digit c = true -> Py.lower_char c = c.
Proof. destruct c as [[] [] [] [] [] [] [] []]; vm_compute; first [reflexivity | discriminate]. Qed.

(** A character that is not a letter is the image of itself only. *)
Lemma upper_char_fixed c x :
  Py.is_upper x = false -> Py.is_lower x = false ->
  bool_decide (Py.upper_char c = x) = bool_decide (c = x).
Proof.
  intros Hu Hl. apply bool_decide_ext. split; [|by intros ->; unfold Py.upper_char; rewrite Hl].
  intros <-. revert Hu Hl.
  destruct c as [[] [] [] [] [] [] [] []]; vm_compute; first [reflexivity | discriminate].
Qed.

Lemma lower_char_fixed c x :
  Py.is_upper x = false -> Py.is_lower x = false ->
  bool_decide (Py.lower_char c = x) = bool_decide (c = x).
Proof.
  intros Hu Hl. apply bool_decide_ext. split; [|by intros ->; unfold Py.lower_char; rewrite Hu].
  intros <-. revert Hu Hl.
  destruct c as [[] [] [] [] [] [] [] []]; vm_compute; first [reflexivity | discriminate].
Qed.

Lemma list_ascii_map_chars f s :
  list_ascii_of_string (Py.map_chars f s) = map f (list_ascii_of_string s).
Proof. induction s as [|c s IH]; simpl; [done|]. by rewrite IH. Qed.

Lemma upper_idem s : Py.upper (Py.upper s) = Py.upper s.
Proof.
  unfold Py.upper. induction s as [|c s IH]; simpl; [done|].
  by rewrite upper_char_idem, IH.
Qed.

Lemma upper_lower s : Py.upper (Py.lower s) = Py.upper s.
Proof.
  unfold Py.upper, Py.lower. induction s as [|c s IH]; simpl; [done|].
  by rewrite upper_lower_char, IH.
Qed.

Lemma lower_upper s : Py.lower (Py.upper s) = Py.lower s.
Proof.
  unfold Py.upper, Py.lower. induction s as [|c s IH]; simpl; [done|].
  by rewrite lower_upper_char, IH.
Qed.

Lemma digit_val_range c : Py.is_digit c = true -> 0 <= Py.digit_val c <= 9.
Proof.
  unfold Py.is_digit, Py.digit_val. intros [H1 H2]%andb_true_iff.
  apply Z.leb_le in H1, H2. lia.
Qed.

Lemma nat_digits_cons acc c r :
  Py.is_digit c = true ->
  Py.nat_digits acc (String c r) = Py.nat_digits (10 * acc + Py.digit_val c) r.
Proof. intros H. simpl. by rewrite H. Qed.
End CharFacts.

Section NameFacts.
Lemma re_name_at_Some s y q :
  re_name_at s = Some (y, q) ->
  exists d1 d2 dq rest,
    s = "_"%char :: "2"%char :: "0"%char :: d1 :: d2 :: "_"%char ::
        firstn 4 (skipn 6 s) ++ dq :: rest /\
    Py.is_digit d1 = true /\ Py.is_digit d2 = true /\ Py.is_digit dq = true /\
    word_boundary rest = true /\
    y = 2000 + 10 * Py.digit_val d1 + Py.digit_val d2 /\ q = Py.digit_val dq.
Proof.
  unfold re_name_at.
  destruct s as [|u1 [|c2 [|c0 [|d1 [|d2 [|u2 [|t [|r [|i [|m [|dq rest]]]]]]]]]]]; try done.
  destruct (_ && _) eqn:E; [|done].
  repeat (apply andb_true_iff in E as [E ?]).
  apply bool_decide_eq_true in E. subst u1.
  repeat match goal with H : bool_decide _ = true |- _ => apply bool_decide_eq_true in H end.
  subst.
  assert (Ey : Py.int (string_of_list_ascii ["2"%char; "0"%char; d1; d2])
               = Some (2000 + 10 * Py.digit_val d1 + Py.digit_val d2)).
  { cbn [string_of_list_ascii]. rewrite int_digit_head by done.
    rewrite !nat_digits_cons by done. cbn [Py.nat_digits].
    change (Py.digit_val "2") with 2. change (Py.digit_val "0") with 0. f_equal; lia. }
  assert (Eq : Py.int (string_of_list_ascii [dq]) = Some (Py.digit_val dq)).
  { cbn [string_of_list_ascii]. rewrite int_digit_head by done.
    rewrite nat_digits_cons by done. cbn [Py.nat_digits]. f_equal; lia. }
  rewrite Ey, Eq. intros [= <- <-]. by exists d1, d2, dq, rest.
Qed.
End NameFacts.

(** X1. Whatever the file name, [parse_year_trim_from_name] returns a year
    and a quarter together or neither; a year it returns lies between 2000
    and 2099 and a quarter between 0 and 9: the quarter digit is not checked
    any further. *)
Theorem name_period_in_range (name : string) :
  match parse_year_trim_from_name name with
  | (Some y, Some q) => 2000 <= y <= 2099 /\ 0 <= q <= 9
  | (None, None) => True
  | _ => False
  end.
Proof.
  unfold parse_year_trim_from_name.
  destruct (re_name_search (list_ascii_of_string name)) as [[y q]|] eqn:E; [|done].
  apply re_name_search_Some in E as (pre & rest & _ & Hat & _).
  apply re_name_at_Some in Hat as (d1 & d2 & dq & rest' & _ & H1 & H2 & Hq & _ & -> & ->).
  apply digit_val_range in H1, H2, Hq. lia.
Qed.

Section CaseFacts.
Variable f : ascii -> ascii.
Hypothesis f_fixed : forall c x,
  Py.is_upper x = false -> Py.is_lower x = false ->
  bool_decide (f c = x) = bool_decide (c = x).
Hypothesis f_digit : forall c, Py.is_digit (f c) = Py.is_digit c.
Hypothesis f_digit_id : forall c, Py.is_digit c = true -> f c = c.
Hypothesis f_lower : forall c, Py.lower_char (f c) = Py.lower_char c.
Hypothesis f_word : forall c, Py.is_word (f c) = Py.is_word c.

Lemma word_boundary_map rest : word_boundary (map f rest) = word_boundary rest.
Proof. destruct rest as [|c rest]; simpl; [done|]. by rewrite f_word. Qed.

Lemma re_name_at_map s : re_name_at (map f s) = re_name_at s.
Proof.
  destruct s as [|u1 [|c2 [|c0 [|d1 [|d2 [|u2 [|t [|r [|i [|m [|dq rest]]]]]]]]]]]; try done.
  change (map f (u1 :: c2 :: c0 :: d1 :: d2 :: u2 :: t :: r :: i :: m :: dq :: rest))
    with (f u1 :: f c2 :: f c0 :: f d1 :: f d2 :: f u2 :: f t :: f r :: f i :: f m
          :: f dq :: map f rest).
  unfold re_name_at, ci_eq.
  rewrite !f_fixed by done. rewrite !f_lower, !f_digit, word_boundary_map.
  destruct (Py.is_digit d1) eqn:E1; [|by rewrite ?andb_false_r].
  destruct (Py.is_digit d2) eqn:E2; [|by rewrite ?andb_false_r].
  destruct (Py.is_digit dq) eqn:Eq; [|by rewrite ?andb_false_r].
  destruct (decide (c2 = "2"%char)) as [->|N2];
    [|by rewrite (bool_decide_eq_false_2 _ N2), ?andb_false_r].
  destruct (decide (c0 = "0"%char)) as [->|N0];
    [|by rewrite (bool_decide_eq_false_2 _ N0), ?andb_false_r].
  by rewrite (f_digit_id d1 E1), (f_digit_id d2 E2), (f_digit_id dq Eq),
             (f_digit_id "2"%char eq_refl), (f_digit_id "0"%char eq_refl).
Qed.

Lemma re_name_search_map s : re_name_search (map f s) = re_name_search s.
Proof.
  induction s as [|c s IH]; [done|].
  change (map f (c :: s)) with (f c :: map f s). cbn [re_name_search].
  change (f c :: map f s) with (map f (c :: s)). rewrite re_name_at_map.
  destruct (re_name_at (c :: s)); [done|]. exact IH.
Qed.
End CaseFacts.

(** X2. On a file name of ASCII characters the period read from the
    name does not depend on the case of the name: the upper-cased and the
    lower-cased name give what the name gives. *)
Theorem name_period_ignores_case (name : string) :
  Py.ascii_text name ->
  parse_year_trim_from_name (Py.upper name) = parse_year_trim_from_name name /\
  parse_year_trim_from_name (Py.lower name) = parse_year_trim_from_name name.
Proof.
  intros _. unfold parse_year_trim_from_name, Py.upper, Py.lower. rewrite !list_ascii_map_chars. split.
  - by rewrite (re_name_search_map Py.upper_char upper_char_fixed is_digit_upper_char
                  digit_upper_char lower_upper_char is_word_upper_char).
  - by rewrite (re_name_search_map Py.lower_char lower_char_fixed is_digit_lower_char
                  digit_lower_char lower_char_idem is_word_lower_char).
Qed.

Lemma name_period_ignores_case_witness :
  parse_year_trim_from_name (Py.upper "Hogt_2024_Trim3.csv")
  = parse_year_trim_from_name "Hogt_2024_Trim3.csv" /\
  parse_year_trim_from_name (Py.lower "Hogt_2024_Trim3.csv")
  = parse_year_trim_from_name "Hogt_2024_Trim3.csv".
Proof. apply (name_period_ignores_case "Hogt_2024_Trim3.csv"). reflexivity. Defined.

Section FindFacts.
Lemma find_first {A} (P : A -> bool) (l : list A) m :
  find P l = Some m ->
  exists j, l !! j = Some m /\ P m = true /\
    forall i x, l !! i = Some x -> P x = true -> (j <= i)%nat.
Proof.
  induction l as [|y l IH]; simpl; [done|].
  destruct (P y) eqn:Ey.
  - intros [= <-]. exists 0%nat. split; [done|]. split; [done|]. intros; lia.
  - intros (j & Hj & Hm & Hmin)%IH. exists (S j). split; [done|]. split; [done|].
    intros [|i] x Hi Hx; simpl in Hi; [congruence|].
    specialize (Hmin i x Hi Hx). lia.
Qed.

Lemma find_none_all {A} (P : A -> bool) (l : list A) x :
  find P l = None -> x ∈ l -> P x = false.
Proof.
  intros H Hin. apply (find_none P l H). by apply list_elem_of_In.
Qed.

Lemma MODULES_NoDup : NoDup MODULES.
Proof.
  assert (H : bool_decide (NoDup MODULES) = true) by (by vm_compute).
  by apply bool_decide_eq_true in H.
Qed.
End FindFacts.

Section ContainsFacts.
Lemma prefix_append_false (a b s : string) :
  String.prefix a s = false -> String.prefix (a +:+ b) s = false.
Proof.
  revert s. induction a as [|c a IH]; intros s.
  - destruct s; intros H; discriminate H.
  - change (String c a +:+ b) with (String c (a +:+ b)).
    destruct s as [|c' s]; [done|]. simpl.
    destruct (Ascii.ascii_dec c c'); [apply IH|done].
Qed.

(** A text that does not contain [a] contains no text that starts with
    [a]. *)
Lemma contains_append_false (a b s : string) :
  contains a s = false -> contains (a +:+ b) s = false.
Proof.
  induction s as [|c s IH].
  - cbn [contains]. rewrite !orb_false_r. apply prefix_append_false.
  - cbn [contains]. intros [Hp Hc]%orb_false_iff.
    by rewrite (prefix_append_false a b _ Hp), (IH Hc).
Qed.
End ContainsFacts.

(** X3. On a file name of ASCII characters,
    [detect_module_from_filename] depends on the upper-cased name only. A
    module it returns is one of [MODULES], and no tag listed before it in
    [MODULES] occurs in the upper-cased name: among several tags the first
    listed wins, wherever they stand in the name. Either the tag of the
    module occurs in the name, or no tag does and the module is COE1T for
    a name that contains COE1, COE2T for one that contains COE2 and not
    COE1. It returns nothing exactly when the name contains none of VIVT,
    HOGT, SDEMT, COE1 and COE2. *)
Theorem module_of_file_name (name : string) :
  Py.ascii_text name ->
  let up := Py.upper name in
  match detect_module_from_filename name with
  | Some m =>
      m ∈ MODULES /\
      (forall tag i j, MODULES !! i = Some tag -> MODULES !! j = Some m ->
                       contains tag up = true -> (j <= i)%nat) /\
      (contains m up = true \/
       (Forall (fun tag => contains tag up = false) MODULES /\
        ((m = "COE1T" /\ contains "COE1" up = true) \/
         (m = "COE2T" /\ contains "COE1" up = false /\ contains "COE2" up = true))))
  | None =>
      Forall (fun stem => contains stem up = false) ["VIVT"; "HOGT"; "SDEMT"; "COE1"; "COE2"]
  end /\
  (Forall (fun stem => contains stem up = false) ["VIVT"; "HOGT"; "SDEMT"; "COE1"; "COE2"] ->
   detect_module_from_filename name = None) /\
  detect_module_from_filename (Py.upper name) = detect_module_from_filename name /\
  detect_module_from_filename (Py.lower name) = detect_module_from_filename name.
Proof.
  intros _ up.
  split; [|split; [|split; unfold detect_module_from_filename;
                           by rewrite ?upper_idem, ?upper_lower]].
  - destruct (detect_module_from_filename name) as [m|] eqn:Ed.
    + split; [by eapply detect_in_MODULES|].
      unfold detect_module_from_filename in Ed. fold up in Ed.
      destruct (find _ MODULES) as [tag0|] eqn:Ef.
      * injection Ed as ->. pose proof Ef as Ef'.
        apply find_first in Ef as (j0 & Hj0 & Hhere & Hmin). split.
        -- intros tag i j Hi Hj Hc.
           rewrite (NoDup_lookup _ _ _ _ MODULES_NoDup Hj Hj0). by apply (Hmin i tag).
        -- by left.
      * assert (Hall : Forall (fun tag => contains tag up = false) MODULES).
        { apply Forall_forall. intros tag Hin. by apply (find_none_all _ _ tag Ef). }
        split.
        -- intros tag i j Hi Hj Hc.
           pose proof (proj1 (Forall_forall _ _) Hall tag (list_elem_of_lookup_2 _ _ _ Hi)) as Hn.
           simpl in Hn. congruence.
        -- right. split; [done|].
           destruct (contains "COE1" up) eqn:E1; [injection Ed as <-; by left|].
           destruct (contains "COE2" up) eqn:E2; [injection Ed as <-; by right|done].
    + unfold detect_module_from_filename in Ed. fold up in Ed.
      destruct (find _ MODULES) as [tag0|] eqn:Ef; [done|].
      destruct (contains "COE1" up) eqn:E1; [done|].
      destruct (contains "COE2" up) eqn:E2; [done|].
      repeat constructor; try done.
      * apply (find_none_all _ _ "VIVT" Ef). by left.
      * apply (find_none_all _ _ "HOGT" Ef). right; by left.
      * apply (find_none_all _ _ "SDEMT" Ef). do 2 right; by left.
  - intros Hall. unfold detect_module_from_filename. fold up.
    inversion_clear Hall as [|? ? Hv Hall1]. inversion_clear Hall1 as [|? ? Hh Hall2].
    inversion_clear Hall2 as [|? ? Hs Hall3]. inversion_clear Hall3 as [|? ? H1 Hall4].
    inversion_clear Hall4 as [|? ? H2 _]. cbn [find MODULES].
    rewrite Hv, Hh, Hs.
    pose proof (contains_append_false "COE1" "T" up H1) as H1t.
    pose proof (contains_append_false "COE2" "T" up H2) as H2t.
    change ("COE1" +:+ "T") with "COE1T" in H1t. change ("COE2" +:+ "T") with "COE2T" in H2t.
    by rewrite H1t, H2t, H1, H2.
Qed.

Lemma module_of_file_name_witness :
  detect_module_from_filename "notes.csv" = None /\
  detect_module_from_filename (Py.lower "ENOE_COE1_SDEMT324.csv")
  = detect_module_from_filename "ENOE_COE1_SDEMT324.csv".
Proof.
  split.
  - apply (proj1 (proj2 (module_of_file_name "notes.csv" eq_refl))). repeat constructor.
  - exact (proj2 (proj2 (proj2 (module_of_file_name "ENOE_COE1_SDEMT324.csv" eq_refl)))).
Defined.

Section ReaderFacts.
Lemma read_alternates_Some f delim encs df :
  read_alternates f delim encs = Some df ->
  exists enc2, enc2 ∈ encs /\ read_python f enc2 delim = Ok df.
Proof.
  induction encs as [|enc2 encs IH]; simpl; [done|].
  destruct (read_python f enc2 delim) as [d|e] eqn:E.
  - intros [= <-]. exists enc2. split; [by left|done].
  - intros (enc3 & Hin & H)%IH. exists enc3. split; [by right|done].
Qed.
End ReaderFacts.

Section ReaderCases.
Lemma reader_cases f enc delim :
  (exists df, read_c f enc delim = Ok df /\ read_full_csv_robust f enc delim = Ok df) \/
  (exists e1, read_c f enc delim = Raise e1 /\
     ((exists df, read_python f enc delim = Ok df /\ read_full_csv_robust f enc delim = Ok df) \/
      (exists e2, read_python f enc delim = Raise e2 /\
         ((exists enc2 df, enc2 ∈ ALTERNATES /\ read_python f enc2 delim = Ok df /\
                           read_full_csv_robust f enc delim = Ok df) \/
          read_full_csv_robust f enc delim = read_lossy f delim)))).
Proof.
  unfold read_full_csv_robust.
  destruct (read_c f enc delim) as [d|e1]; [left; by exists d|].
  right. exists e1. split; [done|].
  destruct (read_python f enc delim) as [d|e2]; [left; by exists d|].
  right. exists e2. split; [done|].
  destruct e2; try (by right).
  destruct (read_alternates f delim ALTERNATES) as [d|] eqn:Ea; [|by right].
  apply read_alternates_Some in Ea as (enc2 & Hin & H). left. by exists enc2, d.
Qed.
End ReaderCases.

(** X4. A table that [read_full_csv_robust] returns is the one returned
    by the C parser, by the Python parser under the given or an alternate
    encoding, or by the lossy read. When it raises, the C parser and the
    Python parser raised, and the exception is that of the lossy read. *)
Theorem reader_outcome (f : CsvFile) (enc : encoding) (delim : delimiter) :
  match read_full_csv_robust f enc delim with
  | Ok df =>
      read_c f enc delim = Ok df \/
      (exists enc2, enc2 ∈ enc :: ALTERNATES /\ read_python f enc2 delim = Ok df) \/
      read_lossy f delim = Ok df
  | Raise e =>
      read_lossy f delim = Raise e /\
      (exists e1, read_c f enc delim = Raise e1) /\
      (exists e2, read_python f enc delim = Raise e2)
  end.
Proof.
  destruct (reader_cases f enc delim)
    as [(d & Hc & ->)|(e1 & Hc & [(d & Hp & ->)|(e2 & Hp & [(enc2 & d & Hin & Ha & ->)| ->])])].
  - by left.
  - right; left. exists enc. split; [by left|done].
  - right; left. exists enc2. split; [by right|done].
  - destruct (read_lossy f delim) as [d|e]; [by do 2 right|].
    split; [done|]. split; by eexists.
Qed.

Section ScanCount.
Lemma scan_file_log_eq st f :
  log (scan_file st f) = log st ++ from_option (fun x => [x]) [] (Scanning.skip_record f).
Proof.
  unfold scan_file, Scanning.skip_record.
  destruct (detect_module_from_filename (fname f)); simpl; [|done].
  destruct (headers_only f) as [[[cols enc] delim]|e]; simpl; [|done].
  destruct (parse_year_trim_from_name (fname f)). simpl. by rewrite app_nil_r.
Qed.

Lemma pass1_log_gen fs : forall st,
  log (foldl scan_file st fs) = log st ++ omap Scanning.skip_record fs.
Proof.
  induction fs as [|f fs IH]; intros st; simpl; [by rewrite app_nil_r|].
  rewrite IH, scan_file_log_eq, <- app_assoc. f_equal. by destruct (Scanning.skip_record f).
Qed.

Lemma kept_or_skipped f : is_Some (file_info_of f) <-> Scanning.skip_record f = None.
Proof.
  unfold file_info_of, Scanning.skip_record.
  destruct (detect_module_from_filename (fname f)).
  - destruct (headers_only f) as [[[cols enc] delim]|e].
    + destruct (parse_year_trim_from_name (fname f)). split; [done|by eexists].
    + split; [by intros [? ?]|done].
  - split; [by intros [? ?]|done].
Qed.
End ScanCount.

(** X5. [pass1] keeps or logs every file, once: the records kept are
    those of the files with a module and a readable header, in the order of
    the input; the log holds one record for each other file; the two
    lengths add up to the number of files. *)
Theorem scan_keeps_or_logs (csv_paths : list CsvFile) :
  info (pass1 csv_paths) = omap file_info_of csv_paths /\
  log (pass1 csv_paths) = omap Scanning.skip_record csv_paths /\
  (length (info (pass1 csv_paths)) + length (log (pass1 csv_paths)) = length csv_paths)%nat.
Proof.
  split; [apply pass1_info|]. split; [unfold pass1; by rewrite pass1_log_gen|].
  rewrite pass1_info. unfold pass1. rewrite pass1_log_gen. simpl.
  induction csv_paths as [|f fs IH]; [done|]. csimpl.
  pose proof (kept_or_skipped f) as Hk.
  destruct (file_info_of f) as [fi|], (Scanning.skip_record f) as [x|]; csimpl.
  - destruct Hk as [Hk _]. by specialize (Hk (mk_is_Some _ _ eq_refl)).
  - lia.
  - lia.
  - destruct Hk as [_ Hk]. by destruct (Hk eq_refl).
Qed.

Section FilesTable.
Lemma files_init m :
  module_to_files scan_init !! m
  = if decide (m ∈ MODULES)
    then Some ((fun fi => fname (fi_file fi)) <$> filter (fun fi => fi_mod fi = m) (info scan_init))
    else None.
Proof.
  change (module_to_files scan_init)
    with (list_to_map ((fun m => (m, @nil string)) <$> MODULES) : gmap string (list string)).
  destruct (decide (m ∈ MODULES)) as [Hm|Hm].
  - apply elem_of_list_to_map_1.
    + change (NoDup MODULES). apply MODULES_NoDup.
    + apply list_elem_of_fmap. by exists m.
  - apply not_elem_of_list_to_map_1. by change (m ∉ MODULES).
Qed.

Lemma files_step st f :
  (forall m, module_to_files st !! m
             = if decide (m ∈ MODULES)
               then Some ((fun fi => fname (fi_file fi))
                          <$> filter (fun fi => fi_mod fi = m) (info st))
               else None) ->
  forall m, module_to_files (scan_file st f) !! m
            = if decide (m ∈ MODULES)
              then Some ((fun fi => fname (fi_file fi))
                         <$> filter (fun fi => fi_mod fi = m) (info (scan_file st f)))
              else None.
Proof.
  intros IH m. unfold scan_file.
  destruct (detect_module_from_filename (fname f)) as [m0|] eqn:Ed; [|apply IH].
  destruct (headers_only f) as [[[cols enc] delim]|e]; [|apply IH].
  destruct (parse_year_trim_from_name (fname f)) as [a t]. cbn [module_to_files info].
  apply detect_in_MODULES in Ed. rewrite filter_app, fmap_app.
  destruct (decide (m = m0)) as [->|Hne].
  - rewrite lookup_insert_eq, (IH m0), !decide_True by done. simpl.
    rewrite filter_cons_True by done. by rewrite filter_nil.
  - rewrite lookup_insert_ne by done. rewrite (IH m).
    rewrite filter_cons_False by (simpl; congruence). rewrite filter_nil.
    simpl. by rewrite app_nil_r.
Qed.

Lemma files_fold fs : forall st,
  (forall m, module_to_files st !! m
             = if decide (m ∈ MODULES)
               then Some ((fun fi => fname (fi_file fi))
                          <$> filter (fun fi => fi_mod fi = m) (info st))
               else None) ->
  forall m, module_to_files (foldl scan_file st fs) !! m
            = if decide (m ∈ MODULES)
              then Some ((fun fi => fname (fi_file fi))
                         <$> filter (fun fi => fi_mod fi = m) (info (foldl scan_file st fs)))
              else None.
Proof.
  induction fs as [|f fs IH]; intros st H; simpl; [done|].
  apply IH. by apply files_step.
Qed.
End FilesTable.

(** X6. [module_to_files] has the modules of [MODULES] as its keys and
    no other, and lists for each module the names of the files kept for it,
    in the order of the input. *)
Theorem files_of_module (csv_paths : list CsvFile) (m : string) :
  module_to_files (pass1 csv_paths) !! m
  = if decide (m ∈ MODULES)
    then Some ((fun fi => fname (fi_file fi))
               <$> filter (fun fi => fi_mod fi = m) (info (pass1 csv_paths)))
    else None.
Proof. unfold pass1. apply files_fold. apply files_init. Qed.

(** ** The metadata and the load of one file *)
Section MetaClash.
Lemma elem_of_insert_at {A} (x y : A) n (l : list A) :
  x ∈ take n l ++ y :: drop n l <-> x = y \/ x ∈ l.
Proof.
  rewrite elem_of_app, elem_of_cons.
  assert (x ∈ l <-> x ∈ take n l \/ x ∈ drop n l) as ->
    by (by rewrite <- elem_of_app, take_drop).
  tauto.
Qed.

Lemma insert_meta_clash df s1 s2 c :
  c ∈ META -> c ∈ columns df -> exists msg, insert_meta df s1 s2 = Raise (ValueError msg).
Proof.
  intros Hmeta Hc. unfold insert_meta, insert_col.
  destruct (decide ("anio" ∈ columns df)) as [|Ha]; [by eexists|]. cbn [mbind result_bind columns].
  destruct (decide ("trimestre" ∈ _)) as [|Ht]; [by eexists|]. cbn [mbind result_bind columns].
  destruct (decide ("anio_trimestre" ∈ _)) as [|Hl]; [by eexists|]. exfalso.
  rewrite elem_of_insert_at in Ht. rewrite !elem_of_insert_at in Hl.
  unfold META in Hmeta.
  apply elem_of_cons in Hmeta as [->|Hmeta]; [done|].
  apply elem_of_cons in Hmeta as [->|Hmeta]; [apply Ht; by right|].
  apply list_elem_of_singleton in Hmeta as ->. apply Hl. right. by right.
Qed.

Lemma add_meta_cols_clash df a t c :
  c ∈ META -> c ∈ columns df -> exists msg, add_meta_cols df a t = Raise (ValueError msg).
Proof.
  intros Hmeta Hc. unfold add_meta_cols.
  destruct a as [a|], t as [t|]; try destruct (derive_year_trim_from_per df);
    by apply (insert_meta_clash df _ _ c).
Qed.

(** [add_meta_cols] on a table without columns named like the metadata:
    every row gets its metadata cells in front. *)
Lemma add_meta_cols_rows fi df :
  (forall c, c ∈ META -> c ∉ columns df) ->
  add_meta_cols df (fi_anio fi) (fi_tri fi)
  = Ok {| columns := META ++ columns df;
          rows := (fun r => row_meta fi df r ++ r) <$> rows df |}.
Proof.
  intros Hfree. destruct (add_meta_cols_series fi df) as (h1 & h2 & -> & Hrow).
  rewrite (insert_meta_rows df h1 h2 Hfree). f_equal. f_equal.
  apply list_fmap_ext. intros _ r _. by rewrite <- Hrow.
Qed.
End MetaClash.

(** X7. When the table read from a file already has a column named
    [anio], [trimestre] or [anio_trimestre], [add_meta_cols] raises
    [ValueError], since [df.insert] refuses a name that exists, and so does
    [load_one]. *)
Theorem meta_name_clash_raises (fi : FileInfo) (final_cols : list string) (df : DataFrame)
    (c : string) :
  read_full_csv_robust (fi_file fi) (fi_encoding fi) (fi_delimiter fi) = Ok df ->
  c ∈ META -> c ∈ columns df ->
  (exists msg, add_meta_cols df (fi_anio fi) (fi_tri fi) = Raise (ValueError msg)) /\
  (exists msg, load_one fi final_cols = Raise (ValueError msg)).
Proof.
  intros Hread Hmeta Hc.
  destruct (add_meta_cols_clash df (fi_anio fi) (fi_tri fi) c Hmeta Hc) as [msg Hm].
  split; [by exists msg|]. exists msg. unfold load_one. rewrite Hread. cbn [mbind result_bind].
  by rewrite Hm.
Qed.

Lemma meta_name_clash_raises_witness :
  (exists msg, add_meta_cols Samples.anio_table (Some 2024) (Some 3) = Raise (ValueError msg)) /\
  (exists msg, load_one (info_of Samples.anio_file) META = Raise (ValueError msg)).
Proof.
  apply (meta_name_clash_raises (info_of Samples.anio_file) META Samples.anio_table "anio").
  - reflexivity.
  - by left.
  - by left.
Defined.



(** X8. For a file without a period in its name, a row whose period
    cell holds no digit, a missing value included, gets the year 2000, the
    quarter 0 and the label [2000T0], not nulls. *)
Theorem period_without_digits (fi : FileInfo) (df : DataFrame) (per_col : string) (k : nat)
    (r : list pyval) :
  fi_anio fi = None ->
  (forall c, c ∈ META -> c ∉ columns df) ->
  find_col_ci (columns df) "per" = Some per_col ->
  rows df !! k = Some r ->
  Py.filter_chars Py.is_digit (astype_str (lookup_cell (columns df) r per_col)) = "" ->
  exists df', add_meta_cols df (fi_anio fi) (fi_tri fi) = Ok df' /\
              rows df' !! k = Some ([PyInt 2000; PyInt 0; PyStr "2000T0"] ++ r).
Proof.
  intros Hname Hfree Hper Hk Hdig. eexists. split; [by apply add_meta_cols_rows|].
  cbn [rows]. rewrite list_lookup_fmap, Hk. cbn [fmap option_fmap option_map]. f_equal. f_equal.
  unfold row_meta. rewrite Hname, Hper. unfold per_digits. by rewrite Hdig.
Qed.

Lemma period_without_digits_witness :
  exists df', add_meta_cols Samples.per_null_table None None = Ok df' /\
              rows df' !! 1%nat = Some ([PyInt 2000; PyInt 0; PyStr "2000T0"] ++ [PyNone; PyStr "b"]).
Proof.
  apply (period_without_digits (info_of Samples.per_null_file) Samples.per_null_table "PER"
           1%nat [PyNone; PyStr "b"]).
  - reflexivity.
  - intros c Hc.
    assert (H : bool_decide (Forall (fun c => c ∉ columns Samples.per_null_table) META) = true)
      by (vm_compute; reflexivity).
    apply bool_decide_eq_true in H. exact (proj1 (Forall_forall _ _) H c Hc).
  - reflexivity.
  - reflexivity.
  - reflexivity.
Defined.



(** ** What a run touches, and the coverage report *)
Section RunFrame.
Variable list_of_set : gset string -> list string.

Implicit Types (file_info : list FileInfo) (mu : gmap string (gset string)) (w : World).

Lemma build_module_empty file_info mu w m :
  filter (fun fi => fi_mod fi = m) file_info = [] ->
  build_module list_of_set file_info mu w m = (w, Ok tt).
Proof. intros H. unfold build_module. by rewrite H. Qed.

Lemma build_module_reports file_info mu w w' r m :
  build_module list_of_set file_info mu w m = (w', r) ->
  (forall q, q <> cov_csv_of m -> reports w' !! q = reports w !! q) /\
  (r = Ok tt -> filter (fun fi => fi_mod fi = m) file_info <> [] ->
   exists U, mu !! m = Some U /\
     reports w' !! cov_csv_of m
     = Some (coverage_of (final_cols_of list_of_set U)
               (filter (fun fi => fi_mod fi = m) file_info))).
Proof.
  unfold build_module.
  destruct (filter (fun fi => fi_mod fi = m) file_info) as [|fi0 fis] eqn:Ef.
  { intros [= <- <-]. done. }
  destruct (mu !! m) as [U|]; [|intros [= <- <-]; done].
  destruct (write_single_parquet_from_ddf _ _ _) as [fs [[]|e]].
  - intros [= <- <-]. cbn [reports]. split.
    + intros q Hq. by rewrite lookup_insert_ne.
    + intros _ _. exists U. split; [done|]. by rewrite lookup_insert_eq.
  - intros [= <- <-]. done.
Qed.

Lemma build_modules_frame mods file_info mu : forall w w' r,
  build_modules list_of_set mods file_info mu w = (w', r) ->
  (forall p, (forall m, m ∈ mods -> filter (fun fi => fi_mod fi = m) file_info <> [] ->
                        p <> out_path_of m) ->
             parquet w' !! p = parquet w !! p) /\
  (forall q, (forall m, m ∈ mods -> filter (fun fi => fi_mod fi = m) file_info <> [] ->
                        q <> cov_csv_of m) ->
             reports w' !! q = reports w !! q).
Proof.
  induction mods as [|m0 mods IH]; intros w w' r; simpl.
  - by intros [= <- <-].
  - destruct (build_module list_of_set file_info mu w m0) as [w1 r1] eqn:E.
    assert (H1 : (forall p, (filter (fun fi => fi_mod fi = m0) file_info <> [] ->
                             p <> out_path_of m0) ->
                            parquet w1 !! p = parquet w !! p) /\
                 (forall q, (filter (fun fi => fi_mod fi = m0) file_info <> [] ->
                             q <> cov_csv_of m0) ->
                            reports w1 !! q = reports w !! q)).
    { destruct (filter (fun fi => fi_mod fi = m0) file_info) as [|fi0 fis] eqn:Ef.
      - rewrite (build_module_empty file_info mu w m0 Ef) in E. by injection E as <- <-.
      - pose proof (build_module_frame list_of_set file_info mu w w1 r1 m0 E) as Hp.
        pose proof (build_module_reports file_info mu w w1 r1 m0 E) as [Hq _].
        split; [intros p Hp'; by apply Hp, Hp'|intros q Hq'; by apply Hq, Hq']. }
    destruct H1 as [Hp1 Hq1].
    destruct r1 as [[]|e].
    + intros Hb. destruct (IH w1 w' r Hb) as [Hp Hq]. split.
      * intros p Hall. rewrite Hp by (intros m ? ?; apply Hall; [by right|done]).
        apply Hp1. intros ?. apply Hall; [by left|done].
      * intros q Hall. rewrite Hq by (intros m ? ?; apply Hall; [by right|done]).
        apply Hq1. intros ?. apply Hall; [by left|done].
    + intros [= <- <-]. split.
      * intros p Hall. apply Hp1. intros ?. apply Hall; [by left|done].
      * intros q Hall. apply Hq1. intros ?. apply Hall; [by left|done].
Qed.

Lemma build_modules_reports mods file_info mu : forall w w',
  NoDup (cov_csv_of <$> mods) ->
  build_modules list_of_set mods file_info mu w = (w', Ok tt) ->
  forall m, m ∈ mods -> filter (fun fi => fi_mod fi = m) file_info <> [] ->
  exists U, mu !! m = Some U /\
    reports w' !! cov_csv_of m
    = Some (coverage_of (final_cols_of list_of_set U)
              (filter (fun fi => fi_mod fi = m) file_info)).
Proof.
  induction mods as [|m0 mods IH]; intros w w' Hnd Hb m Hin Hne; simpl in *.
  - by apply elem_of_nil in Hin.
  - apply NoDup_cons in Hnd as [Hfresh Hnd].
    destruct (build_module list_of_set file_info mu w m0) as [w1 [[]|e]] eqn:E; [|done].
    destruct (decide (m ∈ mods)) as [Hm|Hm]; [by apply (IH w1 w' Hnd Hb m Hm)|].
    apply elem_of_cons in Hin as [->|?]; [|done].
    destruct (build_module_reports file_info mu w w1 (Ok tt) m0 E) as [_ Hrep].
    destruct (Hrep eq_refl Hne) as (U & HU & Hr). exists U. split; [done|].
    etransitivity; [|exact Hr].
    apply (build_modules_frame mods file_info mu w1 w' (Ok tt) Hb).
    intros m' Hm' _ Heq. apply Hfresh. rewrite Heq. apply list_elem_of_fmap. by exists m'.
Qed.
End RunFrame.

(** X10. Whatever its outcome, a run leaves as they were every
    Parquet file and every report other than those of the modules that have
    a scanned file: the output that an earlier run left for a module
    without files stays. *)
Theorem run_touches_only_its_outputs (list_of_set : gset string -> list string)
    (csv_paths : list CsvFile) (w w' : World) (lg : list log_record) (r : result unit)
    (p : string) :
  main list_of_set csv_paths w = (w', lg, r) ->
  (forall fi, fi ∈ info (pass1 csv_paths) ->
     p <> out_path_of (fi_mod fi) /\ p <> cov_csv_of (fi_mod fi)) ->
  parquet w' !! p = parquet w !! p /\ reports w' !! p = reports w !! p.
Proof.
  unfold main. destruct csv_paths as [|f0 fs0]; [by intros [= <- _ _]|].
  destruct (build_with_dask _ _ _ _) as [w1 r1] eqn:E. intros [= <- _ _] Hfree.
  destruct (build_modules_frame list_of_set MODULES _ _ w w1 r1 E) as [Hp Hq].
  assert (Hfi : forall m, filter (fun fi => fi_mod fi = m) (info (pass1 (f0 :: fs0))) <> [] ->
                          exists fi, fi ∈ info (pass1 (f0 :: fs0)) /\ fi_mod fi = m).
  { intros m Hne. destruct (filter _ _) as [|fi fis] eqn:Ef; [done|].
    assert (Hin : fi ∈ filter (fun fi => fi_mod fi = m) (info (pass1 (f0 :: fs0))))
      by (rewrite Ef; by left).
    apply list_elem_of_filter in Hin as [? ?]. by exists fi. }
  split.
  - apply Hp. intros m _ Hne. destruct (Hfi m Hne) as (fi & Hin & <-). by apply Hfree.
  - apply Hq. intros m _ Hne. destruct (Hfi m Hne) as (fi & Hin & <-). by apply Hfree.
Qed.

Lemma run_touches_only_its_outputs_witness :
  let w' := fst (fst (main elements [hogt_upper; hogt_lower] Samples.stale_world)) in
  parquet w' !! "enoe_master_vivt.parquet" = Some Samples.old_vivt /\
  reports w' !! "enoe_master_vivt.parquet" = None.
Proof.
  apply (run_touches_only_its_outputs elements [hogt_upper; hogt_lower] Samples.stale_world
           (fst (fst (main elements [hogt_upper; hogt_lower] Samples.stale_world)))
           (snd (fst (main elements [hogt_upper; hogt_lower] Samples.stale_world)))
           (snd (main elements [hogt_upper; hogt_lower] Samples.stale_world))).
  - by destruct (main elements [hogt_upper; hogt_lower] Samples.stale_world) as [[? ?] ?].
  - intros fi Hin.
    assert (H : bool_decide (Forall (fun fi => "enoe_master_vivt.parquet" <> out_path_of (fi_mod fi)
                                               /\ "enoe_master_vivt.parquet" <> cov_csv_of (fi_mod fi))
                                    (omap file_info_of [hogt_upper; hogt_lower])) = true)
      by (vm_compute; reflexivity).
    apply bool_decide_eq_true in H. rewrite pass1_info in Hin.
    exact (proj1 (Forall_forall _ _) H fi Hin).
Defined.

(** X11. After a completed run the coverage report of a module lists the
    columns of its schema, in order, each with the number of the module's
    files whose header has the column and with the number of the module's
    files. The first number never exceeds the second, and is at least one
    for every column other than the metadata. *)
Theorem coverage_report (list_of_set : gset string -> list string)
    (csv_paths : list CsvFile) (w w' : World) (lg : list log_record) (m : string) :
  (forall X, list_of_set X ≡ₚ elements X) ->
  main list_of_set csv_paths w = (w', lg, Ok tt) ->
  (exists fi, fi ∈ info (pass1 csv_paths) /\ fi_mod fi = m) ->
  exists U cov,
    module_to_union (pass1 csv_paths) !! m = Some U /\
    reports w' !! cov_csv_of m = Some cov /\
    (fun x => x.1.1) <$> cov = final_cols_of list_of_set U /\
    forall col cnt tot, (col, cnt, tot) ∈ cov ->
      tot = length (filter (fun fi => fi_mod fi = m) (info (pass1 csv_paths))) /\
      cnt = length (filter (fun fi => col ∈ fi_cols fi)
                      (filter (fun fi => fi_mod fi = m) (info (pass1 csv_paths)))) /\
      (cnt <= tot)%nat /\
      (col ∉ META -> (1 <= cnt)%nat).
Proof.
  intros Hperm Hmain (fi0 & Hin0 & Hm0).
  assert (Hne : filter (fun fi => fi_mod fi = m) (info (pass1 csv_paths)) <> []).
  { intros Hnil. assert (H : fi0 ∈ filter (fun fi => fi_mod fi = m) (info (pass1 csv_paths)))
      by (by apply list_elem_of_filter).
    rewrite Hnil in H. by apply elem_of_nil in H. }
  unfold main in Hmain. destruct csv_paths as [|f0 fs0]; [done|].
  destruct (build_with_dask _ _ _ _) as [w1 r1] eqn:E. injection Hmain as <- _ ->.
  destruct (build_modules_reports list_of_set MODULES _ _ w w1 cov_paths_NoDup E m)
    as (U & HU & Hrep); [rewrite <- Hm0; by eapply info_mod_in_MODULES|done|].
  exists U, (coverage_of (final_cols_of list_of_set U)
               (filter (fun fi => fi_mod fi = m) (info (pass1 (f0 :: fs0))))).
  split; [done|]. split; [done|]. split.
  { unfold coverage_of. rewrite <- list_fmap_compose. apply list_fmap_id. }
  intros col cnt tot Hcov. unfold coverage_of in Hcov.
  apply list_elem_of_fmap in Hcov as (col' & [= -> -> ->] & Hcol).
  split; [done|]. split; [done|]. split; [apply length_filter|].
  intros Hnm.
  assert (HcU : col' ∈ U).
  { rewrite final_cols_split in Hcol. apply elem_of_app in Hcol as [?|Hcol]; [done|].
    by apply (schema_rest_elem list_of_set Hperm) in Hcol as [_ ?]. }
  destruct (union_inv_pass1 (f0 :: fs0)) as [Hu _].
  apply (Hu m U HU) in HcU as (fi & Hfi & Hfm & Hfc).
  assert (Hmem : fi ∈ filter (fun fi => col' ∈ fi_cols fi)
                   (filter (fun fi => fi_mod fi = m) (info (pass1 (f0 :: fs0))))).
  { apply list_elem_of_filter. split; [done|]. by apply list_elem_of_filter. }
  destruct (filter (fun fi => col' ∈ fi_cols fi) _) as [|x xs]; [by apply elem_of_nil in Hmem|].
  simpl. lia.
Qed.

Lemma coverage_report_witness :
  exists U cov,
    module_to_union (pass1 [hogt_upper; hogt_lower]) !! "HOGT" = Some U /\
    reports (fst (fst (main elements [hogt_upper; hogt_lower] empty_world)))
      !! cov_csv_of "HOGT" = Some cov /\
    (fun x => x.1.1) <$> cov = final_cols_of elements U /\
    forall col cnt tot, (col, cnt, tot) ∈ cov ->
      tot = length (filter (fun fi => fi_mod fi = "HOGT") (info (pass1 [hogt_upper; hogt_lower]))) /\
      cnt = length (filter (fun fi => col ∈ fi_cols fi)
                      (filter (fun fi => fi_mod fi = "HOGT")
                              (info (pass1 [hogt_upper; hogt_lower])))) /\
      (cnt <= tot)%nat /\
      (col ∉ META -> (1 <= cnt)%nat).
Proof.
  eapply (coverage_report elements [hogt_upper; hogt_lower] empty_world).
  - intros X. reflexivity.
  - vm_compute. reflexivity.
  - exists (info_of hogt_upper). split; [|reflexivity]. apply list_elem_of_here.
Defined.

(** ** The fallback of the delimiter sniffer, and the writer *)
Section MaxKey.
Context {A : Type} (key : A -> nat).

(** [max_key] returns the first element of greatest key. *)
Lemma max_key_first (l : list A) : forall best,
  exists j, (best :: l) !! j = Some (Sniffer.max_key key best l) /\
    forall i x, (best :: l) !! i = Some x ->
      (key x <= key (Sniffer.max_key key best l))%nat /\
      ((i < j)%nat -> (key x < key (Sniffer.max_key key best l))%nat).
Proof.
  induction l as [|y l IH]; intros best; cbn [Sniffer.max_key].
  - exists 0%nat. split; [done|]. intros [|i] x Hi; simpl in Hi; [|done].
    injection Hi as <-. split; [done|lia].
  - destruct (Nat.ltb_spec (key best) (key y)) as [Hlt|Hge].
    + destruct (IH y) as (j & Hj & Hall). exists (S j). split; [done|].
      intros [|i] x Hi; simpl in Hi.
      * injection Hi as <-. destruct (Hall 0%nat y eq_refl) as [Hy _]. split; lia.
      * destruct (Hall i x Hi) as [H1 H2]. split; [done|]. intros ?. apply H2. lia.
    + destruct (IH best) as (j & Hj & Hall). destruct j as [|j].
      * exists 0%nat. split; [done|]. simpl in Hj. injection Hj as Hj.
        intros [|[|i]] x Hi; simpl in Hi.
        -- injection Hi as <-. rewrite <- Hj. split; [done|lia].
        -- injection Hi as <-. rewrite <- Hj. split; [done|lia].
        -- destruct (Hall (S i) x Hi) as [H1 _]. split; [done|lia].
      * exists (S (S j)). split; [done|].
        destruct (Hall 0%nat best eq_refl) as [_ Hb]. specialize (Hb (Nat.lt_0_succ _)).
        intros [|[|i]] x Hi; simpl in Hi.
        -- injection Hi as <-. split; lia.
        -- injection Hi as <-. split; lia.
        -- destruct (Hall (S i) x Hi) as [H1 H2]. split; [done|]. intros ?. apply H2. lia.
Qed.
End MaxKey.

(** X12. When the sniffer of the csv library fails, [sniff_delimiter]
    returns the candidate that occurs most often in the first line of the
    sample, and among candidates of equal count the first of comma,
    semicolon, bar and tab: every candidate before the one returned occurs
    strictly less often. *)
Theorem sniff_delimiter_fallback (text : string) :
  let line := Sniffer.first_line text in
  let cnt := fun d => Sniffer.count (Sniffer.delimiter_char d) line in
  let d := Sniffer.sniff_delimiter None text in
  (forall d', (cnt d' <= cnt d)%nat) /\
  exists j, DELIMITERS !! j = Some d /\
    forall i d', DELIMITERS !! i = Some d' -> (i < j)%nat -> (cnt d' < cnt d)%nat.
Proof.
  cbv zeta. unfold Sniffer.sniff_delimiter, DELIMITERS.
  destruct (max_key_first
              (fun d => Sniffer.count (Sniffer.delimiter_char d) (Sniffer.first_line text))
              [Semicolon; Pipe; Tab] Comma) as (j & Hj & Hall).
  split.
  - intros d'.
    assert (Hin : exists i, [Comma; Semicolon; Pipe; Tab] !! i = Some d').
    { destruct d'; [by exists 0%nat|by exists 1%nat|by exists 2%nat|by exists 3%nat]. }
    destruct Hin as [i Hi]. by destruct (Hall i d' Hi).
  - exists j. split; [done|]. intros i d' Hi Hlt. destruct (Hall i d' Hi) as [_ H]. by apply H.
Qed.

Section AlignFacts.
Lemma align_rows cw t :
  well_formed (pdf t) ->
  rows (pdf (align cw t)) = (fun r => lookup_cell (columns (pdf t)) r <$> cw) <$> rows (pdf t).
Proof.
  intros Hwf. unfold align. cbn [pdf]. destruct (pdf t) as [cols rs]. cbn [columns rows] in *.
  rewrite <- (list_fmap_id rs) at 1.
  rewrite (reindex_pad cw cw cols rs id).
  - unfold reindex. cbn [rows columns]. by rewrite list_fmap_id.
  - intros r Hr. exact (proj1 (Forall_forall _ _) Hwf r Hr).
Qed.

Lemma align_fits cw tw t :
  same_schema cw tw (align cw t) = true <-> type_of t <$> cw = tw.
Proof.
  rewrite same_schema_spec. unfold align, reindex. cbn [pdf types columns]. tauto.
Qed.

Lemma type_of_missing t c : c ∉ columns (pdf t) -> type_of t c = ArrowNull.
Proof. intros H. unfold type_of. by rewrite (proj1 (index_of_None _ _) H). Qed.
End AlignFacts.

(** X13. A partition whose Arrow schema (names and types, in order)
    is the writer's is written as it is. Any other partition is aligned:
    its cells are taken by the name of the column in the order of the
    writer's columns, a column that the partition lacks is null and typed
    [null], and the columns that the writer does not have are dropped. The
    aligned partition is accepted exactly when every column of the writer
    has the writer's type in it; a partition that lacks a column to which
    the writer gives another type than [null] is refused by
    [writer.write_table] with a [ValueError], and nothing of it is
    written. *)
Theorem partition_alignment (cols_writer : list string) (types_writer : list arrow_type)
    (t : ArrowTable) :
  well_formed (pdf t) ->
  (same_schema cols_writer types_writer t = true ->
   aligned cols_writer types_writer t = t) /\
  (same_schema cols_writer types_writer t = false ->
   columns (pdf (aligned cols_writer types_writer t)) = cols_writer /\
   rows (pdf (aligned cols_writer types_writer t))
   = (fun r => lookup_cell (columns (pdf t)) r <$> cols_writer) <$> rows (pdf t) /\
   types (aligned cols_writer types_writer t) = type_of t <$> cols_writer /\
   (same_schema cols_writer types_writer (aligned cols_writer types_writer t) = true <->
    type_of t <$> cols_writer = types_writer)) /\
  (forall i c ty,
     cols_writer !! i = Some c -> types_writer !! i = Some ty ->
     c ∉ columns (pdf t) -> ty <> ArrowNull ->
     forall out_path fs rest,
       write_rest (Ok t :: rest) out_path cols_writer types_writer fs
       = (fs, Raise schema_mismatch)).
Proof.
  intros Hwf. split; [apply aligned_same|]. split.
  - intros Hs. unfold aligned. rewrite Hs. split; [done|]. split; [by apply align_rows|].
    split; [done|]. apply align_fits.
  - intros i c ty Hc Hty Hmiss Hnull out_path fs rest.
    assert (Hs : same_schema cols_writer types_writer t = false).
    { apply not_true_iff_false. intros [Hcols _]%same_schema_spec. apply Hmiss.
      rewrite Hcols. by eapply list_elem_of_lookup_2. }
    cbn [write_rest]. unfold aligned. rewrite Hs.
    assert (Hn : same_schema cols_writer types_writer (align cols_writer t) = false).
    { apply not_true_iff_false. intros Hfit%align_fits.
      assert (Hi : (type_of t <$> cols_writer) !! i = Some ArrowNull)
        by (by rewrite list_lookup_fmap, Hc, <- (type_of_missing t c Hmiss)).
      rewrite Hfit, Hty in Hi. by injection Hi. }
    by rewrite Hn.
Qed.

Lemma partition_alignment_witness :
  rows (pdf (aligned ["x"; "per"] [ArrowNull; ArrowString]
               {| pdf := per_table; types := [ArrowString] |}))
  = [[PyNone; PyStr "123"]] /\
  write_rest [Ok {| pdf := per_table; types := [ArrowString] |}] "out.parquet"
    ["x"; "per"] [ArrowString; ArrowString] ∅
  = (∅, Raise schema_mismatch).
Proof.
  pose proof (partition_alignment ["x"; "per"] [ArrowNull; ArrowString]
                {| pdf := per_table; types := [ArrowString] |}) as H1.
  pose proof (partition_alignment ["x"; "per"] [ArrowString; ArrowString]
                {| pdf := per_table; types := [ArrowString] |}) as H2.
  split.
  - apply H1; [repeat constructor|reflexivity].
  - apply (proj2 (proj2 (H2 ltac:(repeat constructor))) 0%nat "x" ArrowString);
      [reflexivity|reflexivity| |discriminate].
    intros Hin. cbn in Hin. apply list_elem_of_singleton in Hin. discriminate Hin.
Defined.

(** X14. [write_single_parquet_from_ddf] touches no path but
    [out_path]. Without partitions it raises [RuntimeError], and when the
    first partition raises it raises the same, the file untouched in both
    cases. Otherwise the file is opened anew with the columns of the first
    partition and, in the end, is closed and holds the rows of the first
    partition followed by those of the partitions written after it, in
    order, each as it was or aligned: the function returns when every
    partition was written, raises the exception of the first partition
    whose computation raises, and raises [ValueError] at the first
    partition that does not fit the writer's schema after the
    alignment. *)
Theorem single_file_writer (parts : list (result ArrowTable)) (out_path : string)
    (fs : gmap string ParquetFile) :
  let '(fs', r) := write_single_parquet_from_ddf parts out_path fs in
  (forall p, p <> out_path -> fs' !! p = fs !! p) /\
  match parts with
  | [] => fs' = fs /\ r = Raise (RuntimeError "No hay particiones que escribir.")
  | Raise e :: _ => fs' = fs /\ r = Raise e
  | Ok first :: rest =>
      let cw := columns (pdf first) in
      let tw := types first in
      exists done tail,
        rest = (Ok <$> done) ++ tail /\
        Forall (fun p => same_schema cw tw (aligned cw tw p) = true) done /\
        fs' !! out_path
        = Some {| schema := cw;
                  table := rows (pdf first)
                           ++ concat ((fun p => rows (pdf (aligned cw tw p))) <$> done);
                  closed := true |} /\
        match tail with
        | [] => r = Ok tt
        | Raise e :: _ => r = Raise e
        | Ok p :: _ => same_schema cw tw (aligned cw tw p) = false /\ r = Raise schema_mismatch
        end
  end.
Proof.
  destruct (write_single_parquet_from_ddf parts out_path fs) as [fs' r] eqn:E.
  split; [by eapply write_single_other|].
  unfold write_single_parquet_from_ddf in E. destruct parts as [|[first|e] rest].
  - by injection E as <- <-.
  - destruct (write_rest rest _ _ _ _) as [fs1 r1] eqn:Er. injection E as <- <-.
    apply write_rest_spec in Er as (done & tail & Hrest & Hfit & _ & Hpath & Htail).
    exists done, tail. split; [done|]. split; [done|]. split; [|done].
    unfold close_writer. rewrite lookup_alter_eq, Hpath. unfold write_table, open_writer.
    by rewrite lookup_alter_eq, lookup_insert_eq.
  - by injection E as <- <-.
Qed.

(** ** Table codes and ranks *)
Section SubstringFacts.
Lemma length_app_string a b : String.length (a +:+ b) = (String.length a + String.length b)%nat.
Proof.
  induction a as [|c a IH]; [done|].
  change (String c a +:+ b) with (String c (a +:+ b)). simpl. by rewrite IH.
Qed.

Lemma substring_app_l a b : String.substring 0 (String.length a) (a +:+ b) = a.
Proof.
  induction a as [|c a IH]; [by destruct b|].
  change (String c a +:+ b) with (String c (a +:+ b)). simpl. by rewrite IH.
Qed.

Lemma substring_app_r a b m :
  String.substring (String.length a) m (a +:+ b) = String.substring 0 m b.
Proof.
  induction a as [|c a IH]; [done|].
  change (String c a +:+ b) with (String c (a +:+ b)). simpl. exact IH.
Qed.

Lemma substring_length s : forall n m,
  (n + m <= String.length s)%nat -> String.length (String.substring n m s) = m.
Proof.
  induction s as [|c s IH]; intros n m H; simpl in H.
  - assert (n = 0%nat /\ m = 0%nat) as [-> ->] by lia. done.
  - destruct n as [|n]; simpl.
    + destruct m as [|m]; [done|]. simpl. rewrite IH by lia. done.
    + apply IH. lia.
Qed.

Lemma nat_digits_ge s : forall acc n, 0 <= acc -> Py.nat_digits acc s = Some n -> 0 <= n.
Proof.
  induction s as [|c s IH]; intros acc n Hacc; simpl.
  - by intros [= <-].
  - destruct (Py.is_digit c) eqn:Ec; [|done]. apply IH.
    apply digit_val_range in Ec. lia.
Qed.
End SubstringFacts.

Section TablaFacts.
Lemma match_tabla_base_Some s pref t yy :
  match_tabla_base s = Some (pref, t, yy) ->
  Py.is_digit t = true /\
  exists d1 d2, yy = String d1 (String d2 "") /\ Py.is_digit d1 = true /\ Py.is_digit d2 = true.
Proof.
  unfold match_tabla_base.
  destruct (Nat.ltb_spec (String.length s) 4) as [|Hlen]; [done|].
  pose proof (substring_length s (String.length s - 3) 3 ltac:(lia)) as Hl.
  destruct (String.substring (String.length s - 3) 3 s) as [|t' [|d1 [|d2 [|? ?]]]]; try done.
  destruct (_ && _) eqn:E; [|done]. intros [= <- <- <-].
  apply andb_true_iff in E as [[_ Ht]%andb_true_iff Hyy]. simpl in Hyy.
  apply andb_true_iff in Hyy as [H1 [H2 _]%andb_true_iff].
  split; [done|]. by exists d1, d2.
Qed.

Lemma parse_tabla_base_ranges a :
  0 <= (parse_tabla_base a).1.2 <= 9 /\ 0 <= (parse_tabla_base a).2 <= 99.
Proof.
  unfold parse_tabla_base.
  destruct (match_tabla_base (Py.upper (Py.strip a))) as [[[pref t] yy]|] eqn:E; simpl; [|lia].
  apply match_tabla_base_Some in E as (Ht & d1 & d2 & -> & H1 & H2).
  rewrite int_digit_head, !nat_digits_cons by done. simpl.
  apply digit_val_range in Ht, H1, H2. lia.
Qed.
End TablaFacts.

(** X15. For the quarter and the year that [parse_tabla_base] reads from
    any two table codes: the quarter lies between 0 and 9 and the year
    between 0 and 99; [year_quarter_rank] orders by year, then quarter; and
    two ranks are equal only for the same year and quarter. *)
Theorem rank_is_chronological (a b : string) :
  let '(_, t1, y1) := parse_tabla_base a in
  let '(_, t2, y2) := parse_tabla_base b in
  (0 <= t1 <= 9 /\ 0 <= y1 <= 99) /\
  (year_quarter_rank t1 y1 < year_quarter_rank t2 y2 <-> y1 < y2 \/ (y1 = y2 /\ t1 < t2)) /\
  (year_quarter_rank t1 y1 = year_quarter_rank t2 y2 <-> y1 = y2 /\ t1 = t2).
Proof.
  pose proof (parse_tabla_base_ranges a) as Ha. pose proof (parse_tabla_base_ranges b) as Hb.
  destruct (parse_tabla_base a) as [[b1 t1] y1], (parse_tabla_base b) as [[b2 t2] y2].
  simpl in Ha, Hb. unfold year_quarter_rank. split; [done|]. split; lia.
Qed.

(** X16. A table code that, stripped and upper-cased, is a non-empty
    prefix of capitals and digits followed by three digits parses into the
    canonical base of the prefix, the first of the three digits as quarter
    and the other two as year. *)
Theorem table_code_parts (tabla pref : string) (t d1 d2 : ascii) :
  Py.upper (Py.strip tabla) = pref +:+ String t (String d1 (String d2 "")) ->
  pref <> "" ->
  Py.all_chars is_base_char pref = true ->
  Py.is_digit t = true -> Py.is_digit d1 = true -> Py.is_digit d2 = true ->
  parse_tabla_base tabla
  = (canon_base pref, Py.digit_val t, 10 * Py.digit_val d1 + Py.digit_val d2).
Proof.
  intros Hs Hne Hpref Ht H1 H2. unfold parse_tabla_base. rewrite Hs.
  unfold match_tabla_base. rewrite length_app_string. cbn [String.length].
  assert (Hlen : (1 <= String.length pref)%nat) by (destruct pref; [done|simpl; lia]).
  destruct (Nat.ltb_spec (String.length pref + 3) 4) as [|_]; [lia|].
  replace (String.length pref + 3 - 3)%nat with (String.length pref) by lia.
  rewrite substring_app_l, substring_app_r. cbn [String.substring].
  rewrite Hpref, Ht. cbn [Py.all_chars]. rewrite H1, H2. cbn [andb].
  rewrite int_digit_head, !nat_digits_cons by done. cbn [Py.nat_digits default].
  f_equal; lia.
Qed.

Lemma table_code_parts_witness :
  parse_tabla_base " sdem324 " = ("SDEMT", 3, 24).
Proof.
  apply (table_code_parts " sdem324 " "SDEM" "3" "2" "4"); reflexivity || done.
Defined.

(** ** Registered keys and looked-up variants *)
Section VariantFacts.
Lemma dedup_elem l : forall (seen : gset string) k,
  k ∈ dedup_keep_first seen l <-> k ∈ l /\ k ∉ seen.
Proof.
  induction l as [|x l IH]; intros seen k; simpl.
  - split; [by intros ?%elem_of_nil|by intros [?%elem_of_nil _]].
  - destruct (decide (x ∈ seen)) as [Hx|Hx].
    + rewrite IH, elem_of_cons. split; [intros [? ?]; split; [by right|done]|].
      intros [[->|?] ?]; [done|by split].
    + rewrite !elem_of_cons, IH, elem_of_union, elem_of_singleton. split.
      * intros [->|[? ?]]; [split; [by left|done]|]. split; [by right|]. tauto.
      * intros [[->|?] ?]; [by left|]. destruct (decide (k = x)) as [->|]; [by left|].
        right. split; [done|]. tauto.
Qed.

(** Removing the repeated variants does not change what the lookup
    finds. *)
Lemma lookup_first_dedup (mp : gmap string string) l : forall (seen : gset string),
  (forall k, k ∈ seen -> k ∉ dom mp) ->
  lookup_first mp (dedup_keep_first seen l) = lookup_first mp l.
Proof.
  induction l as [|x l IH]; intros seen Hseen; simpl; [done|].
  destruct (decide (x ∈ seen)) as [Hx|Hx].
  - rewrite (decide_False (P := x ∈ dom mp)) by (by apply Hseen). by apply IH.
  - simpl. destruct (decide (x ∈ dom mp)) as [Hd|Hd]; [done|].
    apply IH. intros k [->%elem_of_singleton|?]%elem_of_union; [done|by apply Hseen].
Qed.

Lemma lookup_udf_raw (mp : gmap string string) (v : pyval) :
  lookup_udf mp v
  = match v with
    | PyNone => None
    | _ =>
        let s := Py.strip (py_str v) in
        lookup_first mp
          (if negb (Py.fullmatch_int s) then [s; Py.upper s]
           else match Py.int s with
                | Some n => [s; Py.str n]
                            ++ (if (0 <=? n) && (n <? 100) then [Py.fmt_02d n] else [])
                | None => [s]
                end)
    end.
Proof.
  unfold lookup_udf, norm_variants.
  destruct v; [done| |]; apply lookup_first_dedup; intros k Hk; by apply not_elem_of_empty in Hk.
Qed.

Lemma all_digits_upper s : Py.all_chars Py.is_digit (Py.upper s) = Py.all_chars Py.is_digit s.
Proof.
  induction s as [|c s IH]; [done|].
  change (Py.upper (String c s)) with (String (Py.upper_char c) (Py.upper s)). simpl.
  by rewrite is_digit_upper_char, IH.
Qed.

Lemma fullmatch_int_cons c r :
  c <> "-"%char -> Py.fullmatch_int (String c r) = Py.all_chars Py.is_digit (String c r).
Proof.
  intros Hc. destruct c as [[] [] [] [] [] [] [] []]; try done.
Qed.

Lemma fullmatch_int_minus r : Py.fullmatch_int (String "-" r) = Py.digits1 r.
Proof. done. Qed.

Lemma digits1_upper s : Py.digits1 (Py.upper s) = Py.digits1 s.
Proof.
  destruct s as [|c s]; [done|].
  change (Py.upper (String c s)) with (String (Py.upper_char c) (Py.upper s)).
  change (Py.digits1 (String (Py.upper_char c) (Py.upper s)))
    with (Py.all_chars Py.is_digit (Py.upper (String c s))).
  by rewrite all_digits_upper.
Qed.

Lemma fullmatch_int_upper s : Py.fullmatch_int (Py.upper s) = Py.fullmatch_int s.
Proof.
  destruct s as [|c s]; [done|].
  change (Py.upper (String c s)) with (String (Py.upper_char c) (Py.upper s)).
  destruct (decide (c = "-"%char)) as [->|Hc].
  - change (Py.upper_char "-") with "-"%char. rewrite !fullmatch_int_minus. apply digits1_upper.
  - rewrite !fullmatch_int_cons; [|done|].
    + change (String (Py.upper_char c) (Py.upper s)) with (Py.upper (String c s)).
      apply all_digits_upper.
    + intros H. apply Hc.
      assert (E : bool_decide (Py.upper_char c = "-"%char) = bool_decide (c = "-"%char))
        by (by apply upper_char_fixed).
      rewrite bool_decide_eq_true_2 in E by done. symmetry in E.
      by apply bool_decide_eq_true in E.
Qed.

End VariantFacts.

(** X17. For a code that is not blank, the keys that
    [normalize_code_keys] registers are exactly the variants that the lookup
    function tries for the same text. *)
Theorem variants_mirror_keys (list_of_set : gset string -> list string) (code k : string) :
  (forall X, list_of_set X ≡ₚ elements X) ->
  Py.strip code <> "" ->
  k ∈ normalize_code_keys list_of_set code <-> k ∈ norm_variants (PyStr code).
Proof.
  intros Hperm Hne. unfold normalize_code_keys. rewrite decide_False by done.
  rewrite (list_of_set_elem list_of_set Hperm). unfold norm_variants, code_key_set.
  cbn [py_str]. rewrite dedup_elem.
  destruct (Py.fullmatch_int (Py.strip code)); cbn [negb].
  - destruct (Py.int (Py.strip code)) as [n|].
    + destruct ((0 <=? n) && (n <? 100)); cbn [app].
      * rewrite !elem_of_union, !elem_of_singleton, !elem_of_cons, elem_of_nil.
        split; [|intros [? _]]; try (split; [|apply not_elem_of_empty]); tauto.
      * rewrite !elem_of_union, !elem_of_singleton, !elem_of_cons, elem_of_nil.
        split; [|intros [? _]]; try (split; [|apply not_elem_of_empty]); tauto.
    + rewrite elem_of_singleton, list_elem_of_singleton.
      split; [|intros [? _]]; try (split; [|apply not_elem_of_empty]); tauto.
  - rewrite !elem_of_union, !elem_of_singleton, !elem_of_cons, elem_of_nil.
    split; [|intros [? _]]; try (split; [|apply not_elem_of_empty]); tauto.
Qed.

Lemma variants_mirror_keys_witness :
  "07" ∈ normalize_code_keys elements " 7" <-> "07" ∈ norm_variants (PyStr " 7").
Proof.
  apply (variants_mirror_keys elements " 7" "07").
  - intros X. reflexivity.
  - done.
Defined.



(** X19. Once a category whose code is not numeric is added to a
    map, a value that equals the code up to case and surrounding white
    space, and is not itself a key of the map before, is given the label of
    the category. *)
Theorem codes_match_ignoring_case (list_of_set : gset string -> list string)
    (m : gmap string string) (c : Categoria) (v : string) :
  (forall X, list_of_set X ≡ₚ elements X) ->
  Py.strip (valor c) <> "" -> Py.strip (categoria c) <> "" ->
  Py.fullmatch_int (Py.strip (valor c)) = false ->
  Py.upper (Py.strip v) = Py.upper (Py.strip (valor c)) ->
  m !! Py.strip v = None ->
  lookup_udf (add_categoria list_of_set m c) (PyStr v) = Some (Py.strip (categoria c)).
Proof.
  intros Hperm Hcode Hlab Hcm Hup Hfree.
  assert (Hvm : Py.fullmatch_int (Py.strip v) = false)
    by (by rewrite <- fullmatch_int_upper, Hup, fullmatch_int_upper).
  assert (Hkey : inserts c (Py.upper (Py.strip v))).
  { split; [done|]. split; [done|]. unfold code_key_set. rewrite Hcm, Hup. cbn [negb].
    set_solver. }
  rewrite lookup_udf_raw. cbn [py_str]. cbv zeta. rewrite Hvm. cbn [negb lookup_first].
  destruct (decide (Py.strip v ∈ dom (add_categoria list_of_set m c))) as [Hd|Hd].
  - apply elem_of_dom in Hd as [lab Hd]. rewrite Hd.
    rewrite (add_categoria_lookup list_of_set Hperm) in Hd.
    destruct (decide (inserts c (Py.strip v))); congruence.
  - rewrite decide_True.
    + rewrite (add_categoria_lookup list_of_set Hperm). by rewrite decide_True.
    + apply elem_of_dom. rewrite (add_categoria_lookup list_of_set Hperm).
      rewrite decide_True by done. by eexists.
Qed.

Lemma codes_match_ignoring_case_witness :
  lookup_udf (add_categoria elements ∅ {| valor := "Ab"; categoria := "Rural" |}) (PyStr "aB ")
  = Some "Rural".
Proof.
  apply (codes_match_ignoring_case elements ∅ {| valor := "Ab"; categoria := "Rural" |} "aB ").
  - intros X. reflexivity.
  - done.
  - done.
  - reflexivity.
  - reflexivity.
  - reflexivity.
Defined.

(** ** The consolidated mappings and their application *)
(** X20. A base and a variable have a consolidated mapping
    exactly when some dictionary row has them. Every key and every label of
    the mapping is non-empty, and the label is the stripped label of a
    category of a row of that group, among whose keys the key is. *)
Theorem consolidated_labels_come_from_rows (list_of_set : gset string -> list string)
    (rows : list DictRow) (base var : string) :
  (forall X, list_of_set X ≡ₚ elements X) ->
  match mapping_of list_of_set rows base var with
  | Some mp =>
      (exists r, r ∈ rows /\ row_key r = (base, var)) /\
      forall k lab, mp !! k = Some lab ->
        lab <> "" /\ k <> "" /\
        exists r c, r ∈ rows /\ row_key r = (base, var) /\ c ∈ categorias r /\
                    k ∈ code_key_set (Py.strip (valor c)) /\ lab = Py.strip (categoria c)
  | None => forall r, r ∈ rows -> row_key r <> (base, var)
  end.
Proof.
  intros Hperm. rewrite mapping_of_entries.
  destruct (entries list_of_set (base, var) rows) as [|e0 es] eqn:E.
  - intros r Hr Hkey.
    assert (H : row_entry list_of_set r ∈ entries list_of_set (base, var) rows)
      by (apply entries_elem; by exists r).
    rewrite E in H. by apply elem_of_nil in H.
  - split.
    + assert (H : e0 ∈ entries list_of_set (base, var) rows) by (rewrite E; by left).
      apply entries_elem in H as (r & ? & ? & _). by exists r.
    + intros k lab Hk. rewrite <- E in Hk. rewrite merge_group_lookup in Hk.
      destruct (winner k (entries list_of_set (base, var) rows)) as [[rk lab']|] eqn:Ew; [|done].
      injection Hk as ->.
      apply winner_elem in Ew as (e & He & _ & Hlab).
      apply entries_elem in He as (r & Hr & Hkey & ->). cbn [row_entry snd] in Hlab.
      apply (local_map_of_lookup_inv list_of_set Hperm) in Hlab as (c & Hc & (Hv & Hl & Hin) & ->).
      split; [done|]. split.
      * intros ->. by apply (code_key_set_nonempty (Py.strip (valor c))).
      * by exists r, c.
Qed.

Lemma consolidated_labels_come_from_rows_witness :
  match mapping_of elements [dict_2024q4; dict_2022q2] "SDEMT" "EMP_PPAL" with
  | Some mp =>
      (exists r, r ∈ [dict_2024q4; dict_2022q2] /\ row_key r = ("SDEMT", "EMP_PPAL")) /\
      forall k lab, mp !! k = Some lab ->
        lab <> "" /\ k <> "" /\
        exists r c, r ∈ [dict_2024q4; dict_2022q2] /\ row_key r = ("SDEMT", "EMP_PPAL") /\
                    c ∈ categorias r /\
                    k ∈ code_key_set (Py.strip (valor c)) /\ lab = Py.strip (categoria c)
  | None => forall r, r ∈ [dict_2024q4; dict_2022q2] -> row_key r <> ("SDEMT", "EMP_PPAL")
  end.
Proof.
  apply (consolidated_labels_come_from_rows elements [dict_2024q4; dict_2022q2]
           "SDEMT" "EMP_PPAL").
  intros X. reflexivity.
Defined.

Section PlanFacts.
(** For an upper-cased name, the last column that has it. *)
Lemma col_upper_to_orig_gen cols u : forall (m : gmap string string),
  foldl (fun m c => <[Py.upper c := c]> m) m cols !! u
  = match last (filter (fun c => Py.upper c = u) cols) with
    | Some c => Some c
    | None => m !! u
    end.
Proof.
  induction cols as [|c cols IH]; intros m; simpl; [done|].
  rewrite IH, filter_cons. destruct (decide (Py.upper c = u)) as [<-|Hne].
  - rewrite last_cons. destruct (last (filter _ cols)); [done|].
    by rewrite lookup_insert_eq.
  - destruct (last (filter _ cols)); [done|]. by rewrite lookup_insert_ne.
Qed.

Lemma col_upper_to_orig_last cols u :
  col_upper_to_orig cols !! u = last (filter (fun c => Py.upper c = u) cols).
Proof.
  unfold col_upper_to_orig. rewrite col_upper_to_orig_gen, lookup_empty.
  by destruct (last _).
Qed.

Lemma col_upper_to_orig_Some cols u c :
  col_upper_to_orig cols !! u = Some c -> c ∈ cols /\ Py.upper c = u.
Proof.
  rewrite col_upper_to_orig_last. intros H%last_Some_elem_of.
  by apply list_elem_of_filter in H as [? ?].
Qed.

Lemma plan_step_counts cols st item :
  Apply.candidates st = length (Apply.mapped_pairs st) ->
  Apply.candidates (Apply.plan_step cols st item)
  = length (Apply.mapped_pairs (Apply.plan_step cols st item)).
Proof.
  intros H. unfold Apply.plan_step. destruct item as [var mp].
  destruct (col_upper_to_orig cols !! Py.upper var); [|done].
  destruct (decide (mp = ∅)); [done|]. simpl. rewrite length_app. simpl. lia.
Qed.

Lemma plan_step_total cols st item :
  (length (Apply.mapped_pairs (Apply.plan_step cols st item))
   + length (Apply.missing_in_parquet (Apply.plan_step cols st item))
   = S (length (Apply.mapped_pairs st) + length (Apply.missing_in_parquet st)))%nat.
Proof.
  unfold Apply.plan_step. destruct item as [var mp].
  destruct (col_upper_to_orig cols !! Py.upper var); [destruct (decide (mp = ∅))|];
    simpl; rewrite length_app; simpl; lia.
Qed.

Lemma plan_step_mapped cols st item :
  Forall (fun x => x.1.2 ∈ cols /\ Py.upper x.1.2 = x.1.1 /\ x.2 <> ∅
                   /\ col_upper_to_orig cols !! x.1.1 = Some x.1.2)
         (Apply.mapped_pairs st) ->
  Forall (fun x => x.1.2 ∈ cols /\ Py.upper x.1.2 = x.1.1 /\ x.2 <> ∅
                   /\ col_upper_to_orig cols !! x.1.1 = Some x.1.2)
         (Apply.mapped_pairs (Apply.plan_step cols st item)).
Proof.
  intros H. unfold Apply.plan_step. destruct item as [var mp].
  destruct (col_upper_to_orig cols !! Py.upper var) as [c|] eqn:Ec; [|done].
  destruct (decide (mp = ∅)); [done|]. simpl. apply Forall_app. split; [done|].
  constructor; [|done]. simpl. destruct (col_upper_to_orig_Some _ _ _ Ec). done.
Qed.

Lemma label_plan_fold cols items : forall st,
  Apply.candidates st = length (Apply.mapped_pairs st) ->
  Forall (fun x => x.1.2 ∈ cols /\ Py.upper x.1.2 = x.1.1 /\ x.2 <> ∅
                   /\ col_upper_to_orig cols !! x.1.1 = Some x.1.2)
         (Apply.mapped_pairs st) ->
  let p := foldl (Apply.plan_step cols) st items in
  Apply.candidates p = length (Apply.mapped_pairs p) /\
  (length (Apply.mapped_pairs p) + length (Apply.missing_in_parquet p)
   = length (Apply.mapped_pairs st) + length (Apply.missing_in_parquet st) + length items)%nat /\
  Forall (fun x => x.1.2 ∈ cols /\ Py.upper x.1.2 = x.1.1 /\ x.2 <> ∅
                   /\ col_upper_to_orig cols !! x.1.1 = Some x.1.2)
         (Apply.mapped_pairs p).
Proof.
  induction items as [|item items IH]; intros st Hc Hm; simpl.
  - split; [done|]. split; [lia|done].
  - destruct (IH (Apply.plan_step cols st item) (plan_step_counts _ _ _ Hc)
                (plan_step_mapped _ _ _ Hm)) as (H1 & H2 & H3).
    split; [done|]. split; [|done]. rewrite H2, plan_step_total. lia.
Qed.
End PlanFacts.

(** X21. The two counts that [apply_labels_to_parquet] returns are
    equal: every candidate variable is mapped. The mapped and the missing
    variables together are all the variables of the dictionary. Every mapped
    variable has a non-empty mapping and is paired with the last column
    whose upper-cased name is the upper-cased variable. *)
Theorem label_plan_counts (orig_cols : list string) (items : list (string * gmap string string)) :
  let p := Apply.label_plan orig_cols items in
  Apply.apply_counts orig_cols items
  = (length (Apply.mapped_pairs p), length (Apply.mapped_pairs p), Apply.missing_in_parquet p) /\
  (length (Apply.mapped_pairs p) + length (Apply.missing_in_parquet p) = length items)%nat /\
  Forall (fun x => x.1.2 ∈ orig_cols /\ Py.upper x.1.2 = x.1.1 /\ x.2 <> ∅
                   /\ last (filter (fun c => Py.upper c = x.1.1) orig_cols) = Some x.1.2)
         (Apply.mapped_pairs p).
Proof.
  cbv zeta. unfold Apply.label_plan.
  destruct (label_plan_fold orig_cols items Apply.plan_init eq_refl (Forall_nil_2 _))
    as (H1 & H2 & H3).
  split; [|split].
  - unfold Apply.apply_counts, Apply.label_plan. destruct items as [|i0 items]; [done|].
    by rewrite H1.
  - rewrite H2. simpl. lia.
  - eapply Forall_impl; [exact H3|]. intros x (? & ? & ? & Hl).
    by rewrite col_upper_to_orig_last in Hl.
Qed.

(** X22. A label column is derived only for a variable with a
    non-empty mapping. It is named, with the suffix [_label], after the last
    column whose upper-cased name is that of the variable, and holds the
    lookup of each value of that column, one for each row. *)
Theorem label_column_source (var_maps : gmap string (gmap string string)) (t : DataFrame)
    (var name : string) (vals : list (option string)) :
  label_columns var_maps t !! var = Some (name, vals) ->
  exists col mapping,
    var_maps !! var = Some mapping /\ mapping <> ∅ /\
    last (filter (fun c => Py.upper c = Py.upper var) (columns t)) = Some col /\
    name = col +:+ "_label" /\
    vals = lookup_udf mapping <$> column_values col t /\
    length vals = nrows t.
Proof.
  unfold label_columns. rewrite map_lookup_imap.
  destruct (var_maps !! var) as [mapping|]; [|done]. cbn [mbind option_bind].
  destruct (col_upper_to_orig (columns t) !! Py.upper var) as [col|] eqn:Ec; [|done].
  destruct (decide (mapping = ∅)); [done|]. intros [= <- <-].
  exists col, mapping. rewrite col_upper_to_orig_last in Ec.
  repeat split; try done.
  unfold label_values. rewrite length_fmap. unfold column_values.
  apply last_Some_elem_of, list_elem_of_filter in Ec as [_ Hin].
  apply index_of_is_Some in Hin as [i ->]. by rewrite length_fmap.
Qed.

Lemma label_column_source_witness :
  exists col mapping,
    ({["emp_ppal" := {["1" := "Formal"]}]} : gmap string (gmap string string)) !! "emp_ppal"
    = Some mapping /\ mapping <> ∅ /\
    last (filter (fun c => Py.upper c = Py.upper "emp_ppal") (columns sdemt_table)) = Some col /\
    "EMP_PPAL_label" = col +:+ "_label" /\
    [Some "Formal"; Some "Formal"] = lookup_udf mapping <$> column_values col sdemt_table /\
    length [Some "Formal"; Some "Formal"] = nrows sdemt_table.
Proof.
  apply (label_column_source {["emp_ppal" := {["1" := "Formal"]}]} sdemt_table "emp_ppal").
  vm_compute. reflexivity.
Defined.

Section BaseNames.
Lemma base_from_parquet_path_Ok name b :
  Apply.base_from_parquet_path name = Ok b ->
  b ∈ MODULES /\
  (Apply.ends_with (Apply.labeled_name (Py.lower b)) (Py.lower name) = true \/
   Apply.ends_with (Apply.labeled_name (Py.lower b) +:+ Apply.newline) (Py.lower name) = true).
Proof.
  unfold Apply.base_from_parquet_path.
  destruct (find _ Apply.BASE_NAMES) as [b0|] eqn:Ef; [|done]. intros [= <-].
  apply find_some in Ef as [Hin Hends]. apply list_elem_of_In in Hin.
  apply orb_true_iff in Hends.
  unfold Apply.BASE_NAMES in Hin.
  apply elem_of_cons in Hin as [->|Hin]; [split; [do 3 right; by left|exact Hends]|].
  apply elem_of_cons in Hin as [->|Hin]; [split; [do 4 right; by left|exact Hends]|].
  apply elem_of_cons in Hin as [->|Hin]; [split; [do 2 right; by left|exact Hends]|].
  apply elem_of_cons in Hin as [->|Hin]; [split; [right; by left|exact Hends]|].
  apply list_elem_of_singleton in Hin as ->. split; [by left|exact Hends].
Qed.
End BaseNames.

(** X23. For each module, the name that [parquet.py] gives its output,
    once [label_ent_mun.py] has put [_labeled] into it, is recognised by
    [base_from_parquet_path] as that module, and the name without [_labeled]
    is refused with a [ValueError]. A base that is recognised is one of the
    five modules, and the lower-cased name ends with the text of that
    base. *)
Theorem labeled_outputs_are_recognised :
  Forall (fun m => Apply.base_from_parquet_path
                     (Py.replace ".parquet" "_labeled.parquet" (out_path_of m)) = Ok m) MODULES /\
  Forall (fun m => exists msg, Apply.base_from_parquet_path (out_path_of m)
                               = Raise (ValueError msg)) MODULES /\
  forall name b, Apply.base_from_parquet_path name = Ok b ->
    b ∈ MODULES /\
    (Apply.ends_with (Apply.labeled_name (Py.lower b)) (Py.lower name) = true \/
     Apply.ends_with (Apply.labeled_name (Py.lower b) +:+ Apply.newline) (Py.lower name) = true).
Proof.
  split; [|split].
  - repeat (constructor; [vm_compute; reflexivity|]). constructor.
  - repeat (constructor; [eexists; vm_compute; reflexivity|]). constructor.
  - apply base_from_parquet_path_Ok.
Qed.

(** ** The catalog and the geographic labels *)
Section ZfillFacts.
Lemma all_chars_app p a b :
  Py.all_chars p (a +:+ b) = Py.all_chars p a && Py.all_chars p b.
Proof.
  induction a as [|c a IH]; [done|].
  change (String c a +:+ b) with (String c (a +:+ b)). simpl. by rewrite IH, andb_assoc.
Qed.

Lemma zeros_cons k :
  String.concat "" (replicate (S k) "0") = String "0" (String.concat "" (replicate k "0")).
Proof. by destruct k. Qed.

Lemma zeros_digits k : Py.all_chars Py.is_digit (String.concat "" (replicate k "0")) = true.
Proof. induction k as [|k IH]; [done|]. rewrite zeros_cons. simpl. exact IH. Qed.

Lemma zeros_length k : String.length (String.concat "" (replicate k "0")) = k.
Proof. induction k as [|k IH]; [done|]. rewrite zeros_cons. simpl. by rewrite IH. Qed.

Lemma zfill_digits w s :
  Py.all_chars Py.is_digit s = true -> Py.all_chars Py.is_digit (Py.zfill w s) = true.
Proof. intros H. unfold Py.zfill. by rewrite all_chars_app, zeros_digits, H. Qed.

Lemma zfill_length w s : (w <= String.length (Py.zfill w s))%nat.
Proof. unfold Py.zfill. rewrite length_app_string, zeros_length. lia. Qed.

Lemma zfill_long w s : (w <= String.length s)%nat -> Py.zfill w s = s.
Proof.
  intros H. unfold Py.zfill. replace (w - String.length s)%nat with 0%nat by lia. done.
Qed.

Lemma filter_digits_id s :
  Py.all_chars Py.is_digit s = true -> Py.filter_chars Py.is_digit s = s.
Proof.
  induction s as [|c s IH]; [done|]. simpl. intros [Hc Hs]%andb_true_iff.
  by rewrite Hc, (IH Hs).
Qed.

Lemma fixed_code_digits w v : Py.all_chars Py.is_digit (Geo.fixed_code w v) = true.
Proof. unfold Geo.fixed_code. apply zfill_digits, all_digits_filter. Qed.

Lemma fixed_code_idem w v : Geo.fixed_code w (PyStr (Geo.fixed_code w v)) = Geo.fixed_code w v.
Proof.
  unfold Geo.fixed_code at 1. cbn [astype_str].
  rewrite filter_digits_id by apply fixed_code_digits.
  apply zfill_long. unfold Geo.fixed_code. apply zfill_length.
Qed.
End ZfillFacts.

Section DropFacts.
Context {K V : Type} `{EqDecision K}.

Lemma drop_duplicates_elem (l : list (K * V)) : forall seen p,
  p ∈ Geo.drop_duplicates seen l -> p ∈ l /\ fst p ∉ seen.
Proof.
  induction l as [|[k v] l IH]; intros seen p; simpl; [by intros ?%elem_of_nil|].
  destruct (decide (k ∈ seen)) as [Hk|Hk].
  - intros [? ?]%IH. split; [by right|done].
  - intros [->|[? Hs]%IH]%elem_of_cons; [split; [by left|done]|].
    split; [by right|]. intros ?. apply Hs. by right.
Qed.

Lemma drop_duplicates_NoDup (l : list (K * V)) : forall seen,
  NoDup (fst <$> Geo.drop_duplicates seen l).
Proof.
  induction l as [|[k v] l IH]; intros seen; simpl; [constructor|].
  destruct (decide (k ∈ seen)); [apply IH|]. csimpl. constructor; [|apply IH].
  intros ([k' v'] & Hk & Hin)%list_elem_of_fmap. simpl in Hk. subst k'.
  apply drop_duplicates_elem in Hin as [_ Hn]. apply Hn. by left.
Qed.

End DropFacts.

Section MergeFacts2.
Context {K : Type} `{EqDecision K}.

Lemma matches_unique (right : list (K * pyval)) (k : K) :
  NoDup (fst <$> right) ->
  snd <$> filter (fun p => fst p = k) right
  = match List.find (fun p => bool_decide (fst p = k)) right with
    | Some p => [snd p]
    | None => []
    end.
Proof.
  induction right as [|[k' v] right IH]; intros Hnd; csimpl; [done|].
  apply NoDup_cons in Hnd as [Hk' Hnd]. rewrite filter_cons. simpl.
  destruct (decide (k' = k)) as [->|Hne].
  - rewrite bool_decide_eq_true_2 by done. csimpl. f_equal.
    assert (Hnone : forall l : list (K * pyval),
              (forall p, p ∈ l -> fst p <> k) -> filter (fun p : K * pyval => p.1 = k) l = []).
    { intros l. induction l as [|q l IHl]; intros Hl; [done|].
      rewrite filter_cons_False by (apply Hl; by left). apply IHl. intros; apply Hl. by right. }
    rewrite Hnone; [done|]. intros [k2 v2] Hin. simpl. intros ->.
    apply Hk'. apply list_elem_of_fmap. by exists (k, v2).
  - rewrite bool_decide_eq_false_2 by done. by apply IH.
Qed.

Lemma merge_left_unique (right : list (K * pyval)) (keys : list (option K)) :
  NoDup (fst <$> right) ->
  Merge.merge_left right keys = imap (fun i k => (i, Geo.merged_name right k)) keys.
Proof.
  intros Hnd. unfold Merge.merge_left.
  assert (G : forall (f : nat -> nat),
             concat (imap (fun i k => match Merge.matches right k with
                                      | [] => [(f i, PyNone)]
                                      | vs => (fun v => (f i, v)) <$> vs
                                      end) keys)
             = imap (fun i k => (f i, Geo.merged_name right k)) keys).
  { induction keys as [|k keys IH]; intros f; [done|].
    rewrite !imap_cons, concat_cons.
    change ((f 0%nat, Geo.merged_name right k)
            :: imap ((fun i k0 => (f i, Geo.merged_name right k0)) ∘ S) keys)
      with ([(f 0%nat, Geo.merged_name right k)]
            ++ imap ((fun i k0 => (f i, Geo.merged_name right k0)) ∘ S) keys).
    f_equal; [|exact (IH (f ∘ S))].
    unfold Merge.matches, Geo.merged_name. destruct k as [k|]; [|done].
    rewrite (matches_unique right k Hnd).
    by destruct (find _ right). }
  exact (G id).
Qed.
End MergeFacts2.

Section CatalogFacts.
Lemma read_catalog_NoDup cat c :
  Geo.read_catalog cat = Ok c ->
  NoDup (fst <$> Geo.ent_df c) /\ NoDup (fst <$> Geo.muni_df c).
Proof.
  unfold Geo.read_catalog. destruct (Geo.catalog_table cat) as [df|e]; [|done].
  cbn [mbind result_bind]. destruct (filter _ Geo.expected); [|done].
  intros [= <-]. cbn [Geo.ent_df Geo.muni_df].
  split; apply drop_duplicates_NoDup.
Qed.
End CatalogFacts.

(** X24. In the catalog that [read_catalog] returns no entity code and no
    pair of entity and municipality codes occurs twice; an entity code is
    made of at least two digits and a municipality code of at least
    three. *)
Theorem catalog_keys_are_unique (cat : Geo.CatalogFile) :
  match Geo.read_catalog cat with
  | Ok c =>
      NoDup (fst <$> Geo.ent_df c) /\ NoDup (fst <$> Geo.muni_df c) /\
      Forall (fun k => Py.all_chars Py.is_digit k = true /\ (2 <= String.length k)%nat)
             (fst <$> Geo.ent_df c) /\
      Forall (fun k => Py.all_chars Py.is_digit k.1 = true /\ (2 <= String.length k.1)%nat /\
                       Py.all_chars Py.is_digit k.2 = true /\ (3 <= String.length k.2)%nat)
             (fst <$> Geo.muni_df c)
  | Raise _ => True
  end.
Proof.
  destruct (Geo.read_catalog cat) as [c|e] eqn:Ec; [|done].
  destruct (read_catalog_NoDup cat c Ec) as [H1 H2]. split; [done|]. split; [done|].
  unfold Geo.read_catalog in Ec. destruct (Geo.catalog_table cat) as [df|e]; [|done].
  cbn [mbind result_bind] in Ec. destruct (filter _ Geo.expected); [|done].
  injection Ec as <-. cbn [Geo.ent_df Geo.muni_df]. split.
  - apply Forall_forall. intros k ([k' v] & -> & Hin)%list_elem_of_fmap.
    apply drop_duplicates_elem in Hin as [Hin _].
    apply elem_of_zip_l, list_elem_of_fmap in Hin as (x & -> & _). simpl.
    split; [apply fixed_code_digits|apply zfill_length].
  - apply Forall_forall. intros k ([[k1 k2] v] & -> & Hin)%list_elem_of_fmap.
    apply drop_duplicates_elem in Hin as [Hin _]. apply elem_of_zip_l in Hin.
    pose proof (elem_of_zip_l _ _ _ _ Hin) as Hk1. pose proof (elem_of_zip_r _ _ _ _ Hin) as Hk2.
    apply list_elem_of_fmap in Hk1 as (x1 & -> & _).
    apply list_elem_of_fmap in Hk2 as (x2 & -> & _).
    simpl. repeat split; try apply fixed_code_digits; apply zfill_length.
Qed.

(** X25. The left merge of any column of keys with the entities, or
    with the municipalities, of a catalog that [read_catalog] returned gives
    one row for each row of the table, in order, with the name found for its
    key and a null when there is none: labelling neither drops nor repeats a
    row. *)
Theorem labelling_keeps_rows (cat : Geo.CatalogFile) (c : Geo.Catalog)
    (ent_keys : list (option string)) (mun_keys : list (option (string * string))) :
  Geo.read_catalog cat = Ok c ->
  Merge.merge_left (Geo.ent_df c) ent_keys
  = imap (fun i k => (i, Geo.merged_name (Geo.ent_df c) k)) ent_keys /\
  Merge.merge_left (Geo.muni_df c) mun_keys
  = imap (fun i k => (i, Geo.merged_name (Geo.muni_df c) k)) mun_keys.
Proof.
  intros Hc. destruct (read_catalog_NoDup cat c Hc) as [H1 H2].
  split; by apply merge_left_unique.
Qed.

Lemma labelling_keeps_rows_witness :
  let c := {| Geo.ent_df := [("01", PyStr "Aguascalientes"); ("09", PyStr "Ciudad de México")];
              Geo.muni_df := [(("01", "001"), PyStr "Aguascalientes");
                              (("01", "002"), PyStr "Asientos");
                              (("09", "002"), PyStr "Azcapotzalco")] |} in
  Merge.merge_left (Geo.ent_df c) [Some "09"; None; Some "01"; Some "33"]
  = imap (fun i k => (i, Geo.merged_name (Geo.ent_df c) k)) [Some "09"; None; Some "01"; Some "33"] /\
  Merge.merge_left (Geo.muni_df c) [Some ("01", "002")]
  = imap (fun i k => (i, Geo.merged_name (Geo.muni_df c) k)) [Some ("01", "002")].
Proof.
  apply (labelling_keeps_rows Samples.small_catalog). vm_compute. reflexivity.
Defined.

Section CodeFacts.
Lemma two_digit_codes :
  forallb (fun n => String.eqb (Geo.fixed_code 2 (PyStr (Py.str n))) (Py.fmt_02d n)
                    && String.eqb (Geo.fixed_code 2 (PyStr (Py.fmt_02d n))) (Py.fmt_02d n))
          (seqZ 0 100) = true.
Proof. vm_compute. reflexivity. Qed.

Lemma three_digit_codes :
  forallb (fun n => String.eqb (Geo.fixed_code 3 (PyStr (Py.str n))) (Py.zfill 3 (Py.str n))
                    && (String.length (Py.zfill 3 (Py.str n)) =? 3)%nat)
          (seqZ 0 1000) = true.
Proof. vm_compute. reflexivity. Qed.
End CodeFacts.

(** X26. The normalisation of the codes is idempotent, and a normalised
    catalog code is its own key on the side of the tables. For n from 0 to
    99, n written with or without a leading zero gives the same two-digit
    key, and for n from 0 to 999 the decimal text of n gives a key of three
    digits. *)
Theorem codes_meet_after_normalisation :
  (forall w v, Geo.fixed_code w (PyStr (Geo.fixed_code w v)) = Geo.fixed_code w v) /\
  (forall w v, Geo.row_code w (PyStr (Geo.fixed_code w v)) = Some (Geo.fixed_code w v)) /\
  (forall n, 0 <= n < 100 ->
     Geo.fixed_code 2 (PyStr (Py.str n)) = Py.fmt_02d n /\
     Geo.row_code 2 (PyStr (Py.str n)) = Some (Py.fmt_02d n) /\
     Geo.row_code 2 (PyStr (Py.fmt_02d n)) = Some (Py.fmt_02d n)) /\
  (forall n, 0 <= n < 1000 ->
     Geo.row_code 3 (PyStr (Py.str n)) = Some (Py.zfill 3 (Py.str n)) /\
     String.length (Py.zfill 3 (Py.str n)) = 3%nat).
Proof.
  split; [apply fixed_code_idem|]. split.
  { intros w v. unfold Geo.row_code. f_equal. apply fixed_code_idem. }
  split.
  - intros n Hn.
    assert (Hin : n ∈ seqZ 0 100) by (apply elem_of_seqZ; lia).
    pose proof (proj1 (forallb_forall _ _) two_digit_codes n (proj1 (list_elem_of_In _ _) Hin)) as H.
    apply andb_true_iff in H as [H1 H2]. apply String.eqb_eq in H1, H2.
    split; [done|]. unfold Geo.row_code. split; f_equal; done.
  - intros n Hn.
    assert (Hin : n ∈ seqZ 0 1000) by (apply elem_of_seqZ; lia).
    pose proof (proj1 (forallb_forall _ _) three_digit_codes n (proj1 (list_elem_of_In _ _) Hin)) as H.
    apply andb_true_iff in H as [H1 H2]. apply String.eqb_eq in H1. apply Nat.eqb_eq in H2.
    split; [|done]. unfold Geo.row_code. f_equal. done.
Qed.

(** ** The scripts from end to end *)
Section NoTable.
Variable list_of_set : gset string -> list string.

Lemma row_key_no_table r : tabla r = "" -> row_key r = ("BASE", variable r).
Proof. intros H. unfold row_key. rewrite H. reflexivity. Qed.

Lemma entries_without_table base var rows :
  base ∈ MODULES ->
  entries list_of_set (base, var) rows
  = entries list_of_set (base, var) (filter (fun r => tabla r <> "") rows).
Proof.
  intros Hb. unfold entries. f_equal.
  induction rows as [|r rows IH]; [done|].
  rewrite !filter_cons.
  destruct (decide (tabla r <> "")) as [Ht|Ht].
  - rewrite filter_cons. destruct (decide (row_key r = (base, var))); by rewrite IH.
  - apply dec_stable in Ht. rewrite decide_False; [exact IH|].
    rewrite (row_key_no_table r Ht). intros [= <- _].
    assert (H : bool_decide ("BASE" ∈ MODULES) = false) by (by vm_compute).
    by apply bool_decide_eq_false in H.
Qed.
End NoTable.

(** X28. Dictionary rows without a table code are grouped under the base
    [BASE], which is the base of no table: the consolidated mapping of a base
    recognised from a file name is the same with and without these rows. *)
Theorem rows_without_table_are_ignored (list_of_set : gset string -> list string)
    (rows : list DictRow) (name base var : string) :
  Apply.base_from_parquet_path name = Ok base ->
  mapping_of list_of_set rows base var
  = mapping_of list_of_set (filter (fun r => tabla r <> "") rows) base var.
Proof.
  intros Hb. apply base_from_parquet_path_Ok in Hb as [Hb _].
  by rewrite !mapping_of_entries, <- (entries_without_table list_of_set base var rows Hb).
Qed.

Lemma rows_without_table_are_ignored_witness :
  mapping_of elements
    [dict_2024q4; {| tabla := ""; variable := "EMP_PPAL";
                     categorias := [{| valor := "01"; categoria := "Otro" |}] |}]
    "SDEMT" "EMP_PPAL"
  = mapping_of elements
      (filter (fun r => tabla r <> "")
         [dict_2024q4; {| tabla := ""; variable := "EMP_PPAL";
                          categorias := [{| valor := "01"; categoria := "Otro" |}] |}])
      "SDEMT" "EMP_PPAL".
Proof.
  apply (rows_without_table_are_ignored elements _ "enoe_master_sdemt_labeled.parquet").
  vm_compute. reflexivity.
Defined.

Section OutputRows.
Variable list_of_set : gset string -> list string.
Hypothesis list_of_set_perm : forall X, list_of_set X ≡ₚ elements X.

End OutputRows.



Section GeoLoop.
Variable labelled_ddf : DataFrame -> Geo.Catalog -> result (list (result ArrowTable)).

Implicit Types (fs : gmap string ParquetFile) (c : Geo.Catalog).




End GeoLoop.


